(** * Suggestion core of the writing-assistant editor

    A shallow embedding of the text-reconciliation code of the editor
    component (the file that defines [handleContentEditable],
    [mergeSuggestionsIntelligently], [findExactTextPosition],
    [findWithContext], [findFuzzyMatches], [updateSuggestionPositions],
    [simpleHash] and [detectChangedSections]), and the properties of the
    specification that concern it; then of the functions around them
    ([handleSuggestionClick], [escapeHtml], [splitIntoSentences],
    [splitTextIntoAnalysisSections], [collectCurrentSuggestions],
    [analyzeChangedSectionsWithOpenAI], [getContextBefore] and
    [getContextAfter]), with further properties of the whole.

    Conventions of the embedding:
    - a JavaScript string is the list of its UTF-16 code units;
    - a JavaScript number is a rational.  The offsets computed below are
      integers or half-integers far below 2^53, on which double arithmetic
      is exact; the two quotients that are not (the confidence of a fuzzy
      candidate and the score it is sorted by) are only compared, and are
      compared exactly.  Values that are integers by construction (lengths,
      results of [indexOf]) are kept in [Z] and injected where they meet a
      number that need not be one;
    - the state of the component is a record, a handler a function from
      state to state, and the calls to [toast] are logged in the state; the
      callback of the typing timer, which runs later than the render it is
      of, takes the state of that render as well;
    - a loop that the source can fail to leave returns [None]. *)

From Stdlib Require Import List Sorted Permutation ZArith NArith QArith Qabs Qround Lia Lqa Bool
  String Ascii DecimalString DecimalN.
Import ListNotations.
Local Open Scope Z_scope.

(** ** JavaScript strings and numbers *)

Module JS.

Definition codeUnit := N.
Definition jsstring := list codeUnit.

(** A string literal of the source, code unit by code unit (ASCII). *)
Definition js (s : string) : jsstring := map N_of_ascii (list_ascii_of_string s).

(** [s.length] *)
Definition len (s : jsstring) : Z := Z.of_nat (List.length s).

(** [a === b] on strings *)
Fixpoint streq (a b : jsstring) : bool :=
  match a, b with
  | [], [] => true
  | x :: a', y :: b' => N.eqb x y && streq a' b'
  | _, _ => false
  end.

(** ToIntegerOrInfinity: truncation toward zero. *)
Definition toInteger (q : Q) : Z := Z.quot (Qnum q) (Z.pos (Qden q)).

Definition Math_max (a b : Q) : Q := if Qle_bool a b then b else a.
Definition Math_min (a b : Q) : Q := if Qle_bool a b then a else b.
Definition Math_abs (a : Q) : Q := Qabs a.

(** [a < b] and [a !== b] on numbers *)
Definition Qlt_bool (a b : Q) : bool := negb (Qle_bool b a).
Definition Qneq_bool (a b : Q) : bool := negb (Qeq_bool a b).

Definition clampIndex (text : jsstring) (i : Z) : Z := Z.min (Z.max i 0) (len text).

(** [text.substring(from, to)] for integer arguments: both are clamped to
    [0, text.length] and swapped when out of order. *)
Definition substringZ (text : jsstring) (from to : Z) : jsstring :=
  let s := clampIndex text from in
  let e := clampIndex text to in
  let lo := Z.min s e in
  let hi := Z.max s e in
  firstn (Z.to_nat (hi - lo)) (skipn (Z.to_nat lo) text).

(** [text.substring(from, to)] *)
Definition substring (text : jsstring) (from to : Q) : jsstring :=
  substringZ text (toInteger from) (toInteger to).

Fixpoint isPrefixOf (p s : jsstring) : bool :=
  match p, s with
  | [], _ => true
  | _ :: _, [] => false
  | x :: p', y :: s' => N.eqb x y && isPrefixOf p' s'
  end.

(** [s.startsWith(p)] *)
Definition startsWith (s p : jsstring) : bool := isPrefixOf p s.

(** Scan of [indexOf]: [s] is the text from position [k] on. *)
Fixpoint indexOfAux (search s : jsstring) (k : Z) : Z :=
  if isPrefixOf search s then k
  else match s with
       | [] => -1
       | _ :: s' => indexOfAux search s' (k + 1)
       end.

(** [text.indexOf(search, from)] *)
Definition indexOf (text search : jsstring) (from : Z) : Z :=
  let k := clampIndex text from in
  indexOfAux search (skipn (Z.to_nat k) text) k.

(** [text.includes(search)] *)
Definition includes (text search : jsstring) : bool := 0 <=? indexOf text search 0.

(** The class [\s] of regular expressions, which is also what [trim] strips. *)
Definition isWhiteSpace (c : codeUnit) : bool :=
  (((9 <=? c) && (c <=? 13)) || (c =? 32) || (c =? 160) || (c =? 5760)
   || ((8192 <=? c) && (c <=? 8202)) || (c =? 8232) || (c =? 8233)
   || (c =? 8239) || (c =? 8287) || (c =? 12288) || (c =? 65279))%N.

Fixpoint dropWhileWs (s : jsstring) : jsstring :=
  match s with
  | [] => []
  | c :: s' => if isWhiteSpace c then dropWhileWs s' else s
  end.

(** [s.trim()] *)
Definition trim (s : jsstring) : jsstring :=
  rev (dropWhileWs (rev (dropWhileWs s))).

(** [s.split(/\s+/)]: [cur] is the piece being read, reversed; [inSep] tells
    that the previous code unit belonged to a separator. *)
Fixpoint splitWs (s cur : jsstring) (inSep : bool) : list jsstring :=
  match s with
  | [] => [rev cur]
  | c :: s' =>
      if isWhiteSpace c
      then (if inSep then splitWs s' cur true else rev cur :: splitWs s' [] true)
      else splitWs s' (c :: cur) false
  end.

Definition split_ws (s : jsstring) : list jsstring := splitWs s [] false.

(** [words.join(' ')] *)
Fixpoint join_space (words : list jsstring) : jsstring :=
  match words with
  | [] => []
  | [w] => w
  | w :: rest => w ++ 32%N :: join_space rest
  end.

(** [arr.slice(i, j)] for [0 <= i]. *)
Definition arraySlice {A} (arr : list A) (i j : Z) : list A :=
  firstn (Z.to_nat (j - i)) (skipn (Z.to_nat i) arr).

(** *** Lower case

    [String.prototype.toLowerCase] reads the string as code points (a lead
    surrogate followed by a trail surrogate is one code point, any other
    code unit is one by itself), maps each by the default case conversion
    of Unicode and writes the result back as code units.  The conversion
    is the lower-case mapping of the character database (UnicodeData.txt),
    but for two code points: U+0130, capital I with dot above, becomes the
    two code points U+0069 U+0307 (SpecialCasing.txt); and U+03A3, capital
    sigma, becomes the final sigma U+03C2 where a cased letter comes before
    it and none after it, case-ignorable code points being passed over on
    both sides, and the small sigma U+03C3 elsewhere.  The three tables
    below are those of version 14.0 of the character database. *)

(** The lower-case mappings: the code points [first], [first + step], ...
    up to [last] map to [lowerOfFirst], [lowerOfFirst + step], ... *)
Definition lowerCaseRanges : list (N * N * N * N) :=
  [
   (0x0041, 0x005A, 1, 0x0061); (0x00C0, 0x00D6, 1, 0x00E0); (0x00D8, 0x00DE, 1, 0x00F8);
   (0x0100, 0x012E, 2, 0x0101); (0x0132, 0x0136, 2, 0x0133); (0x0139, 0x0147, 2, 0x013A);
   (0x014A, 0x0176, 2, 0x014B); (0x0178, 0x0178, 1, 0x00FF); (0x0179, 0x017D, 2, 0x017A);
   (0x0181, 0x0181, 1, 0x0253); (0x0182, 0x0184, 2, 0x0183); (0x0186, 0x0186, 1, 0x0254);
   (0x0187, 0x0187, 1, 0x0188); (0x0189, 0x018A, 1, 0x0256); (0x018B, 0x018B, 1, 0x018C);
   (0x018E, 0x018E, 1, 0x01DD); (0x018F, 0x018F, 1, 0x0259); (0x0190, 0x0190, 1, 0x025B);
   (0x0191, 0x0191, 1, 0x0192); (0x0193, 0x0193, 1, 0x0260); (0x0194, 0x0194, 1, 0x0263);
   (0x0196, 0x0196, 1, 0x0269); (0x0197, 0x0197, 1, 0x0268); (0x0198, 0x0198, 1, 0x0199);
   (0x019C, 0x019C, 1, 0x026F); (0x019D, 0x019D, 1, 0x0272); (0x019F, 0x019F, 1, 0x0275);
   (0x01A0, 0x01A4, 2, 0x01A1); (0x01A6, 0x01A6, 1, 0x0280); (0x01A7, 0x01A7, 1, 0x01A8);
   (0x01A9, 0x01A9, 1, 0x0283); (0x01AC, 0x01AC, 1, 0x01AD); (0x01AE, 0x01AE, 1, 0x0288);
   (0x01AF, 0x01AF, 1, 0x01B0); (0x01B1, 0x01B2, 1, 0x028A); (0x01B3, 0x01B5, 2, 0x01B4);
   (0x01B7, 0x01B7, 1, 0x0292); (0x01B8, 0x01B8, 1, 0x01B9); (0x01BC, 0x01BC, 1, 0x01BD);
   (0x01C4, 0x01C4, 1, 0x01C6); (0x01C5, 0x01C5, 1, 0x01C6); (0x01C7, 0x01C7, 1, 0x01C9);
   (0x01C8, 0x01C8, 1, 0x01C9); (0x01CA, 0x01CA, 1, 0x01CC); (0x01CB, 0x01DB, 2, 0x01CC);
   (0x01DE, 0x01EE, 2, 0x01DF); (0x01F1, 0x01F1, 1, 0x01F3); (0x01F2, 0x01F4, 2, 0x01F3);
   (0x01F6, 0x01F6, 1, 0x0195); (0x01F7, 0x01F7, 1, 0x01BF); (0x01F8, 0x021E, 2, 0x01F9);
   (0x0220, 0x0220, 1, 0x019E); (0x0222, 0x0232, 2, 0x0223); (0x023A, 0x023A, 1, 0x2C65);
   (0x023B, 0x023B, 1, 0x023C); (0x023D, 0x023D, 1, 0x019A); (0x023E, 0x023E, 1, 0x2C66);
   (0x0241, 0x0241, 1, 0x0242); (0x0243, 0x0243, 1, 0x0180); (0x0244, 0x0244, 1, 0x0289);
   (0x0245, 0x0245, 1, 0x028C); (0x0246, 0x024E, 2, 0x0247); (0x0370, 0x0372, 2, 0x0371);
   (0x0376, 0x0376, 1, 0x0377); (0x037F, 0x037F, 1, 0x03F3); (0x0386, 0x0386, 1, 0x03AC);
   (0x0388, 0x038A, 1, 0x03AD); (0x038C, 0x038C, 1, 0x03CC); (0x038E, 0x038F, 1, 0x03CD);
   (0x0391, 0x03A1, 1, 0x03B1); (0x03A3, 0x03AB, 1, 0x03C3); (0x03CF, 0x03CF, 1, 0x03D7);
   (0x03D8, 0x03EE, 2, 0x03D9); (0x03F4, 0x03F4, 1, 0x03B8); (0x03F7, 0x03F7, 1, 0x03F8);
   (0x03F9, 0x03F9, 1, 0x03F2); (0x03FA, 0x03FA, 1, 0x03FB); (0x03FD, 0x03FF, 1, 0x037B);
   (0x0400, 0x040F, 1, 0x0450); (0x0410, 0x042F, 1, 0x0430); (0x0460, 0x0480, 2, 0x0461);
   (0x048A, 0x04BE, 2, 0x048B); (0x04C0, 0x04C0, 1, 0x04CF); (0x04C1, 0x04CD, 2, 0x04C2);
   (0x04D0, 0x052E, 2, 0x04D1); (0x0531, 0x0556, 1, 0x0561); (0x10A0, 0x10C5, 1, 0x2D00);
   (0x10C7, 0x10C7, 1, 0x2D27); (0x10CD, 0x10CD, 1, 0x2D2D); (0x13A0, 0x13EF, 1, 0xAB70);
   (0x13F0, 0x13F5, 1, 0x13F8); (0x1C90, 0x1CBA, 1, 0x10D0); (0x1CBD, 0x1CBF, 1, 0x10FD);
   (0x1E00, 0x1E94, 2, 0x1E01); (0x1E9E, 0x1E9E, 1, 0x00DF); (0x1EA0, 0x1EFE, 2, 0x1EA1);
   (0x1F08, 0x1F0F, 1, 0x1F00); (0x1F18, 0x1F1D, 1, 0x1F10); (0x1F28, 0x1F2F, 1, 0x1F20);
   (0x1F38, 0x1F3F, 1, 0x1F30); (0x1F48, 0x1F4D, 1, 0x1F40); (0x1F59, 0x1F5F, 2, 0x1F51);
   (0x1F68, 0x1F6F, 1, 0x1F60); (0x1F88, 0x1F8F, 1, 0x1F80); (0x1F98, 0x1F9F, 1, 0x1F90);
   (0x1FA8, 0x1FAF, 1, 0x1FA0); (0x1FB8, 0x1FB9, 1, 0x1FB0); (0x1FBA, 0x1FBB, 1, 0x1F70);
   (0x1FBC, 0x1FBC, 1, 0x1FB3); (0x1FC8, 0x1FCB, 1, 0x1F72); (0x1FCC, 0x1FCC, 1, 0x1FC3);
   (0x1FD8, 0x1FD9, 1, 0x1FD0); (0x1FDA, 0x1FDB, 1, 0x1F76); (0x1FE8, 0x1FE9, 1, 0x1FE0);
   (0x1FEA, 0x1FEB, 1, 0x1F7A); (0x1FEC, 0x1FEC, 1, 0x1FE5); (0x1FF8, 0x1FF9, 1, 0x1F78);
   (0x1FFA, 0x1FFB, 1, 0x1F7C); (0x1FFC, 0x1FFC, 1, 0x1FF3); (0x2126, 0x2126, 1, 0x03C9);
   (0x212A, 0x212A, 1, 0x006B); (0x212B, 0x212B, 1, 0x00E5); (0x2132, 0x2132, 1, 0x214E);
   (0x2160, 0x216F, 1, 0x2170); (0x2183, 0x2183, 1, 0x2184); (0x24B6, 0x24CF, 1, 0x24D0);
   (0x2C00, 0x2C2F, 1, 0x2C30); (0x2C60, 0x2C60, 1, 0x2C61); (0x2C62, 0x2C62, 1, 0x026B);
   (0x2C63, 0x2C63, 1, 0x1D7D); (0x2C64, 0x2C64, 1, 0x027D); (0x2C67, 0x2C6B, 2, 0x2C68);
   (0x2C6D, 0x2C6D, 1, 0x0251); (0x2C6E, 0x2C6E, 1, 0x0271); (0x2C6F, 0x2C6F, 1, 0x0250);
   (0x2C70, 0x2C70, 1, 0x0252); (0x2C72, 0x2C72, 1, 0x2C73); (0x2C75, 0x2C75, 1, 0x2C76);
   (0x2C7E, 0x2C7F, 1, 0x023F); (0x2C80, 0x2CE2, 2, 0x2C81); (0x2CEB, 0x2CED, 2, 0x2CEC);
   (0x2CF2, 0x2CF2, 1, 0x2CF3); (0xA640, 0xA66C, 2, 0xA641); (0xA680, 0xA69A, 2, 0xA681);
   (0xA722, 0xA72E, 2, 0xA723); (0xA732, 0xA76E, 2, 0xA733); (0xA779, 0xA77B, 2, 0xA77A);
   (0xA77D, 0xA77D, 1, 0x1D79); (0xA77E, 0xA786, 2, 0xA77F); (0xA78B, 0xA78B, 1, 0xA78C);
   (0xA78D, 0xA78D, 1, 0x0265); (0xA790, 0xA792, 2, 0xA791); (0xA796, 0xA7A8, 2, 0xA797);
   (0xA7AA, 0xA7AA, 1, 0x0266); (0xA7AB, 0xA7AB, 1, 0x025C); (0xA7AC, 0xA7AC, 1, 0x0261);
   (0xA7AD, 0xA7AD, 1, 0x026C); (0xA7AE, 0xA7AE, 1, 0x026A); (0xA7B0, 0xA7B0, 1, 0x029E);
   (0xA7B1, 0xA7B1, 1, 0x0287); (0xA7B2, 0xA7B2, 1, 0x029D); (0xA7B3, 0xA7B3, 1, 0xAB53);
   (0xA7B4, 0xA7C2, 2, 0xA7B5); (0xA7C4, 0xA7C4, 1, 0xA794); (0xA7C5, 0xA7C5, 1, 0x0282);
   (0xA7C6, 0xA7C6, 1, 0x1D8E); (0xA7C7, 0xA7C9, 2, 0xA7C8); (0xA7D0, 0xA7D0, 1, 0xA7D1);
   (0xA7D6, 0xA7D8, 2, 0xA7D7); (0xA7F5, 0xA7F5, 1, 0xA7F6); (0xFF21, 0xFF3A, 1, 0xFF41);
   (0x10400, 0x10427, 1, 0x10428); (0x104B0, 0x104D3, 1, 0x104D8);
   (0x10570, 0x1057A, 1, 0x10597); (0x1057C, 0x1058A, 1, 0x105A3);
   (0x1058C, 0x10592, 1, 0x105B3); (0x10594, 0x10595, 1, 0x105BB);
   (0x10C80, 0x10CB2, 1, 0x10CC0); (0x118A0, 0x118BF, 1, 0x118C0);
   (0x16E40, 0x16E5F, 1, 0x16E60); (0x1E900, 0x1E921, 1, 0x1E922)
  ]%N.

(** The code points with the property Case_Ignorable. *)
Definition caseIgnorableRanges : list (N * N) :=
  [
   (0x0027, 0x0027); (0x002E, 0x002E); (0x003A, 0x003A); (0x005E, 0x005E); (0x0060, 0x0060);
   (0x00A8, 0x00A8); (0x00AD, 0x00AD); (0x00AF, 0x00AF); (0x00B4, 0x00B4); (0x00B7, 0x00B8);
   (0x02B0, 0x036F); (0x0374, 0x0375); (0x037A, 0x037A); (0x0384, 0x0385); (0x0387, 0x0387);
   (0x0483, 0x0489); (0x0559, 0x0559); (0x055F, 0x055F); (0x0591, 0x05BD); (0x05BF, 0x05BF);
   (0x05C1, 0x05C2); (0x05C4, 0x05C5); (0x05C7, 0x05C7); (0x05F4, 0x05F4); (0x0600, 0x0605);
   (0x0610, 0x061A); (0x061C, 0x061C); (0x0640, 0x0640); (0x064B, 0x065F); (0x0670, 0x0670);
   (0x06D6, 0x06DD); (0x06DF, 0x06E8); (0x06EA, 0x06ED); (0x070F, 0x070F); (0x0711, 0x0711);
   (0x0730, 0x074A); (0x07A6, 0x07B0); (0x07EB, 0x07F5); (0x07FA, 0x07FA); (0x07FD, 0x07FD);
   (0x0816, 0x082D); (0x0859, 0x085B); (0x0888, 0x0888); (0x0890, 0x0891); (0x0898, 0x089F);
   (0x08C9, 0x0902); (0x093A, 0x093A); (0x093C, 0x093C); (0x0941, 0x0948); (0x094D, 0x094D);
   (0x0951, 0x0957); (0x0962, 0x0963); (0x0971, 0x0971); (0x0981, 0x0981); (0x09BC, 0x09BC);
   (0x09C1, 0x09C4); (0x09CD, 0x09CD); (0x09E2, 0x09E3); (0x09FE, 0x09FE); (0x0A01, 0x0A02);
   (0x0A3C, 0x0A3C); (0x0A41, 0x0A42); (0x0A47, 0x0A48); (0x0A4B, 0x0A4D); (0x0A51, 0x0A51);
   (0x0A70, 0x0A71); (0x0A75, 0x0A75); (0x0A81, 0x0A82); (0x0ABC, 0x0ABC); (0x0AC1, 0x0AC5);
   (0x0AC7, 0x0AC8); (0x0ACD, 0x0ACD); (0x0AE2, 0x0AE3); (0x0AFA, 0x0AFF); (0x0B01, 0x0B01);
   (0x0B3C, 0x0B3C); (0x0B3F, 0x0B3F); (0x0B41, 0x0B44); (0x0B4D, 0x0B4D); (0x0B55, 0x0B56);
   (0x0B62, 0x0B63); (0x0B82, 0x0B82); (0x0BC0, 0x0BC0); (0x0BCD, 0x0BCD); (0x0C00, 0x0C00);
   (0x0C04, 0x0C04); (0x0C3C, 0x0C3C); (0x0C3E, 0x0C40); (0x0C46, 0x0C48); (0x0C4A, 0x0C4D);
   (0x0C55, 0x0C56); (0x0C62, 0x0C63); (0x0C81, 0x0C81); (0x0CBC, 0x0CBC); (0x0CBF, 0x0CBF);
   (0x0CC6, 0x0CC6); (0x0CCC, 0x0CCD); (0x0CE2, 0x0CE3); (0x0D00, 0x0D01); (0x0D3B, 0x0D3C);
   (0x0D41, 0x0D44); (0x0D4D, 0x0D4D); (0x0D62, 0x0D63); (0x0D81, 0x0D81); (0x0DCA, 0x0DCA);
   (0x0DD2, 0x0DD4); (0x0DD6, 0x0DD6); (0x0E31, 0x0E31); (0x0E34, 0x0E3A); (0x0E46, 0x0E4E);
   (0x0EB1, 0x0EB1); (0x0EB4, 0x0EBC); (0x0EC6, 0x0EC6); (0x0EC8, 0x0ECD); (0x0F18, 0x0F19);
   (0x0F35, 0x0F35); (0x0F37, 0x0F37); (0x0F39, 0x0F39); (0x0F71, 0x0F7E); (0x0F80, 0x0F84);
   (0x0F86, 0x0F87); (0x0F8D, 0x0F97); (0x0F99, 0x0FBC); (0x0FC6, 0x0FC6); (0x102D, 0x1030);
   (0x1032, 0x1037); (0x1039, 0x103A); (0x103D, 0x103E); (0x1058, 0x1059); (0x105E, 0x1060);
   (0x1071, 0x1074); (0x1082, 0x1082); (0x1085, 0x1086); (0x108D, 0x108D); (0x109D, 0x109D);
   (0x10FC, 0x10FC); (0x135D, 0x135F); (0x1712, 0x1714); (0x1732, 0x1733); (0x1752, 0x1753);
   (0x1772, 0x1773); (0x17B4, 0x17B5); (0x17B7, 0x17BD); (0x17C6, 0x17C6); (0x17C9, 0x17D3);
   (0x17D7, 0x17D7); (0x17DD, 0x17DD); (0x180B, 0x180F); (0x1843, 0x1843); (0x1885, 0x1886);
   (0x18A9, 0x18A9); (0x1920, 0x1922); (0x1927, 0x1928); (0x1932, 0x1932); (0x1939, 0x193B);
   (0x1A17, 0x1A18); (0x1A1B, 0x1A1B); (0x1A56, 0x1A56); (0x1A58, 0x1A5E); (0x1A60, 0x1A60);
   (0x1A62, 0x1A62); (0x1A65, 0x1A6C); (0x1A73, 0x1A7C); (0x1A7F, 0x1A7F); (0x1AA7, 0x1AA7);
   (0x1AB0, 0x1ACE); (0x1B00, 0x1B03); (0x1B34, 0x1B34); (0x1B36, 0x1B3A); (0x1B3C, 0x1B3C);
   (0x1B42, 0x1B42); (0x1B6B, 0x1B73); (0x1B80, 0x1B81); (0x1BA2, 0x1BA5); (0x1BA8, 0x1BA9);
   (0x1BAB, 0x1BAD); (0x1BE6, 0x1BE6); (0x1BE8, 0x1BE9); (0x1BED, 0x1BED); (0x1BEF, 0x1BF1);
   (0x1C2C, 0x1C33); (0x1C36, 0x1C37); (0x1C78, 0x1C7D); (0x1CD0, 0x1CD2); (0x1CD4, 0x1CE0);
   (0x1CE2, 0x1CE8); (0x1CED, 0x1CED); (0x1CF4, 0x1CF4); (0x1CF8, 0x1CF9); (0x1D2C, 0x1D6A);
   (0x1D78, 0x1D78); (0x1D9B, 0x1DFF); (0x1FBD, 0x1FBD); (0x1FBF, 0x1FC1); (0x1FCD, 0x1FCF);
   (0x1FDD, 0x1FDF); (0x1FED, 0x1FEF); (0x1FFD, 0x1FFE); (0x200B, 0x200F); (0x2018, 0x2019);
   (0x2024, 0x2024); (0x2027, 0x2027); (0x202A, 0x202E); (0x2060, 0x2064); (0x2066, 0x206F);
   (0x2071, 0x2071); (0x207F, 0x207F); (0x2090, 0x209C); (0x20D0, 0x20F0); (0x2C7C, 0x2C7D);
   (0x2CEF, 0x2CF1); (0x2D6F, 0x2D6F); (0x2D7F, 0x2D7F); (0x2DE0, 0x2DFF); (0x2E2F, 0x2E2F);
   (0x3005, 0x3005); (0x302A, 0x302D); (0x3031, 0x3035); (0x303B, 0x303B); (0x3099, 0x309E);
   (0x30FC, 0x30FE); (0xA015, 0xA015); (0xA4F8, 0xA4FD); (0xA60C, 0xA60C); (0xA66F, 0xA672);
   (0xA674, 0xA67D); (0xA67F, 0xA67F); (0xA69C, 0xA69F); (0xA6F0, 0xA6F1); (0xA700, 0xA721);
   (0xA770, 0xA770); (0xA788, 0xA78A); (0xA7F2, 0xA7F4); (0xA7F8, 0xA7F9); (0xA802, 0xA802);
   (0xA806, 0xA806); (0xA80B, 0xA80B); (0xA825, 0xA826); (0xA82C, 0xA82C); (0xA8C4, 0xA8C5);
   (0xA8E0, 0xA8F1); (0xA8FF, 0xA8FF); (0xA926, 0xA92D); (0xA947, 0xA951); (0xA980, 0xA982);
   (0xA9B3, 0xA9B3); (0xA9B6, 0xA9B9); (0xA9BC, 0xA9BD); (0xA9CF, 0xA9CF); (0xA9E5, 0xA9E6);
   (0xAA29, 0xAA2E); (0xAA31, 0xAA32); (0xAA35, 0xAA36); (0xAA43, 0xAA43); (0xAA4C, 0xAA4C);
   (0xAA70, 0xAA70); (0xAA7C, 0xAA7C); (0xAAB0, 0xAAB0); (0xAAB2, 0xAAB4); (0xAAB7, 0xAAB8);
   (0xAABE, 0xAABF); (0xAAC1, 0xAAC1); (0xAADD, 0xAADD); (0xAAEC, 0xAAED); (0xAAF3, 0xAAF4);
   (0xAAF6, 0xAAF6); (0xAB5B, 0xAB5F); (0xAB69, 0xAB6B); (0xABE5, 0xABE5); (0xABE8, 0xABE8);
   (0xABED, 0xABED); (0xFB1E, 0xFB1E); (0xFBB2, 0xFBC2); (0xFE00, 0xFE0F); (0xFE13, 0xFE13);
   (0xFE20, 0xFE2F); (0xFE52, 0xFE52); (0xFE55, 0xFE55); (0xFEFF, 0xFEFF); (0xFF07, 0xFF07);
   (0xFF0E, 0xFF0E); (0xFF1A, 0xFF1A); (0xFF3E, 0xFF3E); (0xFF40, 0xFF40); (0xFF70, 0xFF70);
   (0xFF9E, 0xFF9F); (0xFFE3, 0xFFE3); (0xFFF9, 0xFFFB); (0x101FD, 0x101FD);
   (0x102E0, 0x102E0); (0x10376, 0x1037A); (0x10780, 0x10785); (0x10787, 0x107B0);
   (0x107B2, 0x107BA); (0x10A01, 0x10A03); (0x10A05, 0x10A06); (0x10A0C, 0x10A0F);
   (0x10A38, 0x10A3A); (0x10A3F, 0x10A3F); (0x10AE5, 0x10AE6); (0x10D24, 0x10D27);
   (0x10EAB, 0x10EAC); (0x10F46, 0x10F50); (0x10F82, 0x10F85); (0x11001, 0x11001);
   (0x11038, 0x11046); (0x11070, 0x11070); (0x11073, 0x11074); (0x1107F, 0x11081);
   (0x110B3, 0x110B6); (0x110B9, 0x110BA); (0x110BD, 0x110BD); (0x110C2, 0x110C2);
   (0x110CD, 0x110CD); (0x11100, 0x11102); (0x11127, 0x1112B); (0x1112D, 0x11134);
   (0x11173, 0x11173); (0x11180, 0x11181); (0x111B6, 0x111BE); (0x111C9, 0x111CC);
   (0x111CF, 0x111CF); (0x1122F, 0x11231); (0x11234, 0x11234); (0x11236, 0x11237);
   (0x1123E, 0x1123E); (0x112DF, 0x112DF); (0x112E3, 0x112EA); (0x11300, 0x11301);
   (0x1133B, 0x1133C); (0x11340, 0x11340); (0x11366, 0x1136C); (0x11370, 0x11374);
   (0x11438, 0x1143F); (0x11442, 0x11444); (0x11446, 0x11446); (0x1145E, 0x1145E);
   (0x114B3, 0x114B8); (0x114BA, 0x114BA); (0x114BF, 0x114C0); (0x114C2, 0x114C3);
   (0x115B2, 0x115B5); (0x115BC, 0x115BD); (0x115BF, 0x115C0); (0x115DC, 0x115DD);
   (0x11633, 0x1163A); (0x1163D, 0x1163D); (0x1163F, 0x11640); (0x116AB, 0x116AB);
   (0x116AD, 0x116AD); (0x116B0, 0x116B5); (0x116B7, 0x116B7); (0x1171D, 0x1171F);
   (0x11722, 0x11725); (0x11727, 0x1172B); (0x1182F, 0x11837); (0x11839, 0x1183A);
   (0x1193B, 0x1193C); (0x1193E, 0x1193E); (0x11943, 0x11943); (0x119D4, 0x119D7);
   (0x119DA, 0x119DB); (0x119E0, 0x119E0); (0x11A01, 0x11A0A); (0x11A33, 0x11A38);
   (0x11A3B, 0x11A3E); (0x11A47, 0x11A47); (0x11A51, 0x11A56); (0x11A59, 0x11A5B);
   (0x11A8A, 0x11A96); (0x11A98, 0x11A99); (0x11C30, 0x11C36); (0x11C38, 0x11C3D);
   (0x11C3F, 0x11C3F); (0x11C92, 0x11CA7); (0x11CAA, 0x11CB0); (0x11CB2, 0x11CB3);
   (0x11CB5, 0x11CB6); (0x11D31, 0x11D36); (0x11D3A, 0x11D3A); (0x11D3C, 0x11D3D);
   (0x11D3F, 0x11D45); (0x11D47, 0x11D47); (0x11D90, 0x11D91); (0x11D95, 0x11D95);
   (0x11D97, 0x11D97); (0x11EF3, 0x11EF4); (0x13430, 0x13438); (0x16AF0, 0x16AF4);
   (0x16B30, 0x16B36); (0x16B40, 0x16B43); (0x16F4F, 0x16F4F); (0x16F8F, 0x16F9F);
   (0x16FE0, 0x16FE1); (0x16FE3, 0x16FE4); (0x1AFF0, 0x1AFF3); (0x1AFF5, 0x1AFFB);
   (0x1AFFD, 0x1AFFE); (0x1BC9D, 0x1BC9E); (0x1BCA0, 0x1BCA3); (0x1CF00, 0x1CF2D);
   (0x1CF30, 0x1CF46); (0x1D167, 0x1D169); (0x1D173, 0x1D182); (0x1D185, 0x1D18B);
   (0x1D1AA, 0x1D1AD); (0x1D242, 0x1D244); (0x1DA00, 0x1DA36); (0x1DA3B, 0x1DA6C);
   (0x1DA75, 0x1DA75); (0x1DA84, 0x1DA84); (0x1DA9B, 0x1DA9F); (0x1DAA1, 0x1DAAF);
   (0x1E000, 0x1E006); (0x1E008, 0x1E018); (0x1E01B, 0x1E021); (0x1E023, 0x1E024);
   (0x1E026, 0x1E02A); (0x1E130, 0x1E13D); (0x1E2AE, 0x1E2AE); (0x1E2EC, 0x1E2EF);
   (0x1E8D0, 0x1E8D6); (0x1E944, 0x1E94B); (0x1F3FB, 0x1F3FF); (0xE0001, 0xE0001);
   (0xE0020, 0xE007F); (0xE0100, 0xE01EF)
  ]%N.

(** The code points with the property Cased and without Case_Ignorable:
    the conversion asks whether a code point is cased only where it is not
    case-ignorable. *)
Definition casedRanges : list (N * N) :=
  [
   (0x0041, 0x005A); (0x0061, 0x007A); (0x00AA, 0x00AA); (0x00B5, 0x00B5); (0x00BA, 0x00BA);
   (0x00C0, 0x00D6); (0x00D8, 0x00F6); (0x00F8, 0x01BA); (0x01BC, 0x01BF); (0x01C4, 0x0293);
   (0x0295, 0x02AF); (0x0370, 0x0373); (0x0376, 0x0377); (0x037B, 0x037D); (0x037F, 0x037F);
   (0x0386, 0x0386); (0x0388, 0x038A); (0x038C, 0x038C); (0x038E, 0x03A1); (0x03A3, 0x03F5);
   (0x03F7, 0x0481); (0x048A, 0x052F); (0x0531, 0x0556); (0x0560, 0x0588); (0x10A0, 0x10C5);
   (0x10C7, 0x10C7); (0x10CD, 0x10CD); (0x10D0, 0x10FA); (0x10FD, 0x10FF); (0x13A0, 0x13F5);
   (0x13F8, 0x13FD); (0x1C80, 0x1C88); (0x1C90, 0x1CBA); (0x1CBD, 0x1CBF); (0x1D00, 0x1D2B);
   (0x1D6B, 0x1D77); (0x1D79, 0x1D9A); (0x1E00, 0x1F15); (0x1F18, 0x1F1D); (0x1F20, 0x1F45);
   (0x1F48, 0x1F4D); (0x1F50, 0x1F57); (0x1F59, 0x1F59); (0x1F5B, 0x1F5B); (0x1F5D, 0x1F5D);
   (0x1F5F, 0x1F7D); (0x1F80, 0x1FB4); (0x1FB6, 0x1FBC); (0x1FBE, 0x1FBE); (0x1FC2, 0x1FC4);
   (0x1FC6, 0x1FCC); (0x1FD0, 0x1FD3); (0x1FD6, 0x1FDB); (0x1FE0, 0x1FEC); (0x1FF2, 0x1FF4);
   (0x1FF6, 0x1FFC); (0x2102, 0x2102); (0x2107, 0x2107); (0x210A, 0x2113); (0x2115, 0x2115);
   (0x2119, 0x211D); (0x2124, 0x2124); (0x2126, 0x2126); (0x2128, 0x2128); (0x212A, 0x212D);
   (0x212F, 0x2134); (0x2139, 0x2139); (0x213C, 0x213F); (0x2145, 0x2149); (0x214E, 0x214E);
   (0x2160, 0x217F); (0x2183, 0x2184); (0x24B6, 0x24E9); (0x2C00, 0x2C7B); (0x2C7E, 0x2CE4);
   (0x2CEB, 0x2CEE); (0x2CF2, 0x2CF3); (0x2D00, 0x2D25); (0x2D27, 0x2D27); (0x2D2D, 0x2D2D);
   (0xA640, 0xA66D); (0xA680, 0xA69B); (0xA722, 0xA76F); (0xA771, 0xA787); (0xA78B, 0xA78E);
   (0xA790, 0xA7CA); (0xA7D0, 0xA7D1); (0xA7D3, 0xA7D3); (0xA7D5, 0xA7D9); (0xA7F5, 0xA7F6);
   (0xA7FA, 0xA7FA); (0xAB30, 0xAB5A); (0xAB60, 0xAB68); (0xAB70, 0xABBF); (0xFB00, 0xFB06);
   (0xFB13, 0xFB17); (0xFF21, 0xFF3A); (0xFF41, 0xFF5A); (0x10400, 0x1044F);
   (0x104B0, 0x104D3); (0x104D8, 0x104FB); (0x10570, 0x1057A); (0x1057C, 0x1058A);
   (0x1058C, 0x10592); (0x10594, 0x10595); (0x10597, 0x105A1); (0x105A3, 0x105B1);
   (0x105B3, 0x105B9); (0x105BB, 0x105BC); (0x10C80, 0x10CB2); (0x10CC0, 0x10CF2);
   (0x118A0, 0x118DF); (0x16E40, 0x16E7F); (0x1D400, 0x1D454); (0x1D456, 0x1D49C);
   (0x1D49E, 0x1D49F); (0x1D4A2, 0x1D4A2); (0x1D4A5, 0x1D4A6); (0x1D4A9, 0x1D4AC);
   (0x1D4AE, 0x1D4B9); (0x1D4BB, 0x1D4BB); (0x1D4BD, 0x1D4C3); (0x1D4C5, 0x1D505);
   (0x1D507, 0x1D50A); (0x1D50D, 0x1D514); (0x1D516, 0x1D51C); (0x1D51E, 0x1D539);
   (0x1D53B, 0x1D53E); (0x1D540, 0x1D544); (0x1D546, 0x1D546); (0x1D54A, 0x1D550);
   (0x1D552, 0x1D6A5); (0x1D6A8, 0x1D6C0); (0x1D6C2, 0x1D6DA); (0x1D6DC, 0x1D6FA);
   (0x1D6FC, 0x1D714); (0x1D716, 0x1D734); (0x1D736, 0x1D74E); (0x1D750, 0x1D76E);
   (0x1D770, 0x1D788); (0x1D78A, 0x1D7A8); (0x1D7AA, 0x1D7C2); (0x1D7C4, 0x1D7CB);
   (0x1DF00, 0x1DF09); (0x1DF0B, 0x1DF1E); (0x1E900, 0x1E943); (0x1F130, 0x1F149);
   (0x1F150, 0x1F169); (0x1F170, 0x1F189)
  ]%N.

Fixpoint inRanges (ranges : list (N * N)) (p : N) : bool :=
  match ranges with
  | [] => false
  | (first, last) :: rest => ((first <=? p) && (p <=? last))%N || inRanges rest p
  end.

Definition caseIgnorable (p : N) : bool := inRanges caseIgnorableRanges p.
Definition cased (p : N) : bool := inRanges casedRanges p.

Fixpoint lowerIn (ranges : list (N * N * N * N)) (p : N) : N :=
  match ranges with
  | [] => p
  | (first, last, step, lowerOfFirst) :: rest =>
      if ((first <=? p) && (p <=? last) && ((p - first) mod step =? 0))%N
      then (lowerOfFirst + (p - first))%N
      else lowerIn rest p
  end.

Definition simpleLower (p : N) : N := lowerIn lowerCaseRanges p.

(** A code point as the string holds it. *)
Inductive Scalar :=
| single (c : codeUnit)
| surrogatePair (lead trail : codeUnit).

Definition isLeadSurrogate (c : codeUnit) : bool := ((0xD800 <=? c) && (c <=? 0xDBFF))%N.
Definition isTrailSurrogate (c : codeUnit) : bool := ((0xDC00 <=? c) && (c <=? 0xDFFF))%N.

Fixpoint codePoints (s : jsstring) : list Scalar :=
  match s with
  | [] => []
  | c :: rest =>
      match rest with
      | d :: rest' =>
          if isLeadSurrogate c && isTrailSurrogate d
          then surrogatePair c d :: codePoints rest'
          else single c :: codePoints rest
      | [] => [single c]
      end
  end.

Definition pointOf (x : Scalar) : N :=
  match x with
  | single c => c
  | surrogatePair lead trail => (0x10000 + (lead - 0xD800) * 0x400 + (trail - 0xDC00))%N
  end.

Definition unitsOf (x : Scalar) : jsstring :=
  match x with
  | single c => [c]
  | surrogatePair lead trail => [lead; trail]
  end.

(** The lower-case mapping keeps a code point in its plane: one code unit
    stays one, a pair stays a pair. *)
Definition lowerScalar (x : Scalar) : Scalar :=
  match x with
  | single c => single (simpleLower c)
  | surrogatePair _ _ =>
      let p := simpleLower (pointOf x) in
      surrogatePair (0xD800 + (p - 0x10000) / 0x400)%N (0xDC00 + (p - 0x10000) mod 0x400)%N
  end.

(** Whether a cased letter follows, case-ignorable code points passed over. *)
Fixpoint followedByCased (rest : list Scalar) : bool :=
  match rest with
  | [] => false
  | x :: rest' => if caseIgnorable (pointOf x) then followedByCased rest' else cased (pointOf x)
  end.

(** [afterCased]: a cased letter comes before, case-ignorable code points
    passed over. *)
Fixpoint lowerScalars (afterCased : bool) (l : list Scalar) : jsstring :=
  match l with
  | [] => []
  | x :: rest =>
      let p := pointOf x in
      (if (p =? 0x03A3)%N
       then [if afterCased && negb (followedByCased rest) then 0x03C2%N else 0x03C3%N]
       else if (p =? 0x0130)%N then [0x0069; 0x0307]%N
       else unitsOf (lowerScalar x))
      ++ lowerScalars (if caseIgnorable p then afterCased else cased p) rest
  end.

(** [s.toLowerCase()] *)
Definition toLowerCase (s : jsstring) : jsstring := lowerScalars false (codePoints s).

(** A string used as a condition: the empty string is falsy; an absent
    optional argument ([undefined]) is falsy too. *)
Definition truthy (s : option jsstring) : bool :=
  match s with
  | Some (_ :: _) => true
  | _ => false
  end.

(** The indices visited by
    [let i = text.indexOf(search); while (i !== -1) { ...; i = text.indexOf(search, i + 1) }].
    With an empty [search] the source never leaves the loop ([indexOf]
    answers [min(i + 1, text.length)] forever); the fuel then runs out. *)
Fixpoint searchLoop (fuel : nat) (text search : jsstring) (searchIndex : Z) : option (list Z) :=
  if searchIndex =? -1 then Some []
  else match fuel with
       | O => None
       | S fuel' =>
           match searchLoop fuel' text search (indexOf text search (searchIndex + 1)) with
           | Some rest => Some (searchIndex :: rest)
           | None => None
           end
       end.

Definition searchIndices (text search : jsstring) : option (list Z) :=
  searchLoop (S (List.length text)) text search (indexOf text search 0).

(** [arr.sort(cmp)] where [cmp x y < 0] is given as [before x y]: the sort
    is stable, an element stays ahead of the later ones it does not have to
    follow. *)
Fixpoint insertSorted {A} (before : A -> A -> bool) (x : A) (l : list A) : list A :=
  match l with
  | [] => [x]
  | y :: l' => if before y x then y :: insertSorted before x l' else x :: l
  end.

Definition stableSort {A} (before : A -> A -> bool) (l : list A) : list A :=
  fold_right (insertSorted before) [] l.

End JS.

Import JS.

(** ** Data model *)

Inductive SuggestionType := grammar | tone | persuasion.

Record Position := mkPosition { start : Q; end_ : Q }.

Record Suggestion := mkSuggestion {
  id : jsstring;
  type : SuggestionType;
  position : Position;
  original : jsstring;
  suggested : jsstring;
  contextBefore : option jsstring;
  contextAfter : option jsstring;
  explanation : jsstring;
  confidence : Q
}.

(** [{ ...suggestion, position: { start, end } }] *)
Definition withPosition (s : Suggestion) (a b : Q) : Suggestion :=
  mkSuggestion (id s) (type s) (mkPosition a b) (original s) (suggested s)
    (contextBefore s) (contextAfter s) (explanation s) (confidence s).

(** ** TextDiffer: the first difference, as [handleContentEditable] computes it *)

Module TextDiffer.

(** [for (let i = 0; i < minLength; i++) if (oldValue[i] !== newValue[i]) { changeStart = i; break }]
    started with [changeStart = 0]: the value of [changeStart] after the loop,
    [i] being the index of the heads of the two remainders. *)
Fixpoint scanLoop (oldValue newValue : jsstring) (i : Z) : Z :=
  match oldValue, newValue with
  | x :: o', y :: n' => if N.eqb x y then scanLoop o' n' (i + 1) else i
  | _, _ => 0
  end.

Definition computeChangeStart (oldValue newValue : jsstring) : Z :=
  let minLength := Z.min (len oldValue) (len newValue) in
  let changeStart := scanLoop oldValue newValue 0 in
  if (changeStart =? 0) && negb (streq oldValue newValue) then minLength else changeStart.

(** [newText.length - oldText.length] of [updateSuggestionPositions] *)
Definition lengthDifference (oldText newText : jsstring) : Z := len newText - len oldText.

End TextDiffer.

(** ** PositionLocator *)

Module PositionLocator.

Record Located := mkLocated { l_start : Q; l_end : Q; found : bool }.

Record ContextMatch := mkContextMatch { c_start : Z; c_end : Z; score : Z }.

Record FuzzyMatch := mkFuzzyMatch { f_start : Q; f_end : Q; f_confidence : Q }.

(** [ctx && ctx.trim()] *)
Definition contextGiven (ctx : option jsstring) : option jsstring :=
  match ctx with
  | Some c => if truthy (Some c) && truthy (Some (trim c)) then Some c else None
  | None => None
  end.

(** The body of the loop of [findWithContext] at one occurrence: the match
    pushed, if any. *)
Definition contextMatchAt (text searchText : jsstring)
    (contextBefore contextAfter : option jsstring) (searchIndex : Z) : option ContextMatch :=
  let '(score1, valid1) :=
    match contextGiven contextBefore with
    | Some cb =>
        let beforeText := substringZ text (Z.max 0 (searchIndex - len cb - 10)) searchIndex in
        if includes beforeText cb then (1 + 2, true) else (1, false)
    | None => (1, true)
    end in
  let '(score2, valid2) :=
    match contextGiven contextAfter with
    | Some ca =>
        let afterStart := searchIndex + len searchText in
        let afterText := substringZ text afterStart (Z.min (len text) (afterStart + len ca + 10)) in
        if includes afterText ca then (score1 + 2, valid1) else (score1, false)
    | None => (score1, valid1)
    end in
  if valid2 then Some (mkContextMatch searchIndex (searchIndex + len searchText) score2) else None.

Fixpoint collectSome {A} (l : list (option A)) : list A :=
  match l with
  | [] => []
  | Some x :: l' => x :: collectSome l'
  | None :: l' => collectSome l'
  end.

(** [findWithContext]: [None] when the search loop is never left. *)
Definition findWithContext (text searchText : jsstring)
    (contextBefore contextAfter : option jsstring) : option (list ContextMatch) :=
  match searchIndices text searchText with
  | None => None
  | Some indices =>
      let matches := collectSome (map (contextMatchAt text searchText contextBefore contextAfter) indices) in
      Some (stableSort (fun a b => score b <? score a) matches)
  end.

(** The score by which [findFuzzyMatches] sorts, as the exact number.  The
    source compares the scores as doubles: two candidates whose exact
    scores are equal, or closer than the rounding, can come in another order
    there.  The properties below that speak of a fuzzy answer in general
    hold for every candidate, whatever the order. *)
Definition fuzzyScore (hintPos : Q) (m : FuzzyMatch) : Q :=
  (f_confidence m - Math_abs (f_start m - hintPos) / 1000)%Q.

(** The pieces of [findFuzzyMatches], under the names the source gives them. *)
Definition searchWordsOf (searchText : jsstring) : list jsstring :=
  filter (fun word => 2 <? len word) (split_ws (toLowerCase searchText)).

Definition windowSizeOf (text : jsstring) : Q := inject_Z (Z.min 500 (len text)).

Definition windowStartOf (text : jsstring) (hintPos : Q) : Q :=
  Math_max 0 (hintPos - windowSizeOf text / 2)%Q.

Definition windowEndOf (text : jsstring) (hintPos : Q) : Q :=
  Math_min (inject_Z (len text)) (hintPos + windowSizeOf text / 2)%Q.

Definition searchWindowOf (text : jsstring) (hintPos : Q) : jsstring :=
  toLowerCase (substring text (windowStartOf text hintPos) (windowEndOf text hintPos)).

(** [words.slice(i, i + searchWords.length * 2).join(' ')] *)
Definition windowSliceAt (searchWords words : list jsstring) (i : Z) : jsstring :=
  join_space (arraySlice words i (i + Z.of_nat (List.length searchWords) * 2)).

(** [matchedWords / searchWords.length] *)
Definition confidenceAt (searchWords words : list jsstring) (i : Z) : Q :=
  let windowSlice := windowSliceAt searchWords words i in
  let matchedWords :=
    Z.of_nat (List.length (filter (fun searchWord => includes windowSlice searchWord) searchWords)) in
  (inject_Z matchedWords / inject_Z (Z.of_nat (List.length searchWords)))%Q.

(** The body of the loop of [findFuzzyMatches] at window index [i].  The
    test [confidence >= 0.6] is made on the exact quotient: the quotient of
    two word counts is never so close to 3/5 that rounding could change it. *)
Definition fuzzyMatchAt (text searchText searchWindow : jsstring) (searchWords words : list jsstring)
    (windowStart : Q) (i : Z) : option FuzzyMatch :=
  let windowSlice := windowSliceAt searchWords words i in
  let confidence := confidenceAt searchWords words i in
  if Qle_bool (6 # 10) confidence then
    let sliceStart := indexOf searchWindow windowSlice 0 in
    if negb (sliceStart =? -1) then
      let actualStart := (windowStart + inject_Z sliceStart)%Q in
      let actualEnd := Math_min (inject_Z (len text)) (actualStart + inject_Z (len searchText) * (3 # 2))%Q in
      Some (mkFuzzyMatch actualStart actualEnd confidence)
    else None
  else None.

(** The bound of the loop: [i < words.length - searchWords.length + 1]. *)
Definition candidateCount (searchWords words : list jsstring) : nat :=
  Z.to_nat (Z.of_nat (List.length words) - Z.of_nat (List.length searchWords) + 1).

(** [findFuzzyMatches] *)
Definition findFuzzyMatches (text searchText : jsstring) (hintPos : Q) : list FuzzyMatch :=
  let searchWords := searchWordsOf searchText in
  match searchWords with
  | [] => []
  | _ :: _ =>
      let windowStart := windowStartOf text hintPos in
      let searchWindow := searchWindowOf text hintPos in
      let words := split_ws searchWindow in
      let matches :=
        collectSome (map (fun i => fuzzyMatchAt text searchText searchWindow searchWords words
                                     windowStart (Z.of_nat i))
                         (seq 0 (candidateCount searchWords words))) in
      firstn 3 (stableSort (fun a b => Qlt_bool (fuzzyScore hintPos b) (fuzzyScore hintPos a)) matches)
  end.

(** The [reduce] that picks the found position closest to the hint. *)
Definition closestTo (startPos : Q) (first : Z) (rest : list Z) : Z :=
  fold_left (fun closest current =>
               if Qlt_bool (Math_abs (inject_Z current - startPos)) (Math_abs (inject_Z closest - startPos))
               then current else closest)
            rest first.

(** [findExactTextPosition]: [None] when a search loop is never left. *)
Definition findExactTextPosition (text searchText : jsstring) (startPos endPos : Q)
    (contextBefore contextAfter : option jsstring) : option Located :=
  if Qle_bool 0 startPos && Qle_bool endPos (inject_Z (len text)) && Qlt_bool startPos endPos
     && streq (substring text startPos endPos) searchText
  then Some (mkLocated startPos endPos true)
  else
    let afterContext :=
      match searchIndices text searchText with
      | None => None
      | Some foundPositions =>
          match foundPositions with
          | [p] => Some (mkLocated (inject_Z p) (inject_Z (p + len searchText)) true)
          | p :: rest =>
              let c := closestTo startPos p rest in
              Some (mkLocated (inject_Z c) (inject_Z (c + len searchText)) true)
          | [] =>
              match findFuzzyMatches text searchText startPos with
              | m :: _ => Some (mkLocated (f_start m) (f_end m) true)
              | [] => Some (mkLocated startPos endPos false)
              end
          end
      end in
    if truthy contextBefore || truthy contextAfter then
      match findWithContext text searchText contextBefore contextAfter with
      | None => None
      | Some (m :: _) => Some (mkLocated (inject_Z (c_start m)) (inject_Z (c_end m)) true)
      | Some [] => afterContext
      end
    else afterContext.

End PositionLocator.

Import TextDiffer PositionLocator.

(** ** SuggestionMerger *)

Module Merger.

Inductive Source := openai | typo | other.

Definition source_eqb (a b : Source) : bool :=
  match a, b with
  | openai, openai | typo, typo | other, other => true
  | _, _ => false
  end.

Definition getSuggestionSource (suggestion : Suggestion) : Source :=
  if startsWith (id suggestion) (js "openai-") then openai
  else if startsWith (id suggestion) (js "typo-") then typo
  else other.

(** [newStart < existingEnd && newEnd > existingStart] *)
Definition overlaps (newSuggestion existingSuggestion : Suggestion) : bool :=
  Qlt_bool (start (position newSuggestion)) (end_ (position existingSuggestion))
  && Qlt_bool (start (position existingSuggestion)) (end_ (position newSuggestion)).

Definition shouldReplace (newSource existingSource : Source) : bool :=
  match newSource, existingSource with
  | openai, typo => true
  | openai, openai => true
  | typo, openai => false
  | typo, typo => true
  | _, _ => true
  end.

(** Step 1: [currentText.substring(start, end) === suggestion.original] *)
Definition isStillValid (currentText : jsstring) (suggestion : Suggestion) : bool :=
  streq (substring currentText (start (position suggestion)) (end_ (position suggestion)))
        (original suggestion).

(** The indices the inner [forEach] pushes, [index] being that of the head. *)
Fixpoint overlappingIndicesFrom (newSuggestion : Suggestion) (merged : list Suggestion)
    (index : nat) : list nat :=
  match merged with
  | [] => []
  | existingSuggestion :: rest =>
      let tl := overlappingIndicesFrom newSuggestion rest (S index) in
      if overlaps newSuggestion existingSuggestion
         && shouldReplace (getSuggestionSource newSuggestion) (getSuggestionSource existingSuggestion)
      then index :: tl else tl
  end.

(** [arr.splice(index, 1)] *)
Fixpoint spliceOne {A} (index : nat) (arr : list A) : list A :=
  match arr, index with
  | [], _ => []
  | _ :: rest, O => rest
  | x :: rest, S i => x :: spliceOne i rest
  end.

(** The test of the [some] that guards the push. *)
Definition blocks (newSuggestion existing : Suggestion) : bool :=
  overlaps newSuggestion existing
  && source_eqb (getSuggestionSource newSuggestion) typo
  && source_eqb (getSuggestionSource existing) openai.

(** One turn of [newSuggestions.forEach]. *)
Definition mergeOne (mergedSuggestions : list Suggestion) (newSuggestion : Suggestion)
    : list Suggestion :=
  let overlappingIndices := overlappingIndicesFrom newSuggestion mergedSuggestions 0 in
  let afterRemoval :=
    fold_left (fun arr index => spliceOne index arr) (rev overlappingIndices) mergedSuggestions in
  if (0 <? List.length overlappingIndices)%nat
     || negb (existsb (blocks newSuggestion) afterRemoval)
  then afterRemoval ++ [newSuggestion]
  else afterRemoval.

Definition byStart (a b : Suggestion) : bool :=
  Qlt_bool (start (position a)) (start (position b)).

(** [mergeSuggestionsIntelligently] *)
Definition mergeSuggestionsIntelligently (existingSuggestions newSuggestions : list Suggestion)
    (currentText : jsstring) : list Suggestion :=
  let validExistingSuggestions := filter (isStillValid currentText) existingSuggestions in
  stableSort byStart (fold_left mergeOne newSuggestions validExistingSuggestions).

End Merger.

(** ** SectionSplitter: hashing and change detection *)

Module Sections.

Record TextSection := mkSection {
  hash : jsstring;
  content : jsstring;
  startIndex : Z;
  endIndex : Z
}.

(** ToInt32: the value modulo 2^32 brought into [-2^31, 2^31). *)
Definition toInt32 (z : Z) : Z := (z + 2147483648) mod 4294967296 - 2147483648.

(** One turn of the loop of [simpleHash]:
    [hash = ((hash << 5) - hash) + char; hash = hash & hash]. *)
Definition hashStep (h : Z) (char : codeUnit) : Z :=
  toInt32 (toInt32 (Z.shiftl (toInt32 h) 5) - h + Z.of_N char).

Definition digit36 (d : Z) : codeUnit :=
  if d <? 10 then Z.to_N (48 + d) else Z.to_N (97 + d - 10).

(** The digits of [n > 0] in base 36, least significant first; seven digits
    hold every value up to 2^31. *)
Fixpoint digits36 (fuel : nat) (n : Z) : jsstring :=
  match fuel with
  | O => []
  | S fuel' => if n <=? 0 then [] else digit36 (n mod 36) :: digits36 fuel' (n / 36)
  end.

(** [n.toString(36)] for an integer [0 <= n <= 2^31]. *)
Definition toString36 (n : Z) : jsstring :=
  if n =? 0 then js "0" else rev (digits36 7 n).

(** [simpleHash] *)
Definition simpleHash (text : jsstring) : jsstring :=
  match text with
  | [] => js "0"
  | _ :: _ => toString36 (Z.abs (fold_left hashStep text 0))
  end.

(** [previousHashes.has(h)] for the [Set] built from the previous sections. *)
Definition hasHash (previousSections : list TextSection) (h : jsstring) : bool :=
  existsb (fun p => streq (hash p) h) previousSections.

(** [detectChangedSections] *)
Definition detectChangedSections (currentSections previousSections : list TextSection)
    : list TextSection :=
  filter (fun section => negb (hasHash previousSections (hash section))) currentSections.

(** A section as [splitTextIntoAnalysisSections] builds each of them:
    [{ hash: simpleHash(content.trim()), content, startIndex, endIndex }],
    for a paragraph, a sentence or the whole text alike. *)
Definition makeSection (content : jsstring) (startIndex : Z) : TextSection :=
  mkSection (simpleHash (trim content)) content startIndex (startIndex + len content).

End Sections.

Import Merger.

(** ** EditorSurface: the component state and its handlers *)

Module Editor.

Inductive ToastVariant := default | destructive.

Record Toast := mkToast { variant : ToastVariant; title : jsstring }.

(** The state of the component that the handlers below read and set;
    [toasts] is the log of the calls to [toast], oldest first.  A handler
    is taken to read the state as it is when it runs. *)
Record State := mkState {
  value : jsstring;
  previousText : jsstring;
  suggestions : list Suggestion;
  selectedSuggestion : option Suggestion;
  analyzing : bool;
  analysisWindow : option (Z * Z);
  isTyping : bool;
  toasts : list Toast
}.

Definition setSuggestions (st : State) (l : list Suggestion) : State :=
  mkState (value st) (previousText st) l (selectedSuggestion st) (analyzing st)
          (analysisWindow st) (isTyping st) (toasts st).

Definition setSelectedSuggestion (st : State) (s : option Suggestion) : State :=
  mkState (value st) (previousText st) (suggestions st) s (analyzing st)
          (analysisWindow st) (isTyping st) (toasts st).

Definition setText (st : State) (t : jsstring) : State :=
  mkState t t (suggestions st) (selectedSuggestion st) (analyzing st)
          (analysisWindow st) (isTyping st) (toasts st).

Definition setAnalyzing (st : State) (b : bool) : State :=
  mkState (value st) (previousText st) (suggestions st) (selectedSuggestion st) b
          (analysisWindow st) (isTyping st) (toasts st).

Definition setAnalysisWindow (st : State) (w : option (Z * Z)) : State :=
  mkState (value st) (previousText st) (suggestions st) (selectedSuggestion st) (analyzing st)
          w (isTyping st) (toasts st).

Definition setIsTyping (st : State) (b : bool) : State :=
  mkState (value st) (previousText st) (suggestions st) (selectedSuggestion st) (analyzing st)
          (analysisWindow st) b (toasts st).

Definition toast (st : State) (t : Toast) : State :=
  mkState (value st) (previousText st) (suggestions st) (selectedSuggestion st) (analyzing st)
          (analysisWindow st) (isTyping st) (toasts st ++ [t]).

(** Sequencing of computations that may never return. *)
Definition bind {A B} (m : option A) (k : A -> option B) : option B :=
  match m with
  | Some a => k a
  | None => None
  end.

Notation "x <- m ;; k" := (bind m (fun x => k)) (at level 61, m at next level, right associativity).

Fixpoint mapM {A B} (f : A -> option B) (l : list A) : option (list B) :=
  match l with
  | [] => Some []
  | x :: l' => y <- f x ;; ys <- mapM f l' ;; Some (y :: ys)
  end.

(** [findExactTextPosition] called on a suggestion's own fields. *)
Definition locate (text : jsstring) (s : Suggestion) : option Located :=
  findExactTextPosition text (original s) (start (position s)) (end_ (position s))
                        (contextBefore s) (contextAfter s).

(** First [map] of [updateSuggestionPositions]; [None] marks a removal. *)
Definition coarseShift (changeStart lengthDifference : Z) (suggestion : Suggestion)
    : option Suggestion :=
  if Qle_bool (inject_Z changeStart) (start (position suggestion)) then
    Some (withPosition suggestion
            (start (position suggestion) + inject_Z lengthDifference)%Q
            (end_ (position suggestion) + inject_Z lengthDifference)%Q)
  else if Qlt_bool (inject_Z changeStart) (end_ (position suggestion)) then None
  else Some suggestion.

(** Second [map] of [updateSuggestionPositions] (and the one of
    [analyzeTextManual]): the inner [None] marks a removal. *)
Definition relocate (newText : jsstring) (suggestion : Suggestion) : option (option Suggestion) :=
  exactPosition <- locate newText suggestion ;;
  Some (if found exactPosition then
          if Qneq_bool (l_start exactPosition) (start (position suggestion))
             || Qneq_bool (l_end exactPosition) (end_ (position suggestion))
          then Some (withPosition suggestion (l_start exactPosition) (l_end exactPosition))
          else Some suggestion
        else None).

(** The suggestion list that [updateSuggestionPositions] hands to
    [setSuggestions]. *)
Definition repositioned (suggestions : list Suggestion) (oldText newText : jsstring)
    (changeStart : Z) : option (list Suggestion) :=
  let shifted := collectSome (map (coarseShift changeStart (lengthDifference oldText newText))
                                  suggestions) in
  relocated <- mapM (relocate newText) shifted ;;
  Some (collectSome relocated).

Definition sameId (a b : Suggestion) : bool := streq (id a) (id b).

(** [updateSuggestionPositions] *)
Definition updateSuggestionPositions (st : State) (oldText newText : jsstring) (changeStart : Z)
    : option State :=
  match suggestions st with
  | [] => Some st
  | _ :: _ =>
      updatedSuggestions <- repositioned (suggestions st) oldText newText changeStart ;;
      let st1 := setSuggestions st updatedSuggestions in
      Some (match selectedSuggestion st with
            | None => st1
            | Some sel => setSelectedSuggestion st1 (find (sameId sel) updatedSuggestions)
            end)
  end.

(** [handleContentEditable] up to the scheduling of the analysis timers. *)
Definition handleContentEditable (st : State) (newValue : jsstring) : option State :=
  let oldValue := previousText st in
  if streq newValue oldValue then Some st
  else
    let changeStart := computeChangeStart oldValue newValue in
    st1 <- updateSuggestionPositions (setIsTyping st true) oldValue newValue changeStart ;;
    let st2 := setAnalysisWindow (setText st1 newValue) None in
    Some (if len (trim newValue) =? 0 then setSuggestions st2 [] else st2).

(** The test of the [filter] of [cleanupInvalidSuggestions]. *)
Definition survivesCleanup (currentText : jsstring) (suggestion : Suggestion) : option bool :=
  exactPosition <- locate currentText suggestion ;;
  Some (found exactPosition
        && streq (substring currentText (l_start exactPosition) (l_end exactPosition))
                 (original suggestion)).

Fixpoint filterM {A} (f : A -> option bool) (l : list A) : option (list A) :=
  match l with
  | [] => Some []
  | x :: l' => b <- f x ;; r <- filterM f l' ;; Some (if b then x :: r else r)
  end.

(** [cleanupInvalidSuggestions] *)
Definition cleanupInvalidSuggestions (st : State) (currentText : jsstring) : option State :=
  match suggestions st with
  | [] => Some st
  | _ :: _ =>
      validSuggestions <- filterM (survivesCleanup currentText) (suggestions st) ;;
      if (List.length validSuggestions <? List.length (suggestions st))%nat then
        let st1 := setSuggestions st validSuggestions in
        Some (match selectedSuggestion st with
              | Some sel => if existsb (sameId sel) validSuggestions then st1
                            else setSelectedSuggestion st1 None
              | None => st1
              end)
      else Some st
  end.

(** The [map] of [applySuggestion] over the remaining suggestions. *)
Definition shiftAfterApply (exactPosition : Located) (lengthDifference : Z) (s : Suggestion)
    : option Suggestion :=
  if Qle_bool (l_end exactPosition) (start (position s)) then
    Some (withPosition s (start (position s) + inject_Z lengthDifference)%Q
                         (end_ (position s) + inject_Z lengthDifference)%Q)
  else if Qlt_bool (l_start exactPosition) (end_ (position s))
          && Qlt_bool (start (position s)) (l_end exactPosition) then None
  else Some s.

(** [applySuggestion]; [editorMounted] is [editorRef.current] being set. *)
Definition applySuggestion (editorMounted : bool) (st : State) (suggestion : Suggestion)
    : option State :=
  if negb editorMounted then Some st
  else
    exactPosition <- locate (value st) suggestion ;;
    if negb (found exactPosition) then
      Some (toast st (mkToast destructive (js "Could not apply suggestion")))
    else
      let newText :=
        substring (value st) 0 (l_start exactPosition) ++ suggested suggestion
        ++ substring (value st) (l_end exactPosition) (inject_Z (len (value st))) in
      let lengthDifference := len (suggested suggestion) - len (original suggestion) in
      let updatedSuggestions :=
        collectSome (map (shiftAfterApply exactPosition lengthDifference)
                         (filter (fun s => negb (streq (id s) (id suggestion))) (suggestions st))) in
      Some (toast (setAnalysisWindow
                     (setSelectedSuggestion (setSuggestions (setText st newText) updatedSuggestions) None)
                     None)
                  (mkToast default (js "Suggestion applied"))).

(** What [fetch('/api/analyze')] and the reading of its body come to. *)
Inductive ResponseBody :=
| Unparsable
| ErrorBody (error : jsstring)
| SuggestionsBody (suggestions : list Suggestion).

Inductive FetchOutcome :=
| NetworkFailure
| HttpResponse (ok : bool) (status : Z) (body : ResponseBody).

(** The [try] block of [analyzeTextManual] up to [data.suggestions || []]. *)
Inductive TryResult := Threw | Received (suggestions : list Suggestion).

Definition readResponse (response : FetchOutcome) : TryResult :=
  match response with
  | NetworkFailure => Threw
  | HttpResponse false _ _ => Threw
  | HttpResponse true _ Unparsable => Threw
  | HttpResponse true _ (ErrorBody []) => Received []
  | HttpResponse true _ (ErrorBody (_ :: _)) => Threw
  | HttpResponse true _ (SuggestionsBody l) => Received l
  end.

(** [getContextualWindow]: the whole text, [startOffset] 0. *)
Definition getContextualWindow (text : jsstring) : jsstring * Z * Z := (text, 0, len text).

(** The position correction of [analyzeTextManual]. *)
Definition correctPosition (text : jsstring) (startOffset : Z) (suggestion : Suggestion)
    : option (option Suggestion) :=
  let adjusted := withPosition suggestion
                    (start (position suggestion) + inject_Z startOffset)%Q
                    (end_ (position suggestion) + inject_Z startOffset)%Q in
  exactPosition <- locate text adjusted ;;
  Some (if found exactPosition
        then Some (withPosition adjusted (l_start exactPosition) (l_end exactPosition))
        else None).

(** [analyzeTextManual]; [response] is what the remote analyzer answers if
    it is asked. *)
Definition analyzeTextManual (st : State) (text : jsstring) (response : FetchOutcome)
    : option State :=
  if len text <? 20 then Some (setAnalysisWindow (setSuggestions st []) None)
  else
    let '(windowText, startOffset, endOffset) := getContextualWindow text in
    if len windowText <? 20 then Some (setAnalysisWindow (setSuggestions st []) None)
    else
      let st1 := setAnalyzing (setAnalysisWindow st (Some (startOffset, endOffset))) true in
      match readResponse response with
      | Threw =>
          Some (setAnalyzing
                  (setAnalysisWindow (toast st1 (mkToast destructive (js "Analysis failed"))) None)
                  false)
      | Received received =>
          corrected <- mapM (correctPosition text startOffset) received ;;
          let mergedSuggestions :=
            mergeSuggestionsIntelligently (suggestions st) (collectSome corrected) text in
          Some (setAnalyzing (setSuggestions st1 mergedSuggestions) false)
      end.

(** A handler reads the [suggestions] and the [selectedSuggestion] of the
    render that made it, and its setters update the state as it is when it
    runs.  The handlers above are taken at the render of the state they run
    on.  The callback of the timer runs two seconds after the input event
    that armed it, and is of the render before that event: below,
    [rendered] is the state of the render a handler is of and [st] the state
    when it runs. *)

(** [cleanupInvalidSuggestions] of the render [rendered]. *)
Definition cleanupInvalidSuggestionsOf (rendered st : State) (currentText : jsstring)
    : option State :=
  match suggestions rendered with
  | [] => Some st
  | _ :: _ =>
      validSuggestions <- filterM (survivesCleanup currentText) (suggestions rendered) ;;
      if (List.length validSuggestions <? List.length (suggestions rendered))%nat then
        let st1 := setSuggestions st validSuggestions in
        Some (match selectedSuggestion rendered with
              | Some sel => if existsb (sameId sel) validSuggestions then st1
                            else setSelectedSuggestion st1 None
              | None => st1
              end)
      else Some st
  end.

(** [analyzeTextManual] of the render [rendered]. *)
Definition analyzeTextManualOf (rendered st : State) (text : jsstring)
    (response : FetchOutcome) : option State :=
  if len text <? 20 then Some (setAnalysisWindow (setSuggestions st []) None)
  else
    let '(windowText, startOffset, endOffset) := getContextualWindow text in
    if len windowText <? 20 then Some (setAnalysisWindow (setSuggestions st []) None)
    else
      let st1 := setAnalyzing (setAnalysisWindow st (Some (startOffset, endOffset))) true in
      match readResponse response with
      | Threw =>
          Some (setAnalyzing
                  (setAnalysisWindow (toast st1 (mkToast destructive (js "Analysis failed"))) None)
                  false)
      | Received received =>
          corrected <- mapM (correctPosition text startOffset) received ;;
          let mergedSuggestions :=
            mergeSuggestionsIntelligently (suggestions rendered) (collectSome corrected) text in
          Some (setAnalyzing (setSuggestions st1 mergedSuggestions) false)
      end.

(** [analyzeOpenAIDelayed] *)
Definition analyzeOpenAIDelayed (rendered st : State) (text : jsstring)
    (response : FetchOutcome) : option State :=
  analyzeTextManualOf rendered st text response.

(** The callback that [handleContentEditable] arms with [setTimeout(..., 2000)]. *)
Definition typingTimeoutFired (rendered st : State) (newValue : jsstring)
    (response : FetchOutcome) : option State :=
  st1 <- cleanupInvalidSuggestionsOf rendered (setIsTyping st false) newValue ;;
  analyzeOpenAIDelayed rendered st1 newValue response.

(** The [onClick] of the analyze button. *)
Definition analyzeButtonClicked (st : State) (response : FetchOutcome) : option State :=
  analyzeTextManual st (value st) response.

(** What can happen to the live suggestion set: an input event, a merge of
    freshly produced suggestions against the current text, and a
    repositioning from an arbitrary change point (as [handleReplaceText]
    does). *)
Inductive Operation :=
| Edit (newValue : jsstring)
| Merge (incoming : list Suggestion)
| Reposition (newText : jsstring) (changeStart : Z).

Definition perform (st : State) (op : Operation) : option State :=
  match op with
  | Edit newValue => handleContentEditable st newValue
  | Merge incoming =>
      Some (setSuggestions st (mergeSuggestionsIntelligently (suggestions st) incoming (value st)))
  | Reposition newText changeStart =>
      st1 <- updateSuggestionPositions st (value st) newText changeStart ;;
      Some (setText st1 newText)
  end.

Fixpoint performAll (st : State) (ops : list Operation) : option State :=
  match ops with
  | [] => Some st
  | op :: rest => st1 <- perform st op ;; performAll st1 rest
  end.

End Editor.

(** ** Further parts of the component *)

(** *** Selecting a suggestion *)

Module Selection.

Import Editor.

(** [handleSuggestionClick], as far as the state of the component goes: the
    placing of the caret between the two updates touches the document
    selection of the browser only. *)
Definition handleSuggestionClick (st : State) (suggestion : Suggestion) : option State :=
  let st := setSelectedSuggestion st (Some suggestion) in
  exactPosition <- locate (value st) suggestion ;;
  Some (if found exactPosition
           && (Qneq_bool (l_start exactPosition) (start (position suggestion))
               || Qneq_bool (l_end exactPosition) (end_ (position suggestion)))
        then
          let updatedSuggestion :=
            withPosition suggestion (l_start exactPosition) (l_end exactPosition) in
          setSuggestions (setSelectedSuggestion st (Some updatedSuggestion))
            (map (fun s => if streq (id s) (id suggestion) then updatedSuggestion else s)
                 (suggestions st))
        else st).

End Selection.

(** *** Escaping the text for the highlighted view *)

Module Html.

(** [text.replace(/c/g, replacement)] for a pattern that is one character. *)
Definition replaceAll (c : codeUnit) (replacement : jsstring) (text : jsstring) : jsstring :=
  flat_map (fun x => if N.eqb x c then replacement else [x]) text.

Definition escapeHtml (text : jsstring) : jsstring :=
  replaceAll 10%N (js "<br/>")
    (replaceAll 39%N (js "&#39;")
      (replaceAll 34%N (js "&quot;")
        (replaceAll 62%N (js "&gt;")
          (replaceAll 60%N (js "&lt;")
            (replaceAll 38%N (js "&amp;") text))))).

End Html.

(** *** The splitter of the incremental analysis *)

Module Splitter.

Import Sections.

Fixpoint takeWhileWs (s : jsstring) : jsstring :=
  match s with
  | [] => []
  | c :: s' => if isWhiteSpace c then c :: takeWhileWs s' else []
  end.

(** The number of code units of [run] up to and including its last line
    feed, if it has one. *)
Fixpoint throughLastLineFeed (run : jsstring) : option nat :=
  match run with
  | [] => None
  | c :: run' => match throughLastLineFeed run' with
                 | Some n => Some (S n)
                 | None => if N.eqb c 10 then Some 1%nat else None
                 end
  end.

(** The match of [/\n\s*\n/] at a line feed followed by [rest]: the greedy
    [\s*] gives back until a line feed follows, so the match ends with the
    last line feed of the white space after the first one.  The result is
    the number of code units of [rest] that the match takes. *)
Definition separatorAfter (rest : jsstring) : option nat :=
  throughLastLineFeed (takeWhileWs rest).

(** [text.split(/\n\s*\n/)]: [skip] code units of a separator are still to
    be passed, [cur] is the piece being read, reversed. *)
Fixpoint splitLoop (s : jsstring) (skip : nat) (cur : jsstring) : list jsstring :=
  match s with
  | [] => [rev cur]
  | c :: s' =>
      match skip with
      | S k => splitLoop s' k cur
      | O => if N.eqb c 10
             then match separatorAfter s' with
                  | Some n => rev cur :: splitLoop s' n []
                  | None => splitLoop s' O (c :: cur)
                  end
             else splitLoop s' O (c :: cur)
      end
  end.

Definition splitParagraphs (text : jsstring) : list jsstring := splitLoop text O [].

(** [text[k]], [None] for [undefined]. *)
Definition charAt (text : jsstring) (k : Z) : option codeUnit :=
  if k <? 0 then None else nth_error text (Z.to_nat k).

(** The classes [[.!?]], [[A-Z]] and [\d]. *)
Definition isSentenceEnder (c : codeUnit) : bool := ((c =? 46) || (c =? 33) || (c =? 63))%N.
Definition isUpperCase (c : codeUnit) : bool := ((65 <=? c) && (c <=? 90))%N.
Definition isDigit (c : codeUnit) : bool := ((48 <=? c) && (c <=? 57))%N.

(** The successive matches of [/[.!?]+/g], each as [(match.index, endIndex)]:
    [s] is the text from index [i] on, [opened] the index where the run
    being read began. *)
Fixpoint enderRuns (s : jsstring) (i : Z) (opened : option Z) : list (Z * Z) :=
  match s with
  | [] => match opened with Some b => [(b, i)] | None => [] end
  | c :: s' =>
      if isSentenceEnder c
      then enderRuns s' (i + 1) (Some (match opened with Some b => b | None => i end))
      else match opened with
           | Some b => (b, i) :: enderRuns s' (i + 1) None
           | None => enderRuns s' (i + 1) None
           end
  end.

(** One turn of the [while] loop of [splitIntoSentences]. *)
Definition sentenceStep (text : jsstring) (st : list jsstring * Z) (m : Z * Z)
    : list jsstring * Z :=
  let '(sentences, lastIndex) := st in
  let '(index, endIndex) := m in
  let potentialSentence := trim (substringZ text lastIndex endIndex) in
  let nextChar := charAt text endIndex in
  let prevChar := charAt text (index - 1) in
  let isLikelyAbbreviation :=
    match prevChar with
    | Some p => isUpperCase p && (len potentialSentence <? 10)
    | None => false
    end in
  let isDecimal :=
    match prevChar, nextChar with
    | Some p, Some n => isDigit p && isDigit n
    | _, _ => false
    end in
  if negb isLikelyAbbreviation && negb isDecimal
     && match nextChar with
        | None => true
        | Some n => isWhiteSpace n || isUpperCase n
        end
  then (if 0 <? len potentialSentence then sentences ++ [potentialSentence] else sentences,
        endIndex)
  else st.

Definition splitIntoSentences (text : jsstring) : list jsstring :=
  let '(sentences, lastIndex) :=
    fold_left (sentenceStep text) (enderRuns text 0 None) ([], 0) in
  let remaining := trim (substringZ text lastIndex (len text)) in
  let sentences := if 0 <? len remaining then sentences ++ [remaining] else sentences in
  match sentences with
  | [] => [text]
  | _ :: _ => sentences
  end.

(** One turn of the loop over the sentences of a long paragraph. *)
Definition sentenceSection (paragraph : jsstring) (paragraphStart : Z)
    (st : list TextSection * Z) (sentence : jsstring) : list TextSection * Z :=
  let '(sections, sentenceStartInParagraph) := st in
  if len (trim sentence) <? 10 then (sections, sentenceStartInParagraph + len sentence)
  else
    let sentenceStart := indexOf paragraph sentence sentenceStartInParagraph in
    let actualStart := paragraphStart + sentenceStart in
    (sections ++ [makeSection sentence actualStart], sentenceStart + len sentence).

(** One turn of the loop over the paragraphs. *)
Definition paragraphSection (text : jsstring) (st : list TextSection * Z)
    (paragraph : jsstring) : list TextSection * Z :=
  let '(sections, currentIndex) := st in
  if len (trim paragraph) =? 0 then (sections, currentIndex + len paragraph + 2)
  else
    let paragraphStart := indexOf text paragraph currentIndex in
    let sections :=
      if len paragraph <? 200 then sections ++ [makeSection paragraph paragraphStart]
      else fst (fold_left (sentenceSection paragraph paragraphStart)
                          (splitIntoSentences paragraph) (sections, 0)) in
    (sections, paragraphStart + len paragraph + 2).

(** [splitTextIntoAnalysisSections] *)
Definition splitTextIntoAnalysisSections (text : jsstring) : list TextSection :=
  match fst (fold_left (paragraphSection text) (splitParagraphs text) ([], 0)) with
  | [] => [makeSection text 0]
  | sections => sections
  end.

End Splitter.

(** *** The suggestions collected for the current sections *)

Module Collect.

Import Sections.

(** [arr.findIndex(p)], [None] standing for -1. *)
Fixpoint findIndex {A} (p : A -> bool) (arr : list A) : option nat :=
  match arr with
  | [] => None
  | x :: rest => if p x then Some O
                 else match findIndex p rest with Some i => Some (S i) | None => None end
  end.

(** [all.filter((s, index, self) => index === self.findIndex(x => x.id === s.id))] *)
Definition uniqueById (allSuggestions : list Suggestion) : list Suggestion :=
  map snd
      (filter (fun entry : nat * Suggestion =>
                 match findIndex (fun x => streq (id x) (id (snd entry))) allSuggestions with
                 | Some i => Nat.eqb (fst entry) i
                 | None => false
                 end)
              (combine (seq 0 (List.length allSuggestions)) allSuggestions)).

(** [collectCurrentSuggestions]; [sectionSuggestionsMap] is the [get] of the
    map from section hashes to the suggestions kept for them. *)
Definition collectCurrentSuggestions (currentSections : list TextSection)
    (newSuggestions : list Suggestion)
    (sectionSuggestionsMap : jsstring -> option (list Suggestion)) : list Suggestion :=
  let cached :=
    flat_map (fun section => match sectionSuggestionsMap (hash section) with
                             | Some sectionSuggestionsList => sectionSuggestionsList
                             | None => []
                             end) currentSections in
  let allSuggestions := cached ++ newSuggestions in
  stableSort byStart (uniqueById allSuggestions).

End Collect.

(** *** Mapping the answer for the changed sections back to the document *)

Module Incremental.

Import Sections Editor.

(** A template literal [`${n}`] for an integer [0 <= n < 10^21]. *)
Definition numberToString (n : Z) : jsstring :=
  js (NilEmpty.string_of_uint (N.to_uint (Z.to_N n))).

(** [changedSections.map(s => s.content).join('\n\n')], the text sent. *)
Fixpoint combinedTextOf (changedSections : list TextSection) : jsstring :=
  match changedSections with
  | [] => []
  | s :: rest =>
      match rest with
      | [] => content s
      | _ :: _ => content s ++ [10; 10]%N ++ combinedTextOf rest
      end
  end.

(** The [filter] that picks the suggestions of one section. *)
Definition withinSection (combinedTextOffset : Z) (section : TextSection)
    (suggestion : Suggestion) : bool :=
  Qle_bool (inject_Z combinedTextOffset) (start (position suggestion))
  && Qle_bool (end_ (position suggestion))
              (inject_Z (combinedTextOffset + len (content section))).

(** [{ ...suggestion, id, position: { start, end } }] *)
Definition withIdAndPosition (suggestion : Suggestion) (newId : jsstring) (a b : Q)
    : Suggestion :=
  mkSuggestion newId (type suggestion) (mkPosition a b) (original suggestion)
               (suggested suggestion) (contextBefore suggestion) (contextAfter suggestion)
               (explanation suggestion) (confidence suggestion).

(** One turn of [sectionSuggestions.forEach]. *)
Definition mapSuggestion (fullText : jsstring) (section : TextSection)
    (combinedTextOffset : Z) (st : list Suggestion * Z) (suggestion : Suggestion)
    : list Suggestion * Z :=
  let '(mappedSuggestions, suggestionIdCounter) := st in
  let docStart := (inject_Z (startIndex section)
                   + (start (position suggestion) - inject_Z combinedTextOffset))%Q in
  let docEnd := (inject_Z (startIndex section)
                 + (end_ (position suggestion) - inject_Z combinedTextOffset))%Q in
  let originalText := substring fullText docStart docEnd in
  if streq originalText (original suggestion)
  then (mappedSuggestions
          ++ [withIdAndPosition suggestion
                (js "openai-" ++ numberToString suggestionIdCounter) docStart docEnd],
        suggestionIdCounter + 1)
  else st.

(** One turn of the loop over the changed sections. *)
Definition mapSection (fullText : jsstring) (answered : list Suggestion)
    (st : list Suggestion * Z * Z) (section : TextSection) : list Suggestion * Z * Z :=
  let '(mapped, combinedTextOffset) := st in
  let sectionSuggestions := filter (withinSection combinedTextOffset section) answered in
  (fold_left (mapSuggestion fullText section combinedTextOffset) sectionSuggestions mapped,
   combinedTextOffset + len (content section) + 2).

(** [analyzeChangedSectionsWithOpenAI]; [response] is what the remote
    analyzer answers to the combined text. *)
Definition analyzeChangedSectionsWithOpenAI (changedSections : list TextSection)
    (fullText : jsstring) (suggestionIdCounter : Z) (response : FetchOutcome)
    : list Suggestion :=
  match response with
  | HttpResponse true _ (SuggestionsBody answered) =>
      fst (fst (fold_left (mapSection fullText answered) changedSections
                          ([], suggestionIdCounter, 0)))
  | _ => []
  end.

End Incremental.

(** *** The contexts that the dictionary passes record *)

Module Contexts.

(** [getContextBefore] and [getContextAfter], with the default
    [contextLength] of 20 that every call uses. *)
Definition getContextBefore (text : jsstring) (position : Z) : jsstring :=
  let start := Z.max 0 (position - 20) in
  trim (substringZ text start position).

Definition getContextAfter (text : jsstring) (position : Z) : jsstring :=
  let end_ := Z.min (len text) (position + 20) in
  trim (substringZ text position end_).

End Contexts.

(** * Properties *)

(** ** Strings, numbers and searching *)

Lemma streq_true_iff (a b : jsstring) : streq a b = true <-> a = b.
Proof.
  revert b; induction a as [|x a IH]; intros [|y b]; simpl; split; intro H;
    try reflexivity; try discriminate.
  - apply andb_true_iff in H as [Hxy Hab].
    apply N.eqb_eq in Hxy. apply IH in Hab. congruence.
  - injection H as -> ->. rewrite N.eqb_refl. simpl. apply IH. reflexivity.
Qed.

Lemma streq_refl (a : jsstring) : streq a a = true.
Proof. apply streq_true_iff. reflexivity. Qed.

Lemma toInteger_inject_Z (z : Z) : toInteger (inject_Z z) = z.
Proof. unfold toInteger, inject_Z. simpl. apply Z.quot_1_r. Qed.

Lemma len_nonneg (s : jsstring) : 0 <= len s.
Proof. unfold len. lia. Qed.

Lemma len_app (a b : jsstring) : len (a ++ b) = len a + len b.
Proof. unfold len. rewrite length_app. lia. Qed.

Lemma clampIndex_id (text : jsstring) (i : Z) :
  0 <= i <= len text -> clampIndex text i = i.
Proof. unfold clampIndex. lia. Qed.

Lemma clampIndex_range (text : jsstring) (i : Z) : 0 <= clampIndex text i <= len text.
Proof. unfold clampIndex. pose proof (len_nonneg text). lia. Qed.

(** Within bounds [substringZ] is the usual slice. *)
Lemma substringZ_slice (text : jsstring) (a b : Z) :
  0 <= a <= b -> b <= len text ->
  substringZ text a b = firstn (Z.to_nat (b - a)) (skipn (Z.to_nat a) text).
Proof.
  intros Ha Hb. unfold substringZ.
  rewrite !clampIndex_id by lia.
  rewrite Z.min_l, Z.max_r by lia. reflexivity.
Qed.

Lemma substringZ_length (text : jsstring) (a b : Z) :
  len (substringZ text a b)
  = Z.max (clampIndex text a) (clampIndex text b) - Z.min (clampIndex text a) (clampIndex text b).
Proof.
  unfold substringZ, len.
  pose proof (clampIndex_range text a) as Ha. pose proof (clampIndex_range text b) as Hb.
  unfold len in *. rewrite length_firstn, length_skipn. lia.
Qed.

(** The slice of a concatenation that lies inside its middle part. *)
Lemma substringZ_app_middle (pre mid post : jsstring) :
  substringZ (pre ++ mid ++ post) (len pre) (len pre + len mid) = mid.
Proof.
  rewrite substringZ_slice.
  - unfold len. rewrite Nat2Z.id.
    replace (Z.to_nat (Z.of_nat (List.length pre) + Z.of_nat (List.length mid) - Z.of_nat (List.length pre)))
      with (List.length mid) by lia.
    rewrite skipn_app, skipn_all, Nat.sub_diag. simpl.
    rewrite firstn_app, firstn_all, Nat.sub_diag. simpl. apply app_nil_r.
  - pose proof (len_nonneg pre). pose proof (len_nonneg mid). lia.
  - rewrite !len_app. pose proof (len_nonneg post). lia.
Qed.

Lemma isPrefixOf_app (p r : jsstring) : isPrefixOf p (p ++ r) = true.
Proof. induction p as [|x p IH]; simpl; [reflexivity|]. rewrite N.eqb_refl. exact IH. Qed.

Lemma isPrefixOf_true (p s : jsstring) :
  isPrefixOf p s = true -> exists r, s = p ++ r.
Proof.
  revert s; induction p as [|x p IH]; intros s H.
  - exists s. reflexivity.
  - destruct s as [|y s]; simpl in H; [discriminate|].
    apply andb_true_iff in H as [Hxy Hp]. apply N.eqb_eq in Hxy. subst y.
    destruct (IH _ Hp) as [r ->]. exists r. reflexivity.
Qed.

(** [search] occurs in [text] at the integer position [k]. *)
Definition occursAt (text search : jsstring) (k : Z) : Prop :=
  0 <= k /\ k + len search <= len text /\ substringZ text k (k + len search) = search.

Lemma occursAt_split (text search : jsstring) (k : Z) :
  occursAt text search k <->
  exists pre post, text = pre ++ search ++ post /\ len pre = k.
Proof.
  split.
  - intros (Hk & Hle & Hsub).
    exists (firstn (Z.to_nat k) text), (skipn (Z.to_nat (k + len search)) text).
    rewrite substringZ_slice in Hsub by (pose proof (len_nonneg search); lia).
    split.
    + rewrite <- Hsub at 1.
      replace (Z.to_nat (k + len search)) with (Z.to_nat (k + len search - k) + Z.to_nat k)%nat
        by (pose proof (len_nonneg search); lia).
      rewrite <- skipn_skipn. rewrite (firstn_skipn _ (skipn (Z.to_nat k) text)).
      symmetry. apply firstn_skipn.
    + unfold len in *. rewrite length_firstn. lia.
  - intros (pre & post & -> & <-). unfold occursAt.
    pose proof (len_nonneg pre). pose proof (len_nonneg post).
    rewrite !len_app. repeat split; try lia.
    apply substringZ_app_middle.
Qed.

Lemma isPrefixOf_skipn_occurs (text search : jsstring) (j : nat) :
  (j <= List.length text)%nat ->
  isPrefixOf search (skipn j text) = true -> occursAt text search (Z.of_nat j).
Proof.
  intros Hj H. apply isPrefixOf_true in H as [r Hr].
  apply occursAt_split. exists (firstn j text), r. split.
  - rewrite <- Hr. symmetry. apply firstn_skipn.
  - unfold len. rewrite length_firstn. lia.
Qed.

Lemma occurs_isPrefixOf_skipn (text search : jsstring) (k : Z) :
  occursAt text search k -> isPrefixOf search (skipn (Z.to_nat k) text) = true.
Proof.
  intros H. apply occursAt_split in H as (pre & post & -> & <-).
  unfold len. rewrite Nat2Z.id, skipn_app, skipn_all, Nat.sub_diag. simpl.
  apply isPrefixOf_app.
Qed.

(** What [indexOfAux] answers: the first position from [k] on at which
    [search] is a prefix of the rest, or [-1] when there is none. *)
Lemma indexOfAux_found (search s : jsstring) (k r : Z) :
  indexOfAux search s k = r -> r <> -1 -> 0 <= k ->
  exists j : nat, r = k + Z.of_nat j /\ (j <= List.length s)%nat
                  /\ isPrefixOf search (skipn j s) = true.
Proof.
  revert k; induction s as [|c s IH]; intros k Hr Hne Hk; simpl in Hr.
  - destruct (isPrefixOf search []) eqn:E; [|congruence].
    exists 0%nat. simpl. repeat split; [lia|lia|exact E].
  - destruct (isPrefixOf search (c :: s)) eqn:E.
    + exists 0%nat. simpl. repeat split; [lia|lia|exact E].
    + destruct (IH (k + 1) Hr Hne ltac:(lia)) as (j & -> & Hj & Hp).
      exists (S j). simpl. repeat split; [lia|lia|exact Hp].
Qed.

Lemma indexOfAux_none (search s : jsstring) (k : Z) :
  indexOfAux search s k = -1 -> 0 <= k ->
  forall j : nat, (j <= List.length s)%nat -> isPrefixOf search (skipn j s) = false.
Proof.
  revert k; induction s as [|c s IH]; intros k Hr Hk j Hj; simpl in Hr.
  - destruct (isPrefixOf search []) eqn:E; [lia|].
    simpl in Hj. replace j with 0%nat by lia. exact E.
  - destruct (isPrefixOf search (c :: s)) eqn:E; [lia|].
    destruct j as [|j]; [exact E|]. simpl. apply (IH (k + 1)); [exact Hr|lia|simpl in Hj; lia].
Qed.

Lemma indexOf_found (text search : jsstring) (from r : Z) :
  indexOf text search from = r -> r <> -1 ->
  clampIndex text from <= r /\ occursAt text search r.
Proof.
  unfold indexOf. intros Hr Hne.
  pose proof (clampIndex_range text from) as Hc.
  destruct (indexOfAux_found _ _ _ _ Hr Hne ltac:(lia)) as (j & -> & Hj & Hp).
  rewrite length_skipn in Hj. rewrite skipn_skipn in Hp.
  split; [lia|].
  replace (clampIndex text from + Z.of_nat j)
    with (Z.of_nat (j + Z.to_nat (clampIndex text from))) by lia.
  apply isPrefixOf_skipn_occurs; [|exact Hp].
  unfold len in Hc. lia.
Qed.

Lemma indexOf_none (text search : jsstring) (from k : Z) :
  indexOf text search from = -1 -> clampIndex text from <= k -> ~ occursAt text search k.
Proof.
  unfold indexOf. intros Hr Hk Hocc.
  pose proof (clampIndex_range text from) as Hc.
  pose proof (occurs_isPrefixOf_skipn _ _ _ Hocc) as Hp.
  destruct Hocc as (H0 & Hle & _). pose proof (len_nonneg search) as Hs.
  pose proof (indexOfAux_none _ _ _ Hr ltac:(lia)
                (Z.to_nat (k - clampIndex text from))) as Hn.
  rewrite length_skipn, skipn_skipn in Hn.
  replace (Z.to_nat (k - clampIndex text from) + Z.to_nat (clampIndex text from))%nat
    with (Z.to_nat k) in Hn by lia.
  unfold len in *. rewrite Hn in Hp by lia. discriminate.
Qed.

(** An occurrence of a non-empty string starts before the end of the text. *)
Lemma occursAt_lt (text search : jsstring) (k : Z) :
  search <> [] -> occursAt text search k -> k < len text.
Proof.
  intros Hne (_ & Hle & _). destruct search; [congruence|].
  unfold len in *. simpl in Hle. lia.
Qed.

(** The search loop is left when [search] is not empty, and what it has
    visited are occurrences. *)
Lemma searchLoop_terminates (text search : jsstring) :
  search <> [] ->
  forall (fuel : nat) (i : Z),
    (i = -1 \/ occursAt text search i) ->
    (Z.to_nat (len text - i) <= fuel)%nat ->
    exists l, searchLoop fuel text search i = Some l
              /\ Forall (occursAt text search) l
              /\ (l = [] <-> i = -1).
Proof.
  intros Hne fuel; induction fuel as [|fuel IH]; intros i Hi Hfuel.
  - destruct Hi as [-> | Hocc].
    + exists []. simpl. repeat split; auto.
    + pose proof (occursAt_lt _ _ _ Hne Hocc). lia.
  - destruct Hi as [-> | Hocc].
    + exists []. simpl. repeat split; auto.
    + pose proof (occursAt_lt _ _ _ Hne Hocc) as Hlt.
      pose proof Hocc as (H0 & _).
      simpl. replace (i =? -1) with false by (symmetry; apply Z.eqb_neq; lia).
      destruct (Z.eq_dec (indexOf text search (i + 1)) (-1)) as [E | E].
      * rewrite E. destruct fuel; simpl;
          (exists [i]; repeat split; [constructor; [exact Hocc|constructor] | discriminate | lia]).
      * destruct (indexOf_found _ _ _ _ eq_refl E) as [Hge Hocc'].
        rewrite clampIndex_id in Hge by lia.
        destruct (IH (indexOf text search (i + 1)) (or_intror Hocc') ltac:(lia))
          as (l & -> & Hall & _).
        exists (i :: l). repeat split; [constructor; assumption | discriminate | lia].
Qed.

Lemma searchIndices_spec (text search : jsstring) :
  search <> [] ->
  exists l, searchIndices text search = Some l
            /\ Forall (occursAt text search) l
            /\ (l = [] <-> forall k, ~ occursAt text search k).
Proof.
  intros Hne. unfold searchIndices.
  assert (Hi : indexOf text search 0 = -1 \/ occursAt text search (indexOf text search 0)).
  { destruct (Z.eq_dec (indexOf text search 0) (-1)) as [E|E]; [left; exact E|right].
    apply (indexOf_found _ _ _ _ eq_refl E). }
  assert (Hfuel : (Z.to_nat (len text - indexOf text search 0) <= S (List.length text))%nat).
  { destruct Hi as [E | (H0 & _)]; [rewrite E|]; unfold len; lia. }
  destruct (searchLoop_terminates text search Hne _ _ Hi Hfuel) as (l & Hl & Hall & Hnil).
  exists l. repeat split; try assumption.
  - intros E k Hocc. apply Hnil in E.
    pose proof Hocc as (H0 & _).
    apply (indexOf_none _ _ _ k E); [|exact Hocc].
    unfold clampIndex. pose proof (len_nonneg text). lia.
  - intros Hno. apply Hnil. destruct Hi as [E | Hocc]; [exact E|].
    exfalso. exact (Hno _ Hocc).
Qed.

(** The empty string occurs at position 0 of every text. *)
Lemma occursAt_empty (text : jsstring) : occursAt text [] 0.
Proof.
  apply occursAt_split. exists [], text. split; reflexivity.
Qed.

(** Sorting keeps the elements. *)
Lemma insertSorted_In {A} (before : A -> A -> bool) (x y : A) (l : list A) :
  In y (insertSorted before x l) <-> y = x \/ In y l.
Proof.
  induction l as [|z l IH]; simpl.
  - intuition.
  - destruct (before z x); simpl; rewrite ?IH; intuition.
Qed.

Lemma stableSort_In {A} (before : A -> A -> bool) (y : A) (l : list A) :
  In y (stableSort before l) <-> In y l.
Proof.
  induction l as [|x l IH]; simpl; [tauto|].
  rewrite insertSorted_In, IH. intuition.
Qed.

Lemma collectSome_In {A} (y : A) (l : list (option A)) :
  In y (collectSome l) <-> In (Some y) l.
Proof.
  induction l as [|[x|] l IH]; simpl; [tauto| |].
  - rewrite IH. split; intros [H|H]; auto; left; congruence.
  - rewrite IH. split; [auto|]. intros [H|H]; [discriminate|exact H].
Qed.

Lemma Qlt_bool_iff (a b : Q) : Qlt_bool a b = true <-> (a < b)%Q.
Proof.
  unfold Qlt_bool. rewrite negb_true_iff. split.
  - intros H. apply Qnot_le_lt. intros Hle. apply Qle_bool_iff in Hle. congruence.
  - intros H. destruct (Qle_bool b a) eqn:E; [|reflexivity].
    apply Qle_bool_iff in E. exfalso. exact (Qlt_not_le _ _ H E).
Qed.

Lemma Qlt_bool_false_iff (a b : Q) : Qlt_bool a b = false <-> (b <= a)%Q.
Proof.
  unfold Qlt_bool. rewrite negb_false_iff. apply Qle_bool_iff.
Qed.

Lemma Qle_bool_false_iff (a b : Q) : Qle_bool a b = false <-> (b < a)%Q.
Proof.
  rewrite <- Qlt_bool_iff. unfold Qlt_bool. destruct (Qle_bool a b); simpl; intuition congruence.
Qed.

(** ** TextDiffer *)

(** The change point in the words of the specification: the index of the
    first character at which the two texts disagree, scanning from [i] over
    the common length, and the end of the shorter text when they agree on
    all of it. *)
Fixpoint firstDisagreement (oldText newText : jsstring) (i : Z) : Z :=
  match oldText, newText with
  | x :: o', y :: n' => if N.eqb x y then firstDisagreement o' n' (i + 1) else i
  | _, _ => i
  end.

Lemma scanLoop_firstDisagreement (o n : jsstring) (i : Z) :
  (firstDisagreement o n i = i + Z.min (len o) (len n) /\ scanLoop o n i = 0)
  \/ (firstDisagreement o n i < i + Z.min (len o) (len n)
      /\ scanLoop o n i = firstDisagreement o n i).
Proof.
  revert n i; induction o as [|x o IH]; intros [|y n] i; simpl;
    try (left; split; [unfold len; simpl; lia | reflexivity]).
  destruct (N.eqb x y).
  - destruct (IH n (i + 1)) as [[H1 H2] | [H1 H2]]; [left | right];
      (split; [|exact H2]); unfold len in *; simpl List.length; lia.
  - right. split; [|reflexivity]. unfold len. simpl List.length. lia.
Qed.

(** Away from index 0 the handler computes the change point of the
    specification. *)
Lemma computeChangeStart_correct (oldText newText : jsstring) :
  oldText <> newText ->
  firstDisagreement oldText newText 0 <> 0 \/ oldText = [] \/ newText = [] ->
  computeChangeStart oldText newText = firstDisagreement oldText newText 0.
Proof.
  intros Hne Hcase. unfold computeChangeStart.
  assert (Hs : streq oldText newText = false).
  { destruct (streq oldText newText) eqn:E; [|reflexivity].
    apply streq_true_iff in E. contradiction. }
  rewrite Hs. simpl negb. rewrite andb_true_r.
  destruct (scanLoop_firstDisagreement oldText newText 0) as [[H1 H2] | [H1 H2]].
  - rewrite H2. simpl. lia.
  - rewrite H2. destruct (Z.eqb_spec (firstDisagreement oldText newText 0) 0) as [E|E];
      [|reflexivity].
    destruct Hcase as [Hc | [-> | ->]]; [contradiction| |].
    + simpl in *. unfold len in H1. simpl in H1. lia.
    + destruct oldText; simpl in *; unfold len in H1; simpl in H1; lia.
Qed.

(** When the texts disagree on their first character, the handler takes
    the index 0 it has just found for "nothing found" and moves the change
    point to the end of the shorter text. *)
Lemma computeChangeStart_head_differs (x y : codeUnit) (o n : jsstring) :
  x <> y ->
  computeChangeStart (x :: o) (y :: n) = Z.min (len (x :: o)) (len (y :: n)).
Proof.
  intros Hxy. unfold computeChangeStart. simpl.
  apply N.eqb_neq in Hxy. rewrite Hxy. reflexivity.
Qed.

(** C4 (code defect).  The claim: for [oldText <> newText] the computed
    [changeStart] is the index of the first character at which the texts
    disagree, so that the two texts agree before it.  On ["abc"] and
    ["xbc"], which disagree at index 0, [handleContentEditable] computes 3:
    the texts differ before that point. *)
Theorem changeStart_first_character_slip :
  computeChangeStart (js "abc") (js "xbc") = 3
  /\ firstDisagreement (js "abc") (js "xbc") 0 = 0
  /\ substringZ (js "abc") 0 3 <> substringZ (js "xbc") 0 3
  /\ lengthDifference (js "abc") (js "xbc") = len (js "xbc") - len (js "abc").
Proof.
  repeat split; try reflexivity. vm_compute. discriminate.
Qed.

(** ** PositionLocator *)

Lemma hint_verification_returns_hint_aux
    (text original : jsstring) (hintStart hintEnd : Q)
    (contextBefore contextAfter : option jsstring) :
  (0 <= hintStart)%Q -> (hintStart < hintEnd)%Q -> (hintEnd <= inject_Z (len text))%Q ->
  substring text hintStart hintEnd = original ->
  findExactTextPosition text original hintStart hintEnd contextBefore contextAfter
  = Some (mkLocated hintStart hintEnd true).
Proof.
  intros H0 Hlt Hle Hsub. unfold findExactTextPosition.
  apply Qle_bool_iff in H0. apply Qle_bool_iff in Hle. apply Qlt_bool_iff in Hlt.
  rewrite H0, Hle, Hlt, Hsub, streq_refl. reflexivity.
Qed.

(** C6.  When the hint span lies within the text and the text read there
    is [original], [findExactTextPosition] answers the hint span itself with
    [found = true], whatever the contexts and wherever else [original]
    occurs. *)
Theorem hint_verification_returns_hint
    (text original : jsstring) (hintStart hintEnd : Q)
    (contextBefore contextAfter : option jsstring) :
  (0 <= hintStart)%Q -> (hintStart < hintEnd)%Q -> (hintEnd <= inject_Z (len text))%Q ->
  substring text hintStart hintEnd = original ->
  findExactTextPosition text original hintStart hintEnd contextBefore contextAfter
  = Some (mkLocated hintStart hintEnd true).
Proof. exact (hint_verification_returns_hint_aux text original hintStart hintEnd contextBefore contextAfter). Qed.

Lemma hint_verification_returns_hint_witness :
  findExactTextPosition (js "I think you you should go.") (js "you") 12 15
                        (Some (js "think")) (Some (js "should"))
  = Some (mkLocated 12 15 true).
Proof.
  apply hint_verification_returns_hint.
  - vm_compute. discriminate.
  - vm_compute. reflexivity.
  - vm_compute. discriminate.
  - vm_compute. reflexivity.
Defined.

(** C5 (corrected).  In ["I think you you should go."] the word ["you"]
    occurs at 8 and at 12.  With the contexts ["think"] and ["should"] and the
    stale hint [{13, 16}], both occurrences pass both context tests (each
    window reaches ten characters beyond the context), both score
    [1 + 2 + 2 = 5], and the first one, [{8, 11}], is returned. *)
Theorem context_search_returns_first_occurrence :
  let text := js "I think you you should go." in
  searchIndices text (js "you") = Some [8; 12]
  /\ findWithContext text (js "you") (Some (js "think")) (Some (js "should"))
     = Some [mkContextMatch 8 11 5; mkContextMatch 12 15 5]
  /\ findExactTextPosition text (js "you") 13 16 (Some (js "think")) (Some (js "should"))
     = Some (mkLocated 8 11 true).
Proof.
  vm_compute. repeat split.
Qed.

Lemma context_search_misses_second_occurrence :
  findExactTextPosition (js "I think you you should go.") (js "you") 13 16
                        (Some (js "think")) (Some (js "should"))
  <> Some (mkLocated 13 16 true).
Proof.
  vm_compute. discriminate.
Qed.

(** What [substring] reads is an occurrence of what it returns. *)
Lemma substringZ_occurs (text : jsstring) (a b : Z) :
  exists k, occursAt text (substringZ text a b) k.
Proof.
  pose proof (clampIndex_range text a) as Ha. pose proof (clampIndex_range text b) as Hb.
  exists (Z.min (clampIndex text a) (clampIndex text b)).
  unfold occursAt. rewrite substringZ_length. repeat split; try lia.
  rewrite (substringZ_slice text _ (_ + _)) by lia.
  unfold substringZ. f_equal. lia.
Qed.

Lemma substring_occurs (text : jsstring) (a b : Q) :
  exists k, occursAt text (substring text a b) k.
Proof. apply substringZ_occurs. Qed.

Lemma collectSome_all_None {A B} (f : A -> option B) (l : list A) :
  (forall x, In x l -> f x = None) -> collectSome (map f l) = [].
Proof.
  induction l as [|x l IH]; intros H; simpl; [reflexivity|].
  rewrite (H x) by (left; reflexivity). apply IH. intros y Hy. apply H. right. exact Hy.
Qed.

(** No candidate window of the fuzzy search holds 60% of the words of
    [searchText]. *)
Definition noCandidateReachesThreshold (text searchText : jsstring) (hintPos : Q) : Prop :=
  let searchWords := searchWordsOf searchText in
  let words := split_ws (searchWindowOf text hintPos) in
  forall i : nat, (i < candidateCount searchWords words)%nat ->
    (confidenceAt searchWords words (Z.of_nat i) < 6 # 10)%Q.

Lemma findFuzzyMatches_below_threshold (text searchText : jsstring) (hintPos : Q) :
  noCandidateReachesThreshold text searchText hintPos ->
  findFuzzyMatches text searchText hintPos = [].
Proof.
  unfold noCandidateReachesThreshold, findFuzzyMatches. intros H.
  destruct (searchWordsOf searchText) as [|w ws] eqn:Ew; [reflexivity|].
  rewrite collectSome_all_None; [reflexivity|].
  intros i Hi. apply in_seq in Hi. unfold fuzzyMatchAt.
  specialize (H i ltac:(lia)). apply Qle_bool_false_iff in H. rewrite H. reflexivity.
Qed.

(** Nothing to find: the search loops end with no position, and the
    answer depends on the fuzzy search alone. *)
Lemma findExactTextPosition_no_occurrence
    (text searchText : jsstring) (startPos endPos : Q)
    (contextBefore contextAfter : option jsstring) :
  (forall k, ~ occursAt text searchText k) ->
  findExactTextPosition text searchText startPos endPos contextBefore contextAfter
  = Some match findFuzzyMatches text searchText startPos with
         | m :: _ => mkLocated (f_start m) (f_end m) true
         | [] => mkLocated startPos endPos false
         end.
Proof.
  intros Hno. unfold findExactTextPosition.
  assert (Hne : searchText <> []).
  { intros ->. exact (Hno 0 (occursAt_empty text)). }
  assert (Hhint : streq (substring text startPos endPos) searchText = false).
  { destruct (streq (substring text startPos endPos) searchText) eqn:E; [|reflexivity].
    apply streq_true_iff in E. destruct (substring_occurs text startPos endPos) as [k Hk].
    rewrite E in Hk. exfalso. exact (Hno k Hk). }
  rewrite Hhint, andb_false_r.
  destruct (searchIndices_spec text searchText Hne) as (l & Hl & _ & Hnil).
  assert (l = []) as -> by (apply Hnil; exact Hno).
  unfold findWithContext. rewrite Hl. simpl.
  destruct (findFuzzyMatches text searchText startPos);
    destruct (truthy contextBefore || truthy contextAfter); reflexivity.
Qed.

Lemma findExactTextPosition_not_found
    (text searchText : jsstring) (startPos endPos : Q)
    (contextBefore contextAfter : option jsstring) :
  (forall k, ~ occursAt text searchText k) ->
  noCandidateReachesThreshold text searchText startPos ->
  findExactTextPosition text searchText startPos endPos contextBefore contextAfter
  = Some (mkLocated startPos endPos false).
Proof.
  intros Hno Hfuzzy. rewrite findExactTextPosition_no_occurrence by exact Hno.
  rewrite findFuzzyMatches_below_threshold by exact Hfuzzy. reflexivity.
Qed.

Import Editor.

(** C7 (corrected).  When [original] occurs nowhere in the text (the hint
    span then cannot verify) and no fuzzy candidate reaches the threshold,
    [findExactTextPosition] answers [found = false] with the hint span
    unchanged.  The reconciling callers [updateSuggestionPositions] and
    [cleanupInvalidSuggestions] then drop the suggestion without a message;
    [applySuggestion] keeps it, leaves the text alone and raises a
    destructive toast. *)
Theorem unlocatable_suggestion_handling (st : State) (s : Suggestion) :
  (forall k, ~ occursAt (value st) (original s) k) ->
  noCandidateReachesThreshold (value st) (original s) (start (position s)) ->
  findExactTextPosition (value st) (original s) (start (position s)) (end_ (position s))
                        (contextBefore s) (contextAfter s)
  = Some (mkLocated (start (position s)) (end_ (position s)) false)
  /\ relocate (value st) s = Some None
  /\ survivesCleanup (value st) s = Some false
  /\ applySuggestion true st s
     = Some (toast st (mkToast destructive (js "Could not apply suggestion"))).
Proof.
  intros Hno Hfuzzy.
  pose proof (findExactTextPosition_not_found (value st) (original s) (start (position s))
                (end_ (position s)) (contextBefore s) (contextAfter s) Hno Hfuzzy) as H.
  unfold relocate, survivesCleanup, applySuggestion, locate. rewrite H. simpl.
  repeat split.
Qed.

Definition sampleSuggestion (ident : string) (a b : Z) (orig : string) : Suggestion :=
  mkSuggestion (js ident) grammar (mkPosition (inject_Z a) (inject_Z b)) (js orig)
               [] None None [] (8 # 10).

Definition sampleState (text : string) (l : list Suggestion) : State :=
  mkState (js text) (js text) l None false None false [].

Lemma unlocatable_suggestion_handling_witness :
  let s := sampleSuggestion "typo-1" 0 3 "Teh" in
  let st := sampleState "The cat sat." [s] in
  relocate (value st) s = Some None
  /\ applySuggestion true st s
     = Some (toast st (mkToast destructive (js "Could not apply suggestion"))).
Proof.
  intros s st.
  assert (Hno : forall k, ~ occursAt (value st) (original s) k).
  { destruct (searchIndices_spec (value st) (original s) ltac:(discriminate))
      as (l & Hl & _ & Hnil).
    vm_compute in Hl. injection Hl as <-. apply Hnil. reflexivity. }
  assert (Hfuzzy : noCandidateReachesThreshold (value st) (original s) (start (position s))).
  { intros i Hi. vm_compute in Hi.
    destruct i as [|[|[|i]]]; vm_compute; try reflexivity.
    apply Nat.leb_le in Hi. discriminate. }
  destruct (unlocatable_suggestion_handling st s Hno Hfuzzy) as (_ & H2 & _ & H4).
  split; assumption.
Defined.

(** The claim has every caller delete the suggestion silently; this one
    shows a toast and keeps it. *)
Lemma apply_keeps_unlocatable_suggestion :
  let s := sampleSuggestion "typo-1" 0 3 "Teh" in
  let st := sampleState "The cat sat." [s] in
  locate (value st) s = Some (mkLocated 0 3 false)
  /\ applySuggestion true st s
     = Some (mkState (js "The cat sat.") (js "The cat sat.") [s] None false None false
                     [mkToast destructive (js "Could not apply suggestion")]).
Proof.
  vm_compute. split; reflexivity.
Qed.

(** ** SectionSplitter *)

Import Sections.

Lemma hasHash_true_iff (previousSections : list TextSection) (h : jsstring) :
  hasHash previousSections h = true <-> exists p, In p previousSections /\ hash p = h.
Proof.
  unfold hasHash. rewrite existsb_exists. split; intros (p & Hp & E); exists p; (split; [exact Hp|]).
  - apply streq_true_iff. exact E.
  - apply streq_true_iff. exact E.
Qed.

(** C8.  [detectChangedSections] returns exactly the current sections whose
    hash is the hash of no previous section; and a section built as the
    splitter builds them, whose trimmed content is that of some previous
    section built the same way, is not among them. *)
Theorem changed_iff_hash_is_new (currentSections previousSections : list TextSection) :
  (forall section,
      In section (detectChangedSections currentSections previousSections)
      <-> In section currentSections
          /\ forall p, In p previousSections -> hash p <> hash section)
  /\ (forall content startIndex previousContent previousStart,
         In (makeSection previousContent previousStart) previousSections ->
         trim content = trim previousContent ->
         ~ In (makeSection content startIndex)
              (detectChangedSections currentSections previousSections)).
Proof.
  assert (Hiff : forall section,
      In section (detectChangedSections currentSections previousSections)
      <-> In section currentSections
          /\ forall p, In p previousSections -> hash p <> hash section).
  { intros section. unfold detectChangedSections. rewrite filter_In, negb_true_iff.
    split; intros [Hin Hh]; (split; [exact Hin|]).
    - intros p Hp E.
      assert (hasHash previousSections (hash section) = true)
        by (apply hasHash_true_iff; exists p; auto).
      congruence.
    - destruct (hasHash previousSections (hash section)) eqn:E; [|reflexivity].
      apply hasHash_true_iff in E as (p & Hp & Ep). exfalso. exact (Hh p Hp Ep). }
  split; [exact Hiff|].
  intros content startIndex previousContent previousStart Hprev Htrim Hin.
  apply Hiff in Hin as [_ Hh].
  apply (Hh _ Hprev). unfold makeSection. simpl. rewrite Htrim. reflexivity.
Qed.

Lemma changed_iff_hash_is_new_witness :
  ~ In (makeSection (js "Para one sentence. Another sentence here.") 0)
       (detectChangedSections
          [makeSection (js "Para one sentence. Another sentence here.") 0;
           makeSection (js "Para two, edited.") 43]
          [makeSection (js "Para one sentence. Another sentence here. ") 0;
           makeSection (js "Para two.") 44]).
Proof.
  apply (proj2 (changed_iff_hash_is_new _ _)
           (js "Para one sentence. Another sentence here.") 0
           (js "Para one sentence. Another sentence here. ") 0).
  - simpl. left. reflexivity.
  - vm_compute. reflexivity.
Defined.

Example simpleHash_sample :
  simpleHash (js "abc") = js "22ci"
  /\ detectChangedSections
       [makeSection (js "Para one.") 0; makeSection (js "Para two, edited.") 11]
       [makeSection (js "Para one.") 0; makeSection (js "Para two.") 11]
     = [makeSection (js "Para two, edited.") 11].
Proof. vm_compute. split; reflexivity. Qed.

(** ** Truncation of numbers that are not negative *)

Lemma toInteger_Qfloor (q : Q) : (0 <= q)%Q -> toInteger q = Qfloor q.
Proof.
  destruct q as [n d]. unfold Qle, toInteger, Qfloor. simpl. intros H.
  apply Z.quot_div_nonneg; lia.
Qed.

Lemma Qfloor_unique (x : Q) (z : Z) :
  (inject_Z z <= x)%Q -> (x < inject_Z (z + 1))%Q -> Qfloor x = z.
Proof.
  intros Hle Hlt.
  pose proof (Qfloor_resp_le _ _ Hle) as H1. rewrite Qfloor_Z in H1.
  pose proof (Qfloor_le x) as H2.
  assert (inject_Z (Qfloor x) < inject_Z (z + 1))%Q as H3 by (eapply Qle_lt_trans; eassumption).
  rewrite <- Zlt_Qlt in H3. lia.
Qed.

Lemma toInteger_nonneg (q : Q) : (0 <= q)%Q -> 0 <= toInteger q.
Proof.
  intros H. rewrite toInteger_Qfloor by exact H.
  pose proof (Qfloor_resp_le _ _ H) as H1. change 0%Q with (inject_Z 0) in H1.
  rewrite Qfloor_Z in H1. exact H1.
Qed.

Lemma toInteger_le (a b : Q) : (0 <= a)%Q -> (a <= b)%Q -> toInteger a <= toInteger b.
Proof.
  intros H0 Hab. rewrite !toInteger_Qfloor; [apply Qfloor_resp_le; exact Hab | | exact H0].
  eapply Qle_trans; eassumption.
Qed.

Lemma toInteger_le_Z (q : Q) (z : Z) : (0 <= q)%Q -> (q <= inject_Z z)%Q -> toInteger q <= z.
Proof.
  intros H0 H. rewrite <- (toInteger_inject_Z z). apply toInteger_le; assumption.
Qed.

Lemma Z_le_toInteger (q : Q) (z : Z) : 0 <= z -> (inject_Z z <= q)%Q -> z <= toInteger q.
Proof.
  intros H0 H. rewrite <- (toInteger_inject_Z z). apply toInteger_le; [|exact H].
  change 0%Q with (inject_Z 0). rewrite <- Zle_Qle. exact H0.
Qed.


(** C10 (code defect).  The claim: a span returned with [found = true]
    satisfies [0 <= start <= end <= len(text)].  The fuzzy search measures
    [sliceStart] in the lower-cased window and adds it to an offset into the
    text itself; lower-casing U+0130 makes the window longer than the text it
    was cut from.  On eight U+0130 followed by [" foo"], searched for ["Foo"]
    with the hint [{10, 13}], the answer is [found = true] with start 13 and
    end 12, in a text of length 12. *)
Theorem fuzzy_span_past_end_of_text :
  let text := repeat 304%N 8 ++ js " foo" in
  len text = 12
  /\ findExactTextPosition text (js "Foo") 10 13 None None = Some (mkLocated (26 # 2) 12 true)
  /\ ~ (26 # 2 <= 12)%Q
  /\ ~ (26 # 2 <= inject_Z (len text))%Q.
Proof.
  vm_compute. repeat split; intros H; apply H; reflexivity.
Qed.

(** ** SuggestionRepositioner *)


(** The span invariant of the data model for one suggestion. *)
Definition spanHolds (text : jsstring) (s : Suggestion) : Prop :=
  substring text (start (position s)) (end_ (position s)) = original s.

(** A span that is valid against [text]: inside it, not empty, and reading
    [original] there. *)
Definition validSpan (text : jsstring) (s : Suggestion) : Prop :=
  (0 <= start (position s))%Q /\ (start (position s) < end_ (position s))%Q
  /\ (end_ (position s) <= inject_Z (len text))%Q /\ spanHolds text s.


Lemma substringZ_app_left (pre rest : jsstring) (a b : Z) :
  0 <= a <= b -> b <= len pre ->
  substringZ (pre ++ rest) a b = substringZ pre a b.
Proof.
  intros Hab Hb. pose proof (len_nonneg rest).
  rewrite !substringZ_slice by (rewrite ?len_app; lia).
  unfold len in *.
  rewrite skipn_app, firstn_app, length_skipn.
  replace (Z.to_nat (b - a) - (List.length pre - Z.to_nat a))%nat with 0%nat by lia.
  simpl. apply app_nil_r.
Qed.

Lemma substringZ_app_right (pre rest : jsstring) (a b : Z) :
  len pre <= a -> a <= b -> b <= len pre + len rest ->
  substringZ (pre ++ rest) a b = substringZ rest (a - len pre) (b - len pre).
Proof.
  intros Ha Hab Hb. pose proof (len_nonneg pre).
  rewrite !substringZ_slice by (rewrite ?len_app; lia).
  unfold len in *.
  rewrite skipn_app, skipn_all2 by lia. simpl. f_equal; [lia|]. f_equal. lia.
Qed.

Lemma text_split_at (text : jsstring) (p : Z) :
  0 <= p <= len text ->
  text = substringZ text 0 p ++ substringZ text p (len text) /\ len (substringZ text 0 p) = p.
Proof.
  intros Hp. rewrite !substringZ_slice by lia. unfold len in *.
  change (skipn (Z.to_nat 0) text) with text. rewrite Z.sub_0_r.
  rewrite (firstn_all2 (skipn (Z.to_nat p) text)) by (rewrite length_skipn; lia).
  split; [symmetry; apply firstn_skipn|]. rewrite length_firstn. lia.
Qed.


Lemma substringZ_app_right_of (text : jsstring) (p a b : Z) :
  0 <= p <= len text -> p <= a <= b -> b <= len text ->
  substringZ text a b = substringZ (substringZ text p (len text)) (a - p) (b - p).
Proof.
  intros Hp Hab Hb. destruct (text_split_at text p Hp) as [Hsplit Hlen].
  pose proof (f_equal len Hsplit) as E. rewrite len_app in E.
  rewrite Hsplit at 1. rewrite substringZ_app_right by lia.
  rewrite Hlen. reflexivity.
Qed.




(** A suggestion whose span is valid is found where it is and kept as it is. *)
Lemma relocate_valid (text : jsstring) (s : Suggestion) :
  validSpan text s -> relocate text s = Some (Some s).
Proof.
  intros (H0 & Hlt & Hle & Hsub). unfold relocate, locate.
  rewrite (hint_verification_returns_hint_aux text (original s) _ _ _ _ H0 Hlt Hle Hsub).
  simpl. unfold Qneq_bool. rewrite !Qeq_bool_refl. reflexivity.
Qed.

Lemma inject_Z_nonneg (k : Z) : 0 <= k -> (0 <= inject_Z k)%Q.
Proof. intros H. change 0%Q with (inject_Z 0). rewrite <- Zle_Qle. exact H. Qed.


Lemma collectSome_map_Some {A} (l : list A) : collectSome (map Some l) = l.
Proof. induction l as [|x l IH]; simpl; [reflexivity|]. rewrite IH. reflexivity. Qed.

Lemma mapM_relocate_valid (text : jsstring) (l : list Suggestion) :
  Forall (validSpan text) l -> mapM (relocate text) l = Some (map Some l).
Proof.
  induction 1 as [|s l Hs _ IH]; simpl; [reflexivity|].
  rewrite (relocate_valid _ _ Hs). simpl. rewrite IH. reflexivity.
Qed.

Lemma collectSome_Forall {A B} (P : A -> Prop) (Q : B -> Prop) (f : A -> option B) (l : list A) :
  (forall x y, P x -> f x = Some y -> Q y) ->
  Forall P l -> Forall Q (collectSome (map f l)).
Proof.
  intros Hf. induction 1 as [|x l Hx _ IH]; simpl; [constructor|].
  destruct (f x) as [y|] eqn:E; [constructor; [exact (Hf x y Hx E)|exact IH]|exact IH].
Qed.

Lemma updateSuggestionPositions_suggestions
    (st st' : State) (oldText newText : jsstring) (changeStart : Z) :
  updateSuggestionPositions st oldText newText changeStart = Some st' ->
  repositioned (suggestions st) oldText newText changeStart = Some (suggestions st').
Proof.
  unfold updateSuggestionPositions. destruct (suggestions st) as [|s l] eqn:E.
  - intros H. injection H as <-. rewrite E. reflexivity.
  - destruct (repositioned (s :: l) oldText newText changeStart) as [updated|];
      simpl; [|discriminate].
    destruct (selectedSuggestion st); intros H; injection H as <-; reflexivity.
Qed.

Lemma updateSuggestionPositions_returns
    (st : State) (oldText newText : jsstring) (changeStart : Z) (updated : list Suggestion) :
  repositioned (suggestions st) oldText newText changeStart = Some updated ->
  exists st', updateSuggestionPositions st oldText newText changeStart = Some st'
              /\ suggestions st' = updated.
Proof.
  intros H. unfold updateSuggestionPositions. destruct (suggestions st) as [|s l] eqn:E.
  - exists st. split; [reflexivity|]. rewrite E. vm_compute in H. congruence.
  - rewrite H. simpl. destruct (selectedSuggestion st); eexists; split; reflexivity.
Qed.



(** ** SuggestionMerger *)

(** An existing suggestion that the new one displaces. *)
Definition displaces (newSuggestion existing : Suggestion) : bool :=
  overlaps newSuggestion existing
  && shouldReplace (getSuggestionSource newSuggestion) (getSuggestionSource existing).

Lemma overlappingIndicesFrom_shift (n : Suggestion) (merged : list Suggestion) (k : nat) :
  overlappingIndicesFrom n merged (S k) = map S (overlappingIndicesFrom n merged k).
Proof.
  revert k; induction merged as [|e rest IH]; intros k; simpl; [reflexivity|].
  rewrite IH. destruct (_ && _); reflexivity.
Qed.

Lemma fold_splice_cons {A} (e : A) (indices : list nat) (arr : list A) :
  fold_left (fun a i => spliceOne i a) (map S indices) (e :: arr)
  = e :: fold_left (fun a i => spliceOne i a) indices arr.
Proof.
  revert arr; induction indices as [|i l IH]; intros arr; simpl; [reflexivity|].
  apply IH.
Qed.

(** Splicing the collected indices out, last first, removes exactly the
    displaced suggestions. *)
Lemma splice_overlapping_is_filter (n : Suggestion) (merged : list Suggestion) :
  fold_left (fun a i => spliceOne i a) (rev (overlappingIndicesFrom n merged 0)) merged
  = filter (fun e => negb (displaces n e)) merged.
Proof.
  induction merged as [|e rest IH]; [reflexivity|].
  simpl. rewrite overlappingIndicesFrom_shift. fold (displaces n e).
  destruct (displaces n e); simpl.
  - rewrite <- map_rev, fold_left_app, fold_splice_cons, IH. reflexivity.
  - rewrite <- map_rev, fold_splice_cons, IH. reflexivity.
Qed.

Lemma overlappingIndices_nonempty (n : Suggestion) (merged : list Suggestion) (k : nat) :
  (0 <? List.length (overlappingIndicesFrom n merged k))%nat = existsb (displaces n) merged.
Proof.
  revert k; induction merged as [|e rest IH]; intros k; simpl; [reflexivity|].
  fold (displaces n e). destruct (displaces n e); simpl; [reflexivity|apply IH].
Qed.

Lemma mergeOne_eq (merged : list Suggestion) (n : Suggestion) :
  mergeOne merged n
  = let kept := filter (fun e => negb (displaces n e)) merged in
    if existsb (displaces n) merged || negb (existsb (blocks n) kept)
    then kept ++ [n] else kept.
Proof.
  unfold mergeOne. rewrite splice_overlapping_is_filter, overlappingIndices_nonempty.
  reflexivity.
Qed.

Lemma mergeOne_keeps (merged : list Suggestion) (n e : Suggestion) :
  In e merged -> displaces n e = false -> In e (mergeOne merged n).
Proof.
  intros Hin Hd. rewrite mergeOne_eq. cbv zeta.
  assert (In e (filter (fun e => negb (displaces n e)) merged))
    by (apply filter_In; rewrite Hd; auto).
  destruct (_ || _); [apply in_or_app; left|]; assumption.
Qed.

Lemma mergeOne_subset (merged : list Suggestion) (n x : Suggestion) :
  In x (mergeOne merged n) -> In x merged \/ x = n.
Proof.
  rewrite mergeOne_eq. cbv zeta. destruct (_ || _).
  - intros H. apply in_app_or in H as [H|[H|[]]]; [left|right; congruence].
    apply filter_In in H. tauto.
  - intros H. apply filter_In in H. tauto.
Qed.

(** A dictionary suggestion that overlaps a semantic one and displaces
    nothing is not added. *)
Lemma mergeOne_blocked (merged : list Suggestion) (d e : Suggestion) :
  getSuggestionSource d = typo ->
  In e merged -> getSuggestionSource e = openai -> overlaps d e = true ->
  (forall x, In x merged -> overlaps d x = true -> getSuggestionSource x = openai) ->
  mergeOne merged d = merged.
Proof.
  intros Hd He Hse Hov Hall. rewrite mergeOne_eq. cbv zeta.
  assert (Hnone : forall x, In x merged -> displaces d x = false).
  { intros x Hx. unfold displaces. destruct (overlaps d x) eqn:E; [|reflexivity].
    rewrite Hd, (Hall x Hx E). reflexivity. }
  assert (Hfilter : filter (fun x => negb (displaces d x)) merged = merged).
  { clear -Hnone. induction merged as [|x l IH]; simpl; [reflexivity|].
    rewrite (Hnone x) by (left; reflexivity). simpl. f_equal. apply IH.
    intros y Hy. apply Hnone. right. exact Hy. }
  rewrite Hfilter.
  assert (existsb (displaces d) merged = false) as ->.
  { destruct (existsb (displaces d) merged) eqn:E; [|reflexivity].
    apply existsb_exists in E as (x & Hx & Ex). rewrite (Hnone x Hx) in Ex. discriminate. }
  assert (existsb (blocks d) merged = true) as ->.
  { apply existsb_exists. exists e. split; [exact He|].
    unfold blocks. rewrite Hov, Hd, Hse. reflexivity. }
  reflexivity.
Qed.

Lemma merge_fold_blocked (e d : Suggestion) (incoming merged : list Suggestion) :
  getSuggestionSource e = openai -> getSuggestionSource d = typo -> overlaps d e = true ->
  In e merged -> ~ In d merged ->
  (forall x, In x merged -> overlaps d x = true -> getSuggestionSource x = openai) ->
  (forall n, In n incoming -> overlaps n e = true -> getSuggestionSource n = typo) ->
  (forall x, In x incoming -> x <> d -> overlaps d x = true -> getSuggestionSource x = openai) ->
  In e (fold_left mergeOne incoming merged) /\ ~ In d (fold_left mergeOne incoming merged).
Proof.
  intros Hse Hsd Hov. revert merged.
  induction incoming as [|n rest IH]; intros merged He Hd Hall Hinc Hother; simpl.
  - split; assumption.
  - assert (Hd' : ~ In d (mergeOne merged n)).
    { intros H. destruct (mergeOne_subset _ _ _ H) as [H1 | ->]; [exact (Hd H1)|].
      rewrite (mergeOne_blocked merged n e Hsd He Hse Hov Hall) in H. exact (Hd H). }
    apply IH.
    + apply mergeOne_keeps; [exact He|]. unfold displaces.
      destruct (overlaps n e) eqn:E; [|reflexivity].
      rewrite (Hinc n (or_introl eq_refl) E), Hse. reflexivity.
    + exact Hd'.
    + intros x Hx Hox. destruct (mergeOne_subset _ _ _ Hx) as [H1 | ->].
      * exact (Hall x H1 Hox).
      * apply (Hother n (or_introl eq_refl)); [|exact Hox].
        intros ->. exact (Hd' Hx).
    + intros m Hm. apply Hinc. right. exact Hm.
    + intros x Hx. apply Hother. right. exact Hx.
Qed.

(** C2 (corrected).  In a call of [mergeSuggestionsIntelligently] where an
    existing semantic suggestion [e] still reads its original at its span
    in the current text, every incoming suggestion that overlaps [e] is
    dictionary-sourced, and an incoming dictionary suggestion [d], not
    itself in the existing set, overlaps [e] and overlaps no other
    suggestion of the existing or incoming sets but semantic ones, the
    result holds [e] and does not hold [d]. *)
Theorem dictionary_blocked_by_valid_semantic
    (existing incoming : list Suggestion) (currentText : jsstring) (e d : Suggestion) :
  In e existing -> getSuggestionSource e = openai -> spanHolds currentText e ->
  In d incoming -> getSuggestionSource d = typo -> overlaps d e = true ->
  ~ In d existing ->
  (forall n, In n incoming -> overlaps n e = true -> getSuggestionSource n = typo) ->
  (forall x, In x (existing ++ incoming) -> x <> d -> overlaps d x = true ->
             getSuggestionSource x = openai) ->
  In e (mergeSuggestionsIntelligently existing incoming currentText)
  /\ ~ In d (mergeSuggestionsIntelligently existing incoming currentText).
Proof.
  intros He Hse Hvalid Hd Hsd Hov Hnot Hinc Hother.
  unfold mergeSuggestionsIntelligently. rewrite !stableSort_In.
  apply merge_fold_blocked; try assumption.
  - apply filter_In. split; [exact He|]. unfold isStillValid. apply streq_true_iff. exact Hvalid.
  - intros H. apply filter_In in H. tauto.
  - intros x Hx. apply filter_In in Hx as [Hx _]. apply Hother.
    + apply in_or_app. left. exact Hx.
    + intros ->. exact (Hnot Hx).
  - intros x Hx. apply Hother. apply in_or_app. right. exact Hx.
Qed.

Lemma dictionary_blocked_by_valid_semantic_witness :
  let e := sampleSuggestion "openai-1" 0 7 "The cat" in
  let d := sampleSuggestion "typo-2" 4 7 "cat" in
  In e (mergeSuggestionsIntelligently [e] [d] (js "The cat sat."))
  /\ ~ In d (mergeSuggestionsIntelligently [e] [d] (js "The cat sat.")).
Proof.
  intros e d.
  apply (dictionary_blocked_by_valid_semantic [e] [d] (js "The cat sat.") e d).
  - left. reflexivity.
  - vm_compute. reflexivity.
  - vm_compute. reflexivity.
  - left. reflexivity.
  - vm_compute. reflexivity.
  - vm_compute. reflexivity.
  - intros [H | []]. discriminate H.
  - intros n [<- | []] _. vm_compute. reflexivity.
  - intros x [<- | [<- | []]] Hne _.
    + vm_compute. reflexivity.
    + exfalso. apply Hne. reflexivity.
Defined.

(** The claim holds the semantic suggestion kept and the dictionary one
    dropped in every call; a semantic suggestion that the current text has
    left behind is filtered out first, and the dictionary suggestion enters. *)
Lemma stale_semantic_does_not_block :
  let e := sampleSuggestion "openai-1" 0 7 "Teh cat" in
  let d := sampleSuggestion "typo-2" 4 7 "cat" in
  getSuggestionSource e = openai /\ getSuggestionSource d = typo /\ overlaps d e = true
  /\ mergeSuggestionsIntelligently [e] [d] (js "The cat sat.") = [d]
  /\ ~ (In e (mergeSuggestionsIntelligently [e] [d] (js "The cat sat."))
        /\ ~ In d (mergeSuggestionsIntelligently [e] [d] (js "The cat sat."))).
Proof.
  intros e d.
  assert (H : mergeSuggestionsIntelligently [e] [d] (js "The cat sat.") = [d])
    by (vm_compute; reflexivity).
  rewrite H. repeat split; try (vm_compute; reflexivity).
  intros [_ Hd]. apply Hd. left. reflexivity.
Qed.

(** A dictionary suggestion that displaces another dictionary suggestion is
    added even though a semantic suggestion it overlaps stays in the set:
    the guard of the push is passed by [overlappingIndices.length > 0]
    alone. *)
Example dictionary_added_when_it_displaces :
  let e := sampleSuggestion "openai-1" 0 3 "The" in
  let t := sampleSuggestion "typo-1" 4 7 "cat" in
  let d := sampleSuggestion "typo-2" 2 5 "e c" in
  mergeSuggestionsIntelligently [e; t] [d] (js "The cat sat.") = [e; d].
Proof.
  vm_compute. reflexivity.
Qed.

(** ** The span invariant along the operations *)

Lemma toInteger_comp (a b : Q) : (a == b)%Q -> toInteger a = toInteger b.
Proof.
  destruct a as [na da], b as [nb db]. unfold Qeq, toInteger. simpl. intros H.
  rewrite <- (Z.quot_mul_cancel_r na (Z.pos da) (Z.pos db)) by lia.
  rewrite <- (Z.quot_mul_cancel_r nb (Z.pos db) (Z.pos da)) by lia.
  rewrite H. f_equal. lia.
Qed.

Lemma substring_comp (text : jsstring) (a a' b b' : Q) :
  (a == a')%Q -> (b == b')%Q -> substring text a b = substring text a' b'.
Proof.
  intros Ha Hb. unfold substring. rewrite (toInteger_comp _ _ Ha), (toInteger_comp _ _ Hb).
  reflexivity.
Qed.

Lemma substring_at_occurrence (text search : jsstring) (p : Z) :
  occursAt text search p ->
  substring text (inject_Z p) (inject_Z (p + len search)) = search.
Proof.
  intros (_ & _ & H). unfold substring. rewrite !toInteger_inject_Z. exact H.
Qed.

(** What the search loop has visited, when it is left, are occurrences; it
    has visited none only if there is none. *)
Lemma searchLoop_sound (text search : jsstring) (fuel : nat) :
  forall (i : Z) (l : list Z),
    (i = -1 \/ occursAt text search i) ->
    searchLoop fuel text search i = Some l ->
    Forall (occursAt text search) l /\ (l = [] -> i = -1).
Proof.
  induction fuel as [|fuel IH]; intros i l Hi; simpl.
  - destruct (Z.eqb_spec i (-1)) as [->|Hne]; [|discriminate].
    intros H. injection H as <-. split; [constructor|reflexivity].
  - destruct (Z.eqb_spec i (-1)) as [->|Hne].
    + intros H. injection H as <-. split; [constructor|reflexivity].
    + destruct Hi as [Hi|Hocc]; [contradiction|].
      destruct (searchLoop fuel text search (indexOf text search (i + 1))) as [rest|] eqn:E;
        [|discriminate].
      intros H. injection H as <-.
      assert (Hnext : indexOf text search (i + 1) = -1
                      \/ occursAt text search (indexOf text search (i + 1))).
      { destruct (Z.eq_dec (indexOf text search (i + 1)) (-1)) as [E1|E1]; [left; exact E1|].
        right. apply (indexOf_found _ _ _ _ eq_refl E1). }
      destruct (IH _ _ Hnext E) as [Hall _].
      split; [constructor; assumption|discriminate].
Qed.

Lemma searchIndices_sound (text search : jsstring) (l : list Z) :
  searchIndices text search = Some l ->
  Forall (occursAt text search) l /\ (l = [] -> forall k, ~ occursAt text search k).
Proof.
  unfold searchIndices. intros H.
  assert (Hi : indexOf text search 0 = -1 \/ occursAt text search (indexOf text search 0)).
  { destruct (Z.eq_dec (indexOf text search 0) (-1)) as [E|E]; [left; exact E|right].
    apply (indexOf_found _ _ _ _ eq_refl E). }
  destruct (searchLoop_sound _ _ _ _ _ Hi H) as [Hall Hnil].
  split; [exact Hall|]. intros -> k Hocc.
  pose proof Hocc as (H0 & _).
  apply (indexOf_none _ _ _ k (Hnil eq_refl)); [|exact Hocc].
  unfold clampIndex. pose proof (len_nonneg text). lia.
Qed.

Lemma contextMatchAt_span (text searchText : jsstring) (cb ca : option jsstring)
    (p : Z) (m : ContextMatch) :
  contextMatchAt text searchText cb ca p = Some m ->
  c_start m = p /\ c_end m = p + len searchText.
Proof.
  unfold contextMatchAt.
  destruct (contextGiven cb) as [b|]; [destruct (includes _ b)|];
    (destruct (contextGiven ca) as [a|]; [destruct (includes _ a)|]);
    intros H; try discriminate; injection H as <-; split; reflexivity.
Qed.

Lemma fold_left_choice_In {A} (f : A -> A -> A) (rest : list A) (first : A) :
  (forall a b, f a b = a \/ f a b = b) ->
  In (fold_left f rest first) (first :: rest).
Proof.
  intros Hf. revert first; induction rest as [|c rest IH]; intros first.
  - left. reflexivity.
  - change (fold_left f (c :: rest) first) with (fold_left f rest (f first c)).
    destruct (IH (f first c)) as [H|H].
    + rewrite <- H. destruct (Hf first c) as [-> | ->]; [left|right; left]; reflexivity.
    + right. right. exact H.
Qed.

Lemma closestTo_In (startPos : Q) (rest : list Z) (first : Z) :
  In (closestTo startPos first rest) (first :: rest).
Proof.
  unfold closestTo. apply fold_left_choice_In.
  intros a b. destruct (Qlt_bool _ _); auto.
Qed.

(** The three ways [findExactTextPosition] answers: the verified hint, an
    exact occurrence, or (there being no occurrence) what the fuzzy search
    gives. *)
Lemma findExactTextPosition_cases
    (text searchText : jsstring) (startPos endPos : Q) (cb ca : option jsstring) (r : Located) :
  findExactTextPosition text searchText startPos endPos cb ca = Some r ->
  (r = mkLocated startPos endPos true
   /\ (0 <= startPos)%Q /\ (startPos < endPos)%Q /\ (endPos <= inject_Z (len text))%Q
   /\ substring text startPos endPos = searchText)
  \/ (exists p, occursAt text searchText p
                /\ r = mkLocated (inject_Z p) (inject_Z (p + len searchText)) true)
  \/ ((forall k, ~ occursAt text searchText k)
      /\ r = match findFuzzyMatches text searchText startPos with
             | m :: _ => mkLocated (f_start m) (f_end m) true
             | [] => mkLocated startPos endPos false
             end).
Proof.
  unfold findExactTextPosition.
  destruct (Qle_bool 0 startPos && Qle_bool endPos (inject_Z (len text))
            && Qlt_bool startPos endPos && streq (substring text startPos endPos) searchText)
    eqn:Ehint.
  - intros H. injection H as <-. left.
    apply andb_true_iff in Ehint as [Ehint H4]. apply andb_true_iff in Ehint as [Ehint H3].
    apply andb_true_iff in Ehint as [H1 H2].
    apply Qle_bool_iff in H1. apply Qle_bool_iff in H2. apply Qlt_bool_iff in H3.
    apply streq_true_iff in H4. repeat split; assumption.
  - clear Ehint.
    destruct (searchIndices text searchText) as [indices|] eqn:Eidx.
    2:{ unfold findWithContext. rewrite Eidx.
        destruct (truthy cb || truthy ca); discriminate. }
    destruct (searchIndices_sound _ _ _ Eidx) as [Hall Hnil].
    assert (Hafter : forall r0,
      match indices with
      | [] => match findFuzzyMatches text searchText startPos with
              | m :: _ => Some (mkLocated (f_start m) (f_end m) true)
              | [] => Some (mkLocated startPos endPos false)
              end
      | [p] => Some (mkLocated (inject_Z p) (inject_Z (p + len searchText)) true)
      | p :: (_ :: _) as rest =>
          Some (mkLocated (inject_Z (closestTo startPos p rest))
                          (inject_Z (closestTo startPos p rest + len searchText)) true)
      end = Some r0 ->
      (exists p, occursAt text searchText p
                 /\ r0 = mkLocated (inject_Z p) (inject_Z (p + len searchText)) true)
      \/ ((forall k, ~ occursAt text searchText k)
          /\ r0 = match findFuzzyMatches text searchText startPos with
                  | m :: _ => mkLocated (f_start m) (f_end m) true
                  | [] => mkLocated startPos endPos false
                  end)).
    { intros r0. destruct indices as [|p [|q rest]].
      - intros H. right. split; [apply Hnil; reflexivity|].
        destruct (findFuzzyMatches text searchText startPos); injection H as <-; reflexivity.
      - intros H. injection H as <-. left. exists p. split; [|reflexivity].
        inversion Hall. assumption.
      - intros H. injection H as <-. left. exists (closestTo startPos p (q :: rest)).
        split; [|reflexivity].
        rewrite Forall_forall in Hall. apply Hall. apply closestTo_In. }
    destruct (truthy cb || truthy ca).
    + unfold findWithContext. rewrite Eidx.
      destruct (stableSort _ _) as [|m ms] eqn:Esort.
      * intros H. right. apply Hafter. exact H.
      * intros H. injection H as <-. right. left.
        assert (Hm : In m (m :: ms)) by (left; reflexivity).
        rewrite <- Esort in Hm. apply stableSort_In in Hm. apply collectSome_In in Hm.
        apply in_map_iff in Hm as (p & Hp & Hin).
        apply contextMatchAt_span in Hp as [-> ->].
        exists p. split; [|reflexivity]. rewrite Forall_forall in Hall. apply Hall. exact Hin.
    + intros H. right. apply Hafter. exact H.
Qed.

(** The invariant as the operations keep it: a suggestion whose original
    occurs somewhere in the text reads it at its span. *)
Definition liveSpan (text : jsstring) (s : Suggestion) : Prop :=
  (exists k, occursAt text (original s) k) -> spanHolds text s.

Definition liveInvariant (st : State) : Prop :=
  forall s, In s (suggestions st) -> liveSpan (value st) s.

Lemma relocate_liveSpan (text : jsstring) (s s' : Suggestion) :
  relocate text s = Some (Some s') -> liveSpan text s'.
Proof.
  unfold relocate, locate. 
  destruct (findExactTextPosition text (original s) (start (position s)) (end_ (position s))
              (contextBefore s) (contextAfter s)) as [r|] eqn:E; simpl; [|discriminate].
  intros H Hocc.
  assert (Hr : found r = true -> substring text (l_start r) (l_end r) = original s
                                 /\ original s' = original s).
  { intros Hf. split.
    - destruct (findExactTextPosition_cases _ _ _ _ _ _ _ E)
        as [(-> & _ & _ & _ & Hsub) | [(p & Hp & ->) | (Hno & _)]].
      + exact Hsub.
      + apply substring_at_occurrence. exact Hp.
      + exfalso. destruct (found r); [|discriminate].
        destruct (Qneq_bool _ _ || Qneq_bool _ _); injection H as <-;
          destruct Hocc as [k Hk]; exact (Hno k Hk).
    - destruct (found r); [|discriminate].
      destruct (Qneq_bool _ _ || Qneq_bool _ _); injection H as <-; reflexivity. }
  destruct (found r); [|discriminate]. destruct (Hr eq_refl) as [Hsub Horig].
  unfold spanHolds. rewrite Horig.
  destruct (Qneq_bool (l_start r) (start (position s))
            || Qneq_bool (l_end r) (end_ (position s))) eqn:En; injection H as <-.
  - exact Hsub.
  - apply orb_false_iff in En as [E1 E2]. unfold Qneq_bool in *.
    apply negb_false_iff in E1, E2. apply Qeq_bool_iff in E1, E2.
    rewrite <- (substring_comp text _ _ _ _ E1 E2). exact Hsub.
Qed.

Lemma mapM_In {A B} (f : A -> option B) (l : list A) (l' : list B) (y : B) :
  mapM f l = Some l' -> In y l' -> exists x, In x l /\ f x = Some y.
Proof.
  revert l'; induction l as [|x l IH]; intros l'; simpl.
  - intros H. injection H as <-. intros [].
  - destruct (f x) as [b|] eqn:E; simpl; [|discriminate].
    destruct (mapM f l) as [bs|]; simpl; [|discriminate].
    intros H. injection H as <-. intros [<- | Hy].
    + exists x. split; [left; reflexivity|exact E].
    + destruct (IH bs eq_refl Hy) as (x' & Hx' & Ex'). exists x'. split; [right|]; assumption.
Qed.

(** Whatever the suggestions and the change were, those that
    [updateSuggestionPositions] keeps satisfy the invariant in the new text. *)
Lemma repositioned_liveSpan (suggestions updated : list Suggestion)
    (oldText newText : jsstring) (changeStart : Z) :
  repositioned suggestions oldText newText changeStart = Some updated ->
  forall s, In s updated -> liveSpan newText s.
Proof.
  unfold repositioned.
  destruct (mapM (relocate newText) _) as [relocated|] eqn:E; simpl; [|discriminate].
  intros H. injection H as <-. intros s Hs.
  apply collectSome_In in Hs.
  destruct (mapM_In _ _ _ _ E Hs) as (x & _ & Hx).
  exact (relocate_liveSpan _ _ _ Hx).
Qed.

Lemma fold_mergeOne_subset (incoming merged : list Suggestion) (x : Suggestion) :
  In x (fold_left mergeOne incoming merged) -> In x merged \/ In x incoming.
Proof.
  revert merged; induction incoming as [|n rest IH]; intros merged; simpl; [auto|].
  intros H. destruct (IH _ H) as [H1 | H1]; [|auto].
  destruct (mergeOne_subset _ _ _ H1) as [H2 | ->]; auto.
Qed.

(** The existing suggestions that a merge keeps read their original; the
    incoming ones are taken as they come. *)
Lemma merge_members (existing incoming : list Suggestion) (currentText : jsstring)
    (s : Suggestion) :
  In s (mergeSuggestionsIntelligently existing incoming currentText) ->
  (In s existing /\ spanHolds currentText s) \/ In s incoming.
Proof.
  unfold mergeSuggestionsIntelligently. rewrite stableSort_In. intros H.
  destruct (fold_mergeOne_subset _ _ _ H) as [H1 | H1]; [left|right; exact H1].
  apply filter_In in H1 as [H1 H2]. split; [exact H1|].
  apply streq_true_iff. exact H2.
Qed.

(** The incoming suggestions of every merge of the run satisfy the
    invariant against the text they are merged into. *)
Fixpoint incomingVerified (st : State) (ops : list Operation) : Prop :=
  match ops with
  | [] => True
  | op :: rest =>
      match op with
      | Merge incoming => Forall (liveSpan (value st)) incoming
      | _ => True
      end
      /\ match perform st op with
         | Some st1 => incomingVerified st1 rest
         | None => True
         end
  end.

Lemma perform_liveInvariant (st st1 : State) (op : Operation) :
  liveInvariant st ->
  match op with Merge incoming => Forall (liveSpan (value st)) incoming | _ => True end ->
  perform st op = Some st1 -> liveInvariant st1.
Proof.
  intros Hinv Hinc. destruct op as [newValue | incoming | newText changeStart]; simpl.
  - unfold handleContentEditable. destruct (streq newValue (previousText st)).
    + intros H. injection H as <-. exact Hinv.
    + destruct (updateSuggestionPositions _ _ _ _) as [st0|] eqn:E; simpl; [|discriminate].
      apply updateSuggestionPositions_suggestions in E.
      intros H. injection H as <-.
      destruct (len (trim newValue) =? 0); intros s Hs; simpl in Hs; [contradiction|].
      simpl. exact (repositioned_liveSpan _ _ _ _ _ E s Hs).
  - intros H. injection H as <-. intros s Hs. simpl in *.
    destruct (merge_members _ _ _ _ Hs) as [[_ Hvalid] | Hin].
    + intros _. exact Hvalid.
    + rewrite Forall_forall in Hinc. exact (Hinc s Hin).
  - destruct (updateSuggestionPositions _ _ _ _) as [st0|] eqn:E; simpl; [|discriminate].
    apply updateSuggestionPositions_suggestions in E.
    intros H. injection H as <-. intros s Hs. simpl in *.
    exact (repositioned_liveSpan _ _ _ _ _ E s Hs).
Qed.

Lemma performAll_liveInvariant (ops : list Operation) :
  forall st st',
    liveInvariant st -> incomingVerified st ops ->
    performAll st ops = Some st' -> liveInvariant st'.
Proof.
  induction ops as [|op rest IH]; intros st st' Hinv Hver; simpl.
  - intros H. injection H as <-. exact Hinv.
  - destruct Hver as [Hinc Hrest].
    destruct (perform st op) as [st1|] eqn:E; simpl; [|discriminate].
    apply (IH st1 st'); [|exact Hrest].
    exact (perform_liveInvariant st st1 op Hinv Hinc E).
Qed.

(** The claim has every surviving suggestion read its original.  After the
    edit of ["a quick fox"] into ["a Quick fox"] the suggestion for ["quick"]
    survives through the fuzzy search, at the span from 2 to 9.5, where the
    text is ["Quick f"]. *)
Lemma fuzzy_survivor_breaks_span_invariant :
  let s := sampleSuggestion "typo-1" 2 7 "quick" in
  let st := sampleState "a quick fox" [s] in
  let s' := withPosition s 2 (19 # 2) in
  spanHolds (value st) s
  /\ performAll st [Edit (js "a Quick fox")]
     = Some (mkState (js "a Quick fox") (js "a Quick fox") [s'] None false None true [])
  /\ substring (js "a Quick fox") (start (position s')) (end_ (position s')) = js "Quick f"
  /\ ~ spanHolds (js "a Quick fox") s'.
Proof.
  vm_compute. repeat split. discriminate.
Qed.

(** A merge takes the incoming suggestions without reading the text at
    their spans. *)
Example merge_takes_incoming_unverified :
  let d := sampleSuggestion "typo-1" 0 3 "Teh" in
  mergeSuggestionsIntelligently [] [d] (js "The cat sat.") = [d]
  /\ ~ spanHolds (js "The cat sat.") d.
Proof.
  vm_compute. split; [reflexivity|discriminate].
Qed.

(** ** Bounds of the located span *)

(** No capital I with dot above in the string. *)
Definition dotFree (s : jsstring) : Prop := Forall (fun c => c <> 304%N) s.

Lemma pointOf_pair (lead trail : codeUnit) : (0x10000 <= pointOf (surrogatePair lead trail))%N.
Proof. unfold pointOf. lia. Qed.

(** But for U+0130, a code point gives as many code units in lower case as
    it has. *)
Lemma lowerScalars_length (l : list Scalar) :
  Forall (fun x => pointOf x <> 304%N) l ->
  forall afterCased,
    List.length (lowerScalars afterCased l) = List.length (flat_map unitsOf l).
Proof.
  induction 1 as [|x l Hx _ IH]; intros afterCased; [reflexivity|].
  cbn [lowerScalars flat_map]. cbv zeta. rewrite !length_app, IH. f_equal.
  destruct (N.eqb_spec (pointOf x) 0x03A3) as [Hs|_].
  - destruct x as [c|lead trail]; [reflexivity|].
    pose proof (pointOf_pair lead trail). lia.
  - destruct (N.eqb_spec (pointOf x) 0x0130) as [Hd|_]; [contradiction|].
    destruct x; reflexivity.
Qed.

Lemma codePoints_spec (s : jsstring) :
  (flat_map unitsOf (codePoints s) = s
   /\ Forall (fun x => exists c, In c s /\ (x = single c \/ (0x10000 <= pointOf x)%N))
             (codePoints s))
  /\ forall c, flat_map unitsOf (codePoints (c :: s)) = c :: s
               /\ Forall (fun x => exists d, In d (c :: s)
                                             /\ (x = single d \/ (0x10000 <= pointOf x)%N))
                         (codePoints (c :: s)).
Proof.
  induction s as [|d s [[IHs IHsF] IHc]].
  - split; [split; [reflexivity|constructor]|]. intros c. split; [reflexivity|].
    constructor; [|constructor]. exists c. split; [left; reflexivity|left; reflexivity].
  - split; [exact (IHc d)|]. intros c.
    change (codePoints (c :: d :: s))
      with (if isLeadSurrogate c && isTrailSurrogate d
            then surrogatePair c d :: codePoints s
            else single c :: codePoints (d :: s)).
    destruct (isLeadSurrogate c && isTrailSurrogate d).
    + split.
      * cbn [flat_map unitsOf app]. rewrite IHs. reflexivity.
      * constructor.
        -- exists c. split; [left; reflexivity|right; apply pointOf_pair].
        -- eapply Forall_impl; [|exact IHsF]. intros x (e & He & Hx).
           exists e. split; [right; right; exact He|exact Hx].
    + destruct (IHc d) as [Hu HF]. split.
      * cbn [flat_map unitsOf app]. rewrite Hu. reflexivity.
      * constructor.
        -- exists c. split; [left; reflexivity|left; reflexivity].
        -- eapply Forall_impl; [|exact HF]. intros x (e & He & Hx).
           exists e. split; [right; exact He|exact Hx].
Qed.

Lemma toLowerCase_length (s : jsstring) : dotFree s -> len (toLowerCase s) = len s.
Proof.
  intros Hdot. unfold len, toLowerCase.
  destruct (codePoints_spec s) as [[Hunits Hall] _].
  rewrite lowerScalars_length, Hunits; [reflexivity|].
  eapply Forall_impl; [|exact Hall]. intros x (c & Hc & [-> | Hx]).
  - simpl. unfold dotFree in Hdot. rewrite Forall_forall in Hdot. exact (Hdot c Hc).
  - lia.
Qed.

Lemma In_firstn {A} (n : nat) (l : list A) (x : A) : In x (firstn n l) -> In x l.
Proof.
  revert l; induction n as [|n IH]; intros [|y l]; simpl; try tauto.
  intros [H|H]; [left; exact H|right; apply IH; exact H].
Qed.

Lemma In_skipn {A} (n : nat) (l : list A) (x : A) : In x (skipn n l) -> In x l.
Proof.
  revert l; induction n as [|n IH]; intros [|y l]; simpl; try tauto.
  intros H. right. apply IH. exact H.
Qed.

Lemma dotFree_substringZ (text : jsstring) (a b : Z) :
  dotFree text -> dotFree (substringZ text a b).
Proof.
  unfold dotFree, substringZ. rewrite !Forall_forall. intros H c Hc.
  apply H. eapply In_skipn. eapply In_firstn. exact Hc.
Qed.

Lemma Math_max_cases (a b : Q) :
  ((a <= b)%Q /\ Math_max a b = b) \/ ((b < a)%Q /\ Math_max a b = a).
Proof.
  unfold Math_max. destruct (Qle_bool a b) eqn:E.
  - left. split; [apply Qle_bool_iff; exact E|reflexivity].
  - right. split; [apply Qle_bool_false_iff; exact E|reflexivity].
Qed.

Lemma Math_min_cases (a b : Q) :
  ((a <= b)%Q /\ Math_min a b = a) \/ ((b < a)%Q /\ Math_min a b = b).
Proof.
  unfold Math_min. destruct (Qle_bool a b) eqn:E.
  - left. split; [apply Qle_bool_iff; exact E|reflexivity].
  - right. split; [apply Qle_bool_false_iff; exact E|reflexivity].
Qed.

Lemma includes_length (s w : jsstring) : includes s w = true -> len w <= len s.
Proof.
  unfold includes. intros H. apply Z.leb_le in H.
  destruct (indexOf_found s w 0 _ eq_refl ltac:(lia)) as [_ (H0 & Hle & _)]. lia.
Qed.

Lemma searchWordsOf_length (searchText w : jsstring) :
  In w (searchWordsOf searchText) -> 2 < len w.
Proof.
  unfold searchWordsOf. intros H. apply filter_In in H as [_ H]. apply Z.ltb_lt. exact H.
Qed.

(** A candidate that reaches the threshold holds at least one of the words
    searched for, so its text has three characters or more. *)
Lemma confident_slice_length (searchWords words : list jsstring) (i : Z) :
  (forall w, In w searchWords -> 2 < len w) ->
  Qle_bool (6 # 10) (confidenceAt searchWords words i) = true ->
  2 < len (windowSliceAt searchWords words i).
Proof.
  intros Hwords H. unfold confidenceAt in H.
  destruct (filter (fun searchWord => includes (windowSliceAt searchWords words i) searchWord)
                   searchWords) as [|w ws] eqn:E.
  - exfalso. apply Qle_bool_iff in H. simpl in H.
    unfold Qdiv, Qmult, Qle in H. simpl in H. lia.
  - assert (Hw : In w (filter (fun searchWord =>
                                 includes (windowSliceAt searchWords words i) searchWord)
                              searchWords)) by (rewrite E; left; reflexivity).
    apply filter_In in Hw as [Hin Hinc].
    pose proof (Hwords w Hin). pose proof (includes_length _ _ Hinc). lia.
Qed.

Lemma toInteger_bounds (q : Q) :
  (0 <= q)%Q -> (inject_Z (toInteger q) <= q)%Q /\ (q < inject_Z (toInteger q + 1))%Q.
Proof.
  intros H. rewrite toInteger_Qfloor by exact H. split; [apply Qfloor_le|apply Qlt_floor].
Qed.

Lemma toInteger_negative (q : Q) : (q < 0)%Q -> toInteger q <= 0.
Proof.
  destruct q as [n d]. unfold Qlt, toInteger. simpl. intros H.
  assert (Hn : 0 <= - n) by lia.
  pose proof (Z.quot_pos (- n) (Z.pos d) Hn ltac:(lia)) as Hq.
  rewrite Z.quot_opp_l in Hq by lia. lia.
Qed.

Lemma windowSizeOf_half_nonneg (text : jsstring) : (0 <= windowSizeOf text / 2)%Q.
Proof.
  unfold windowSizeOf. pose proof (len_nonneg text).
  assert (0 <= inject_Z (Z.min 500 (len text)))%Q by (apply inject_Z_nonneg; lia).
  apply Qle_shift_div_l; [reflexivity|lra].
Qed.

(** Where the fuzzy search can place a match in a text whose lower-casing
    keeps its length. *)
Lemma fuzzy_window_room (text : jsstring) (hintPos : Q) (sliceStart : Z) :
  dotFree text ->
  0 <= sliceStart -> sliceStart + 3 <= len (searchWindowOf text hintPos) ->
  (0 <= windowStartOf text hintPos + inject_Z sliceStart)%Q
  /\ (windowStartOf text hintPos + inject_Z sliceStart <= inject_Z (len text))%Q.
Proof.
  intros Hdot H0 Hroom.
  unfold searchWindowOf in Hroom.
  rewrite toLowerCase_length in Hroom by (apply dotFree_substringZ; exact Hdot).
  unfold substring in Hroom. rewrite substringZ_length in Hroom.
  pose proof (windowSizeOf_half_nonneg text) as Hh.
  pose proof (len_nonneg text) as HL.
  set (ws := windowStartOf text hintPos) in *.
  set (we := windowEndOf text hintPos) in *.
  assert (Hws0 : (0 <= ws)%Q).
  { unfold ws, windowStartOf.
    destruct (Math_max_cases 0 (hintPos - windowSizeOf text / 2)) as [[H ->] | [H ->]]; lra. }
  destruct (toInteger_bounds ws Hws0) as [Hlo Hhi].
  pose proof (toInteger_nonneg ws Hws0) as Htw0.
  assert (HsQ : (0 <= inject_Z sliceStart)%Q) by (apply inject_Z_nonneg; exact H0).
  split; [lra|].
  assert (Hwe : (we < 0)%Q /\ toInteger we <= 0
                \/ (0 <= we)%Q /\ (inject_Z (toInteger we) <= we)%Q
                   /\ (we < inject_Z (toInteger we + 1))%Q).
  { destruct (Qlt_le_dec we 0) as [Hneg|Hpos].
    - left. split; [exact Hneg|apply toInteger_negative; exact Hneg].
    - right. split; [exact Hpos|apply toInteger_bounds; exact Hpos]. }
  assert (HwsDef : (0 <= hintPos - windowSizeOf text / 2)%Q /\ ws = (hintPos - windowSizeOf text / 2)%Q
                   \/ ws = 0%Q).
  { unfold ws, windowStartOf.
    destruct (Math_max_cases 0 (hintPos - windowSizeOf text / 2)) as [[H ->] | [H ->]];
      [left; split; [exact H|reflexivity] | right; reflexivity]. }
  assert (HweDef : we = inject_Z (len text)
                   \/ we = (hintPos + windowSizeOf text / 2)%Q).
  { unfold we, windowEndOf.
    destruct (Math_min_cases (inject_Z (len text)) (hintPos + windowSizeOf text / 2))
      as [[H ->] | [H ->]]; [left|right]; reflexivity. }
  assert (Hkey : toInteger ws + 1 + sliceStart <= len text).
  { unfold clampIndex in Hroom.
    destruct (Z_lt_le_dec (toInteger ws) (len text)) as [Hin|Hout].
    - destruct (Z_lt_le_dec (Z.min (Z.max (toInteger we) 0) (len text)) (toInteger ws))
        as [Hswap|Hord]; [|lia].
      exfalso.
      assert (Hte : toInteger we < toInteger ws) by lia.
      assert (Htw1 : 1 <= toInteger ws) by lia.
      assert (Hlt : (we < ws)%Q).
      { destruct Hwe as [[Hneg _] | (_ & _ & Hup)].
        - apply Qlt_le_trans with 0%Q; [exact Hneg|exact Hws0].
        - apply Qlt_le_trans with (inject_Z (toInteger we + 1)); [exact Hup|].
          apply Qle_trans with (inject_Z (toInteger ws)); [|exact Hlo].
          rewrite <- Zle_Qle. lia. }
      assert (Hpos : (0 < ws)%Q).
      { apply Qlt_le_trans with (inject_Z (toInteger ws)); [|exact Hlo].
        change 0%Q with (inject_Z 0). rewrite <- Zlt_Qlt. lia. }
      assert (HwsL : (ws < inject_Z (len text))%Q).
      { apply Qlt_le_trans with (inject_Z (toInteger ws + 1)); [exact Hhi|].
        rewrite <- Zle_Qle. lia. }
      destruct HwsDef as [[_ E1] | E1]; [|rewrite E1 in Hpos; lra].
      destruct HweDef as [E2 | E2]; rewrite E1, E2 in *; lra.
    - exfalso.
      assert (Hte : Z.min (Z.max (toInteger we) 0) (len text) + 3 <= len text) by lia.
      assert (HwsL : (inject_Z (len text) <= ws)%Q).
      { apply Qle_trans with (inject_Z (toInteger ws)); [|exact Hlo].
        rewrite <- Zle_Qle. exact Hout. }
      assert (Hlt : (we < inject_Z (len text))%Q).
      { destruct Hwe as [[Hneg _] | (_ & _ & Hup)].
        - apply Qlt_le_trans with 0%Q; [exact Hneg|]. apply inject_Z_nonneg. exact HL.
        - apply Qlt_le_trans with (inject_Z (toInteger we + 1)); [exact Hup|].
          rewrite <- Zle_Qle. lia. }
      assert (HLpos : (0 < inject_Z (len text))%Q).
      { change 0%Q with (inject_Z 0). rewrite <- Zlt_Qlt. lia. }
      destruct HwsDef as [[_ E1] | E1]; [|rewrite E1 in HwsL; lra].
      destruct HweDef as [E2 | E2]; rewrite E1, E2 in *; lra. }
  apply Qle_trans with (inject_Z (toInteger ws + 1) + inject_Z sliceStart)%Q; [lra|].
  rewrite <- inject_Z_plus, <- Zle_Qle. lia.
Qed.

Lemma findFuzzyMatches_bounds (text searchText : jsstring) (hintPos : Q) (m : FuzzyMatch) :
  dotFree text -> In m (findFuzzyMatches text searchText hintPos) ->
  (0 <= f_start m)%Q /\ (f_start m <= f_end m)%Q /\ (f_end m <= inject_Z (len text))%Q.
Proof.
  intros Hdot Hm. unfold findFuzzyMatches in Hm.
  destruct (searchWordsOf searchText) as [|w0 ws0] eqn:Ew; [destruct Hm|].
  rewrite <- Ew in Hm.
  apply In_firstn, stableSort_In, collectSome_In, in_map_iff in Hm.
  destruct Hm as (i & Hi & _). unfold fuzzyMatchAt in Hi.
  destruct (Qle_bool (6 # 10) (confidenceAt _ _ _)) eqn:Hc; [|discriminate].
  destruct (Z.eqb_spec (indexOf (searchWindowOf text hintPos)
                          (windowSliceAt (searchWordsOf searchText)
                             (split_ws (searchWindowOf text hintPos)) (Z.of_nat i)) 0) (-1))
    as [E|E]; [discriminate|].
  simpl in Hi. injection Hi as <-. simpl.
  destruct (indexOf_found _ _ _ _ eq_refl E) as [_ (H0 & Hle & _)].
  pose proof (confident_slice_length _ _ _ (searchWordsOf_length searchText) Hc) as Hlen.
  destruct (fuzzy_window_room text hintPos _ Hdot H0 ltac:(lia)) as [Hs0 HsL].
  pose proof (inject_Z_nonneg _ (len_nonneg searchText)) as Hk.
  split; [exact Hs0|].
  match goal with |- context [Math_min ?a ?b] =>
    destruct (Math_min_cases a b) as [[H ->] | [H ->]] end; split; lra.
Qed.

(** In a text that lower-casing leaves at its length (no U+0130), every
    span returned with [found = true] lies within the text. *)
Lemma located_span_in_bounds
    (text searchText : jsstring) (startPos endPos : Q) (cb ca : option jsstring) (r : Located) :
  dotFree text ->
  findExactTextPosition text searchText startPos endPos cb ca = Some r ->
  found r = true ->
  (0 <= l_start r)%Q /\ (l_start r <= l_end r)%Q /\ (l_end r <= inject_Z (len text))%Q.
Proof.
  intros Hdot Hr Hfound.
  destruct (findExactTextPosition_cases _ _ _ _ _ _ _ Hr)
    as [(-> & H0 & Hlt & Hle & _) | [(p & (Hp0 & Hple & _) & ->) | (_ & ->)]]; simpl.
  - repeat split; lra.
  - pose proof (len_nonneg searchText).
    repeat split; [apply inject_Z_nonneg; exact Hp0 | | ]; rewrite <- Zle_Qle; lia.
  - destruct (findFuzzyMatches text searchText startPos) as [|m ms] eqn:E.
    + discriminate.
    + simpl. apply (findFuzzyMatches_bounds text searchText startPos).
      * exact Hdot.
      * rewrite E. left. reflexivity.
Qed.

Lemma located_span_in_bounds_sample :
  let text := js "a Quick fox" in
  (0 <= 2)%Q /\ (2 <= 19 # 2)%Q /\ (19 # 2 <= inject_Z (len text))%Q.
Proof.
  intros text.
  apply (located_span_in_bounds text (js "quick") 2 7 None None (mkLocated 2 (19 # 2) true)).
  - repeat constructor; discriminate.
  - vm_compute. reflexivity.
  - reflexivity.
Defined.

(** ** The operations return *)

(** The only way not to return is to search for the empty string. *)
Lemma findExactTextPosition_returns
    (text searchText : jsstring) (startPos endPos : Q) (cb ca : option jsstring) :
  searchText <> [] ->
  exists r, findExactTextPosition text searchText startPos endPos cb ca = Some r.
Proof.
  intros Hne. unfold findExactTextPosition, findWithContext.
  destruct (searchIndices_spec text searchText Hne) as (l & -> & _ & _).
  destruct (_ && _); [eexists; reflexivity|].
  destruct (truthy cb || truthy ca).
  - destruct (stableSort _ _); [|eexists; reflexivity].
    destruct l as [|p [|q rest]]; [|eexists; reflexivity..].
    destruct (findFuzzyMatches text searchText startPos); eexists; reflexivity.
  - destruct l as [|p [|q rest]]; [|eexists; reflexivity..].
    destruct (findFuzzyMatches text searchText startPos); eexists; reflexivity.
Qed.

Definition hasOriginal (s : Suggestion) : Prop := original s <> [].

Lemma relocate_returns (text : jsstring) (s : Suggestion) :
  hasOriginal s ->
  exists o, relocate text s = Some o /\ forall s', o = Some s' -> hasOriginal s'.
Proof.
  intros Hs. unfold relocate, locate.
  destruct (findExactTextPosition_returns text (original s) (start (position s))
              (end_ (position s)) (contextBefore s) (contextAfter s) Hs) as [r ->].
  simpl. eexists. split; [reflexivity|].
  intros s'. destruct (found r); [|discriminate].
  destruct (_ || _); intros H; injection H as <-; exact Hs.
Qed.

Lemma mapM_relocate_returns (text : jsstring) (l : list Suggestion) :
  Forall hasOriginal l ->
  exists l', mapM (relocate text) l = Some l' /\ Forall hasOriginal (collectSome l').
Proof.
  induction 1 as [|s l Hs _ (l' & IH1 & IH2)]; simpl.
  - exists []. split; [reflexivity|constructor].
  - destruct (relocate_returns text s Hs) as (o & -> & Ho). rewrite IH1. simpl.
    eexists. split; [reflexivity|].
    destruct o as [s'|]; simpl; [constructor; [apply Ho; reflexivity|exact IH2]|exact IH2].
Qed.

Lemma repositioned_returns (suggestions : list Suggestion) (oldText newText : jsstring)
    (changeStart : Z) :
  Forall hasOriginal suggestions ->
  exists updated, repositioned suggestions oldText newText changeStart = Some updated
                  /\ Forall hasOriginal updated.
Proof.
  intros H. unfold repositioned.
  assert (Hshift : Forall hasOriginal
            (collectSome (map (coarseShift changeStart (lengthDifference oldText newText))
                              suggestions))).
  { apply (collectSome_Forall hasOriginal); [|exact H].
    intros s s' Hs. unfold coarseShift.
    destruct (Qle_bool _ _); [intros E; injection E as <-; exact Hs|].
    destruct (Qlt_bool _ _); [discriminate|]. intros E; injection E as <-; exact Hs. }
  destruct (mapM_relocate_returns newText _ Hshift) as (l' & -> & Hl').
  simpl. eexists. split; [reflexivity|exact Hl'].
Qed.

Definition originalsNotEmpty (st : State) : Prop := Forall hasOriginal (suggestions st).

Lemma perform_returns (st : State) (op : Operation) :
  originalsNotEmpty st ->
  match op with Merge incoming => Forall hasOriginal incoming | _ => True end ->
  exists st1, perform st op = Some st1 /\ originalsNotEmpty st1.
Proof.
  intros Hst Hinc. unfold originalsNotEmpty in *.
  destruct op as [newValue | incoming | newText changeStart]; simpl.
  - unfold handleContentEditable. destruct (streq newValue (previousText st)).
    + exists st. split; [reflexivity|exact Hst].
    + destruct (repositioned_returns (suggestions st) (previousText st) newValue
                  (computeChangeStart (previousText st) newValue) Hst) as (updated & Hu & Hall).
      destruct (updateSuggestionPositions_returns (setIsTyping st true) _ _ _ _ Hu)
        as (st0 & -> & E0).
      simpl. eexists. split; [reflexivity|].
      destruct (len (trim newValue) =? 0); simpl; [constructor|]. rewrite E0. exact Hall.
  - eexists. split; [reflexivity|]. simpl. apply Forall_forall. intros s Hs.
    rewrite Forall_forall in Hst, Hinc.
    destruct (merge_members _ _ _ _ Hs) as [[H _] | H]; auto.
  - destruct (repositioned_returns (suggestions st) (value st) newText changeStart Hst)
      as (updated & Hu & Hall).
    destruct (updateSuggestionPositions_returns st _ _ _ _ Hu) as (st0 & -> & E0).
    simpl. eexists. split; [reflexivity|]. simpl. rewrite E0. exact Hall.
Qed.

(** Every run of operations on suggestions whose originals are not empty
    comes to an end. *)
Lemma performAll_returns (ops : list Operation) :
  forall st,
    originalsNotEmpty st ->
    Forall (fun op => match op with
                      | Merge incoming => Forall hasOriginal incoming
                      | _ => True
                      end) ops ->
    exists st', performAll st ops = Some st'.
Proof.
  induction ops as [|op rest IH]; intros st Hst Hops; simpl.
  - exists st. reflexivity.
  - inversion Hops as [|? ? Hop Hrest]; subst.
    destruct (perform_returns st op Hst Hop) as (st1 & -> & Hst1). simpl.
    exact (IH st1 Hst1 Hrest).
Qed.

Definition incomingNotEmpty (op : Operation) : Prop :=
  match op with
  | Merge incoming => Forall hasOriginal incoming
  | _ => True
  end.

(** C1 (corrected).  Along any sequence of edits, merges and
    repositionings in which the incoming suggestions of each merge satisfy
    it, the following invariant is kept: every live suggestion whose
    original occurs somewhere in the current text reads its original at its
    span.  (A suggestion whose original no longer occurs can be kept at the
    span the fuzzy search proposes, where the text is another.)  The run
    comes to an end whenever no original involved is the empty string. *)
Theorem span_invariant_for_occurring_originals (ops : list Operation) (st : State) :
  liveInvariant st -> incomingVerified st ops ->
  (forall st', performAll st ops = Some st' -> liveInvariant st')
  /\ (originalsNotEmpty st -> Forall incomingNotEmpty ops ->
      exists st', performAll st ops = Some st').
Proof.
  intros Hinv Hver. split.
  - intros st'. apply performAll_liveInvariant; assumption.
  - intros Hst Hops. apply performAll_returns; assumption.
Qed.

Lemma span_invariant_for_occurring_originals_witness :
  let st := sampleState "Teh cat sat" [sampleSuggestion "typo-1" 0 3 "Teh"] in
  let ops := [Edit (js "Teh cat sat!"); Merge [sampleSuggestion "typo-2" 4 7 "cat"]] in
  let st' := mkState (js "Teh cat sat!") (js "Teh cat sat!")
               [sampleSuggestion "typo-1" 0 3 "Teh"; sampleSuggestion "typo-2" 4 7 "cat"]
               None false None true [] in
  performAll st ops = Some st' /\ liveInvariant st'.
Proof.
  intros st ops st'.
  assert (Hrun : performAll st ops = Some st') by (vm_compute; reflexivity).
  split; [exact Hrun|].
  refine (proj1 (span_invariant_for_occurring_originals ops st _ _) st' Hrun).
  - intros s [<- | []] _. vm_compute. reflexivity.
  - simpl. split; [exact I|]. split; [|exact I].
    constructor; [|constructor]. intros _. vm_compute. reflexivity.
Defined.

(** ** Failure of the remote analysis *)

(** A network error or a response that is not 2xx. *)
Definition remoteFailure (response : FetchOutcome) : Prop :=
  match response with
  | NetworkFailure => True
  | HttpResponse ok _ _ => ok = false
  end.

Definition analysisFailedToast : Toast := mkToast destructive (js "Analysis failed").

Lemma readResponse_failure (response : FetchOutcome) :
  remoteFailure response -> readResponse response = Threw.
Proof.
  destruct response as [|ok status body]; simpl; [reflexivity|]. intros ->. reflexivity.
Qed.

Lemma analyzeTextManual_failure (st : State) (text : jsstring) (response : FetchOutcome) :
  20 <= len text -> remoteFailure response ->
  exists st', analyzeTextManual st text response = Some st'
              /\ toasts st' = toasts st ++ [analysisFailedToast]
              /\ suggestions st' = suggestions st.
Proof.
  intros Hlen Hfail. unfold analyzeTextManual, getContextualWindow.
  replace (len text <? 20) with false by (symmetry; apply Z.ltb_ge; exact Hlen).
  rewrite (readResponse_failure _ Hfail).
  eexists. split; [reflexivity|]. split; reflexivity.
Qed.

(** A handler of the render of the state it runs on is the handler taken
    above. *)
Lemma cleanupInvalidSuggestionsOf_same_render (st : State) (currentText : jsstring) :
  cleanupInvalidSuggestionsOf st st currentText = cleanupInvalidSuggestions st currentText.
Proof. reflexivity. Qed.

Lemma analyzeTextManualOf_same_render (st : State) (text : jsstring) (response : FetchOutcome) :
  analyzeTextManualOf st st text response = analyzeTextManual st text response.
Proof. reflexivity. Qed.

Lemma analyzeTextManualOf_failure (rendered st : State) (text : jsstring)
    (response : FetchOutcome) :
  20 <= len text -> remoteFailure response ->
  exists st', analyzeTextManualOf rendered st text response = Some st'
              /\ toasts st' = toasts st ++ [analysisFailedToast]
              /\ suggestions st' = suggestions st.
Proof.
  intros Hlen Hfail. unfold analyzeTextManualOf, getContextualWindow.
  replace (len text <? 20) with false by (symmetry; apply Z.ltb_ge; exact Hlen).
  rewrite (readResponse_failure _ Hfail).
  eexists. split; [reflexivity|]. split; reflexivity.
Qed.

Lemma cleanupInvalidSuggestionsOf_toasts (rendered st st1 : State) (currentText : jsstring) :
  cleanupInvalidSuggestionsOf rendered st currentText = Some st1 -> toasts st1 = toasts st.
Proof.
  unfold cleanupInvalidSuggestionsOf. destruct (suggestions rendered) as [|s l]; [congruence|].
  destruct (filterM _ _) as [valid|]; simpl; [|discriminate].
  destruct (_ <? _)%nat; [|congruence].
  destruct (selectedSuggestion rendered) as [sel|]; [destruct (existsb _ _)|];
    intros H; injection H as <-; reflexivity.
Qed.

Lemma filterM_survivesCleanup_returns (currentText : jsstring) (l : list Suggestion) :
  Forall hasOriginal l -> exists valid, filterM (survivesCleanup currentText) l = Some valid.
Proof.
  induction 1 as [|s l Hs _ (valid & IH)]; simpl; [eexists; reflexivity|].
  unfold survivesCleanup at 1, locate.
  destruct (findExactTextPosition_returns currentText (original s) (start (position s))
              (end_ (position s)) (contextBefore s) (contextAfter s) Hs) as [r ->].
  simpl. rewrite IH. simpl. eexists. reflexivity.
Qed.

Lemma cleanupInvalidSuggestionsOf_returns (rendered st : State) (currentText : jsstring) :
  originalsNotEmpty rendered ->
  exists st1, cleanupInvalidSuggestionsOf rendered st currentText = Some st1.
Proof.
  unfold originalsNotEmpty, cleanupInvalidSuggestionsOf. intros H.
  destruct (suggestions rendered) as [|s l] eqn:E; [eexists; reflexivity|].
  destruct (filterM_survivesCleanup_returns currentText (s :: l) H) as [valid ->]. simpl.
  destruct (_ <? _)%nat; [|eexists; reflexivity].
  destruct (selectedSuggestion rendered); [destruct (existsb _ _)|]; eexists; reflexivity.
Qed.

(** A failure of the remote analysis (a network error or a response that is
    not 2xx) raises the destructive toast "Analysis failed" on the manual
    action and on the 2-second timer alike, whatever the render the timer
    callback is of: the callback calls [analyzeOpenAIDelayed], which is
    [analyzeTextManual], and the [catch] of [analyzeTextManual] does not know
    who called.  (Texts under 20 characters are not sent at all.) *)
Lemma remote_failure_toast_on_both_paths
    (rendered st : State) (newValue : jsstring) (response : FetchOutcome) :
  remoteFailure response ->
  (20 <= len (value st) ->
   exists st', analyzeButtonClicked st response = Some st'
               /\ toasts st' = toasts st ++ [analysisFailedToast])
  /\ (20 <= len newValue -> originalsNotEmpty rendered ->
      exists st', typingTimeoutFired rendered st newValue response = Some st'
                  /\ toasts st' = toasts st ++ [analysisFailedToast]).
Proof.
  intros Hfail. split.
  - intros Hlen. unfold analyzeButtonClicked.
    destruct (analyzeTextManual_failure st (value st) response Hlen Hfail) as (st' & H1 & H2 & _).
    exists st'. split; assumption.
  - intros Hlen Hst. unfold typingTimeoutFired, analyzeOpenAIDelayed.
    destruct (cleanupInvalidSuggestionsOf_returns rendered (setIsTyping st false) newValue Hst)
      as [st1 Hclean].
    rewrite Hclean. simpl.
    destruct (analyzeTextManualOf_failure rendered st1 newValue response Hlen Hfail)
      as (st' & H1 & H2 & _).
    exists st'. split; [exact H1|]. rewrite H2.
    rewrite (cleanupInvalidSuggestionsOf_toasts _ _ _ _ Hclean). reflexivity.
Qed.

Lemma remote_failure_toast_on_both_paths_witness :
  let rendered := sampleState "Teh cat sat on the mat" [sampleSuggestion "typo-1" 0 3 "Teh"] in
  let st := sampleState "Teh cat sat on the mat." [sampleSuggestion "typo-1" 0 3 "Teh"] in
  exists st', typingTimeoutFired rendered st (value st) NetworkFailure = Some st'
              /\ toasts st' = toasts st ++ [analysisFailedToast].
Proof.
  intros rendered st.
  apply (proj2 (remote_failure_toast_on_both_paths rendered st (value st) NetworkFailure I)).
  - vm_compute. discriminate.
  - repeat constructor. discriminate.
Defined.

(** C9 (code defect).  The claim: a failure of the remote analysis is shown
    to the user only when the analysis was asked for by the analyze action,
    and is silent on the 2-second timer after typing.  The text
    ["Teh cat sat on the mat"] is rendered with one suggestion, for ["Teh"];
    a full stop is typed at its end; two seconds later the timer callback of
    [handleContentEditable] runs and the remote analyzer answers with status
    500.  The callback ends with the destructive toast "Analysis failed"
    shown, as the analyze button does on the same answer: [analyzeOpenAIDelayed]
    calls [analyzeTextManual], whose [catch] raises the toast for every
    caller. *)
Theorem debounced_failure_is_not_silent :
  let s := sampleSuggestion "typo-1" 0 3 "Teh" in
  let rendered := sampleState "Teh cat sat on the mat" [s] in
  let newValue := js "Teh cat sat on the mat." in
  let failure := HttpResponse false 500 Unparsable in
  exists typed,
    handleContentEditable rendered newValue = Some typed
    /\ toasts typed = []
    /\ typingTimeoutFired rendered typed newValue failure
       = Some (mkState newValue newValue [s] None false None false
                       [mkToast destructive (js "Analysis failed")])
    /\ option_map toasts (analyzeButtonClicked typed failure)
       = Some [mkToast destructive (js "Analysis failed")].
Proof.
  vm_compute. eexists. repeat split.
Qed.


(** * Further properties of the modelled code *)

(** ** PositionLocator: termination, exactness, choice among occurrences *)

(** The test of the first branch of [findExactTextPosition]. *)
Definition hintVerifies (text searchText : jsstring) (startPos endPos : Q) : bool :=
  Qle_bool 0 startPos && Qle_bool endPos (inject_Z (len text)) && Qlt_bool startPos endPos
  && streq (substring text startPos endPos) searchText.

Lemma indexOf_empty (text : jsstring) (from : Z) : indexOf text [] from = clampIndex text from.
Proof.
  unfold indexOf. destruct (skipn (Z.to_nat (clampIndex text from)) text); reflexivity.
Qed.

(** Searching for the empty string: [indexOf] never answers [-1], and the
    loop is not left. *)
Lemma searchLoop_empty (text : jsstring) (fuel : nat) :
  forall i, 0 <= i -> searchLoop fuel text [] i = None.
Proof.
  induction fuel as [|fuel IH]; intros i Hi; simpl;
    (destruct (Z.eqb_spec i (-1)) as [E|E]; [lia|]); [reflexivity|].
  rewrite IH; [reflexivity|].
  rewrite indexOf_empty. pose proof (clampIndex_range text (i + 1)). lia.
Qed.

Lemma searchIndices_empty (text : jsstring) : searchIndices text [] = None.
Proof.
  unfold searchIndices. apply searchLoop_empty.
  rewrite indexOf_empty. pose proof (clampIndex_range text 0). lia.
Qed.

(** X1.  [findExactTextPosition] returns exactly when the text searched for
    is not empty or the hint span verifies; with an empty [searchText] and a
    hint that does not verify, the [while (searchIndex !== -1)] loops of
    [findWithContext] and [findExactTextPosition] are never left. *)
Theorem findExactTextPosition_returns_iff
    (text searchText : jsstring) (startPos endPos : Q) (cb ca : option jsstring) :
  (exists r, findExactTextPosition text searchText startPos endPos cb ca = Some r)
  <-> (searchText <> [] \/ hintVerifies text searchText startPos endPos = true).
Proof.
  split.
  - intros [r Hr]. destruct searchText as [|c s]; [right|left; discriminate].
    unfold findExactTextPosition in Hr. fold (hintVerifies text [] startPos endPos) in Hr.
    destruct (hintVerifies text [] startPos endPos); [reflexivity|].
    unfold findWithContext in Hr. rewrite searchIndices_empty in Hr.
    destruct (truthy cb || truthy ca); discriminate.
  - intros [Hne | Hv].
    + apply findExactTextPosition_returns. exact Hne.
    + unfold findExactTextPosition. fold (hintVerifies text searchText startPos endPos).
      rewrite Hv. eexists. reflexivity.
Qed.

Example empty_original_never_located :
  findExactTextPosition (js "The cat sat.") [] 0 0 None None = None.
Proof. vm_compute. reflexivity. Qed.

(** X2.  Whenever a non-empty [searchText] occurs somewhere in the text,
    [findExactTextPosition] answers [found = true] with a span inside the
    text that reads [searchText] exactly, whatever the hint and the
    contexts: the hint span as it was given, whole numbers or not, when it
    verifies, and otherwise the span of an occurrence, which is of whole
    numbers.  Neither the fuzzy fallback nor [found = false] is reached. *)
Theorem occurring_text_is_located_exactly
    (text searchText : jsstring) (startPos endPos : Q) (cb ca : option jsstring) (k : Z) :
  searchText <> [] -> occursAt text searchText k ->
  exists r, findExactTextPosition text searchText startPos endPos cb ca = Some r
            /\ found r = true
            /\ substring text (l_start r) (l_end r) = searchText
            /\ (0 <= l_start r)%Q /\ (l_start r < l_end r)%Q
            /\ (l_end r <= inject_Z (len text))%Q
            /\ ((hintVerifies text searchText startPos endPos = true
                 /\ l_start r = startPos /\ l_end r = endPos)
                \/ (hintVerifies text searchText startPos endPos = false
                    /\ exists p, occursAt text searchText p
                                 /\ l_start r = inject_Z p
                                 /\ l_end r = inject_Z (p + len searchText))).
Proof.
  intros Hne Hocc.
  destruct (findExactTextPosition_returns text searchText startPos endPos cb ca Hne) as [r Hr].
  exists r. split; [exact Hr|].
  assert (Hlen : 0 < len searchText).
  { destruct searchText; [congruence|]. unfold len. simpl. lia. }
  destruct (hintVerifies text searchText startPos endPos) eqn:Ehint.
  - unfold findExactTextPosition in Hr. unfold hintVerifies in Ehint. rewrite Ehint in Hr.
    injection Hr as <-. simpl.
    apply andb_true_iff in Ehint as [Ehint Hsub]. apply andb_true_iff in Ehint as [Ehint Hlt].
    apply andb_true_iff in Ehint as [H0 Hle].
    apply Qle_bool_iff in H0, Hle. apply Qlt_bool_iff in Hlt. apply streq_true_iff in Hsub.
    repeat split; try assumption. left. repeat split.
  - destruct (findExactTextPosition_cases _ _ _ _ _ _ _ Hr)
      as [(-> & H0 & Hlt & Hle & Hsub) | [(p & Hp & ->) | (Hno & _)]]; simpl.
    + exfalso. unfold hintVerifies in Ehint.
      apply Qle_bool_iff in H0, Hle. apply Qlt_bool_iff in Hlt. apply streq_true_iff in Hsub.
      rewrite H0, Hle, Hlt, Hsub in Ehint. discriminate.
    + pose proof Hp as (Hp0 & Hple & _).
      split; [reflexivity|]. split; [apply substring_at_occurrence; exact Hp|].
      split; [apply inject_Z_nonneg; exact Hp0|].
      split; [rewrite <- Zlt_Qlt; lia|].
      split; [rewrite <- Zle_Qle; exact Hple|].
      right. split; [reflexivity|]. exists p. split; [exact Hp|]. split; reflexivity.
    + exfalso. exact (Hno k Hocc).
Qed.

Lemma occurring_text_is_located_exactly_witness :
  let text := js "I think you you should go." in
  exists r, findExactTextPosition text (js "you") 40 43 None None = Some r
            /\ found r = true
            /\ substring text (l_start r) (l_end r) = js "you"
            /\ (0 <= l_start r)%Q /\ (l_start r < l_end r)%Q
            /\ (l_end r <= inject_Z (len text))%Q
            /\ ((hintVerifies text (js "you") 40 43 = true
                 /\ l_start r = 40%Q /\ l_end r = 43%Q)
                \/ (hintVerifies text (js "you") 40 43 = false
                    /\ exists p, occursAt text (js "you") p
                                 /\ l_start r = inject_Z p
                                 /\ l_end r = inject_Z (p + len (js "you")))).
Proof.
  intros text.
  apply (occurring_text_is_located_exactly text (js "you") 40 43 None None 8).
  - discriminate.
  - vm_compute. repeat split; discriminate.
Defined.

(** A hint that verifies is returned as it is, whole numbers or not: here
    the hint [{3/2, 21/5}], whose truncations 1 and 4 span ["bcd"]. *)
Example verified_hint_is_returned_with_its_fractions :
  findExactTextPosition (js "abcdef") (js "bcd") (3 # 2) (21 # 5) None None
  = Some (mkLocated (3 # 2) (21 # 5) true).
Proof. vm_compute. reflexivity. Qed.

(** [indexOf] answers the first occurrence from the starting point on. *)
Lemma indexOfAux_first (search s : jsstring) (k r : Z) :
  indexOfAux search s k = r -> r <> -1 -> 0 <= k ->
  forall j : nat, k + Z.of_nat j < r -> isPrefixOf search (skipn j s) = false.
Proof.
  revert k; induction s as [|c s IH]; intros k Hr Hne Hk j Hj; simpl in Hr.
  - destruct (isPrefixOf search []) eqn:E; [lia|congruence].
  - destruct (isPrefixOf search (c :: s)) eqn:E; [lia|].
    destruct j as [|j]; [exact E|]. simpl.
    apply (IH (k + 1) Hr Hne ltac:(lia)). lia.
Qed.

Lemma indexOf_first (text search : jsstring) (from r k : Z) :
  indexOf text search from = r -> r <> -1 ->
  clampIndex text from <= k < r -> ~ occursAt text search k.
Proof.
  unfold indexOf. intros Hr Hne Hk Hocc.
  pose proof (clampIndex_range text from) as Hc.
  pose proof (occurs_isPrefixOf_skipn _ _ _ Hocc) as Hp.
  pose proof (indexOfAux_first _ _ _ _ Hr Hne ltac:(lia)
                (Z.to_nat (k - clampIndex text from)) ltac:(lia)) as Hn.
  rewrite skipn_skipn in Hn.
  replace (Z.to_nat (k - clampIndex text from) + Z.to_nat (clampIndex text from))%nat
    with (Z.to_nat k) in Hn by lia.
  congruence.
Qed.

(** [i] is where the search stands when every occurrence from [b] on is
    still ahead: the first of them, or [-1] when there is none. *)
Definition nextFrom (text search : jsstring) (b i : Z) : Prop :=
  (i = -1 /\ forall k, b <= k -> ~ occursAt text search k)
  \/ (b <= i /\ occursAt text search i /\ forall k, b <= k < i -> ~ occursAt text search k).

Lemma indexOf_nextFrom (text search : jsstring) (b : Z) :
  0 <= b <= len text -> nextFrom text search b (indexOf text search b).
Proof.
  intros Hb. destruct (Z.eq_dec (indexOf text search b) (-1)) as [E|E].
  - left. split; [exact E|]. intros k Hk. apply (indexOf_none _ _ _ _ E).
    rewrite clampIndex_id by exact Hb. exact Hk.
  - right. destruct (indexOf_found _ _ _ _ eq_refl E) as [Hge Hocc].
    rewrite clampIndex_id in Hge by exact Hb.
    split; [exact Hge|]. split; [exact Hocc|].
    intros k Hk. apply (indexOf_first _ _ _ _ _ eq_refl E).
    rewrite clampIndex_id by exact Hb. exact Hk.
Qed.

(** The loop visits every occurrence, in increasing order. *)
Lemma searchLoop_complete (text search : jsstring) (fuel : nat) :
  search <> [] ->
  forall (b i : Z) (l : list Z),
    nextFrom text search b i ->
    searchLoop fuel text search i = Some l ->
    (forall k, b <= k -> occursAt text search k -> In k l)
    /\ Forall (fun k => b <= k) l
    /\ StronglySorted Z.lt l.
Proof.
  intros Hne. induction fuel as [|fuel IH]; intros b i l Hnext; simpl.
  - destruct (Z.eqb_spec i (-1)) as [->|E]; [|discriminate].
    intros H. injection H as <-. destruct Hnext as [[_ Hno] | [_ [Hocc _]]].
    + repeat split; [|constructor|constructor]. intros k Hk Hk'. exact (Hno k Hk Hk').
    + destruct Hocc as [H0 _]. lia.
  - destruct (Z.eqb_spec i (-1)) as [->|E].
    + intros H. injection H as <-. destruct Hnext as [[_ Hno] | [_ [Hocc _]]].
      * repeat split; [|constructor|constructor]. intros k Hk Hk'. exact (Hno k Hk Hk').
      * destruct Hocc as [H0 _]. lia.
    + destruct Hnext as [[Hi _] | (Hbi & Hocc & Hfirst)]; [contradiction|].
      destruct (searchLoop fuel text search (indexOf text search (i + 1))) as [rest|] eqn:Er;
        [|discriminate].
      intros H. injection H as <-.
      pose proof (occursAt_lt _ _ _ Hne Hocc) as Hlt. pose proof Hocc as (H0 & _).
      destruct (IH (i + 1) _ rest (indexOf_nextFrom text search (i + 1) ltac:(lia)) Er)
        as (Hall & Hge & Hsorted).
      repeat split.
      * intros k Hk Hk'. destruct (Z.eq_dec k i) as [->|Hki]; [left; reflexivity|].
        right. apply Hall; [|exact Hk'].
        destruct (Z_lt_le_dec k i) as [Hlt'|Hge']; [|lia].
        exfalso. exact (Hfirst k ltac:(lia) Hk').
      * constructor; [exact Hbi|]. eapply Forall_impl; [|exact Hge]. simpl. intros; lia.
      * constructor; [exact Hsorted|]. eapply Forall_impl; [|exact Hge]. simpl. intros; lia.
Qed.

Lemma searchIndices_complete (text search : jsstring) (l : list Z) :
  search <> [] -> searchIndices text search = Some l ->
  (forall k, occursAt text search k <-> In k l) /\ StronglySorted Z.lt l.
Proof.
  intros Hne Hl. pose proof (len_nonneg text) as HL.
  destruct (searchLoop_complete text search _ Hne 0 _ l
              (indexOf_nextFrom text search 0 ltac:(lia)) Hl) as (Hall & _ & Hsorted).
  destruct (searchIndices_sound _ _ _ Hl) as [Hsound _].
  split; [|exact Hsorted]. intros k. split.
  - intros Hocc. apply Hall; [|exact Hocc]. destruct Hocc. lia.
  - intros Hin. rewrite Forall_forall in Hsound. exact (Hsound k Hin).
Qed.




(** The score of every match that [findWithContext] pushes: it depends on
    which contexts are given, not on the occurrence. *)
Definition contextScore (cb ca : option jsstring) : Z :=
  1 + (match contextGiven cb with Some _ => 2 | None => 0 end)
    + (match contextGiven ca with Some _ => 2 | None => 0 end).

Lemma contextMatchAt_score (text searchText : jsstring) (cb ca : option jsstring)
    (p : Z) (m : ContextMatch) :
  contextMatchAt text searchText cb ca p = Some m -> score m = contextScore cb ca.
Proof.
  unfold contextMatchAt, contextScore.
  destruct (contextGiven cb) as [b|]; [destruct (includes _ b)|];
    (destruct (contextGiven ca) as [a|]; [destruct (includes _ a)|]);
    intros H; try discriminate; injection H as <-; reflexivity.
Qed.

Lemma stableSort_nothing_to_move {A} (before : A -> A -> bool) (l : list A) :
  (forall x y, In x l -> In y l -> before x y = false) -> stableSort before l = l.
Proof.
  induction l as [|x l IH]; intros H; simpl; [reflexivity|].
  rewrite IH by (intros a b Ha Hb; apply H; right; assumption).
  destruct l as [|y l']; simpl; [reflexivity|].
  rewrite (H y x) by (simpl; auto). reflexivity.
Qed.

Lemma findWithContext_unsorted (text searchText : jsstring) (cb ca : option jsstring)
    (indices : list Z) :
  searchIndices text searchText = Some indices ->
  findWithContext text searchText cb ca
  = Some (collectSome (map (contextMatchAt text searchText cb ca) indices)).
Proof.
  intros Hl. unfold findWithContext. rewrite Hl. f_equal.
  apply stableSort_nothing_to_move. intros x y Hx Hy.
  apply collectSome_In, in_map_iff in Hx as (p & Hp & _).
  apply collectSome_In, in_map_iff in Hy as (q & Hq & _).
  rewrite (contextMatchAt_score _ _ _ _ _ _ Hp), (contextMatchAt_score _ _ _ _ _ _ Hq).
  apply Z.ltb_irrefl.
Qed.

Lemma collectSome_contextMatchAt_sorted (text searchText : jsstring) (cb ca : option jsstring)
    (indices : list Z) :
  StronglySorted Z.lt indices ->
  StronglySorted (fun a b => c_start a < c_start b)
    (collectSome (map (contextMatchAt text searchText cb ca) indices)).
Proof.
  induction 1 as [|p l Hsorted IH Hall]; simpl; [constructor|].
  destruct (contextMatchAt text searchText cb ca p) as [m|] eqn:E; [|exact IH].
  constructor; [exact IH|]. apply Forall_forall. intros m' Hm'.
  apply collectSome_In, in_map_iff in Hm' as (q & Hq & Hin).
  apply contextMatchAt_span in E as [-> _]. apply contextMatchAt_span in Hq as [-> _].
  rewrite Forall_forall in Hall. exact (Hall q Hin).
Qed.

(** X4.  The matches that [findWithContext] returns all carry one and the
    same score, each is an occurrence of [searchText] passing the context
    tests, and they come in text order: the sort by score moves nothing. *)
Theorem context_matches_share_one_score
    (text searchText : jsstring) (cb ca : option jsstring) (matches : list ContextMatch) :
  findWithContext text searchText cb ca = Some matches ->
  (forall m, In m matches ->
             score m = contextScore cb ca
             /\ occursAt text searchText (c_start m)
             /\ c_end m = c_start m + len searchText)
  /\ StronglySorted (fun a b => c_start a < c_start b) matches.
Proof.
  intros H.
  assert (Hne : searchText <> []).
  { intros ->. unfold findWithContext in H. rewrite searchIndices_empty in H. discriminate. }
  destruct (searchIndices_spec text searchText Hne) as (l & Hl & Hall & _).
  rewrite (findWithContext_unsorted _ _ cb ca _ Hl) in H. injection H as <-.
  destruct (searchIndices_complete _ _ _ Hne Hl) as [_ Hsorted].
  split; [|apply collectSome_contextMatchAt_sorted; exact Hsorted].
  intros m Hm. apply collectSome_In, in_map_iff in Hm as (p & Hp & Hin).
  split; [exact (contextMatchAt_score _ _ _ _ _ _ Hp)|].
  apply contextMatchAt_span in Hp as [-> ->].
  split; [|reflexivity]. rewrite Forall_forall in Hall. exact (Hall p Hin).
Qed.

Lemma context_matches_share_one_score_witness :
  let matches := [mkContextMatch 8 11 5; mkContextMatch 12 15 5] in
  (forall m, In m matches ->
             score m = contextScore (Some (js "think")) (Some (js "should"))
             /\ occursAt (js "I think you you should go.") (js "you") (c_start m)
             /\ c_end m = c_start m + len (js "you"))
  /\ StronglySorted (fun a b => c_start a < c_start b) matches.
Proof.
  apply (context_matches_share_one_score (js "I think you you should go.") (js "you")
           (Some (js "think")) (Some (js "should"))).
  vm_compute. reflexivity.
Defined.

Lemma first_passing_is_head {A} (f : Z -> option A) (l : list Z) (p : Z) (m : A) :
  StronglySorted Z.lt l -> In p l -> f p = Some m ->
  (forall q, In q l -> q < p -> f q = None) ->
  exists rest, collectSome (map f l) = m :: rest.
Proof.
  induction 1 as [|x l Hsorted IH Hall]; intros Hin Hp Hbefore; [destruct Hin|].
  simpl. destruct Hin as [-> | Hin].
  - rewrite Hp. eexists. reflexivity.
  - rewrite Forall_forall in Hall. pose proof (Hall p Hin) as Hlt.
    rewrite (Hbefore x) by (simpl; auto). apply IH; [exact Hin|exact Hp|].
    intros q Hq. apply Hbefore. right. exact Hq.
Qed.

(** X5.  With a context given and a hint that does not verify, the span
    returned is the first occurrence, in text order, that passes the context
    tests, whatever the hint: the hint start plays no part in the choice. *)
Theorem first_context_match_is_returned
    (text searchText : jsstring) (startPos endPos : Q) (cb ca : option jsstring)
    (p : Z) (m : ContextMatch) :
  truthy cb || truthy ca = true ->
  hintVerifies text searchText startPos endPos = false ->
  searchText <> [] -> occursAt text searchText p ->
  contextMatchAt text searchText cb ca p = Some m ->
  (forall q, occursAt text searchText q -> q < p ->
             contextMatchAt text searchText cb ca q = None) ->
  findExactTextPosition text searchText startPos endPos cb ca
  = Some (mkLocated (inject_Z p) (inject_Z (p + len searchText)) true).
Proof.
  intros Hctx Hhint Hne Hocc Hm Hfirst. unfold findExactTextPosition.
  fold (hintVerifies text searchText startPos endPos). rewrite Hhint, Hctx.
  destruct (searchIndices_spec text searchText Hne) as (l & Hl & _ & _).
  destruct (searchIndices_complete _ _ _ Hne Hl) as [Hiff Hsorted].
  rewrite (findWithContext_unsorted _ _ cb ca _ Hl).
  destruct (first_passing_is_head (contextMatchAt text searchText cb ca) l p m Hsorted)
    as [rest ->]; [apply Hiff; exact Hocc|exact Hm| |].
  - intros q Hq. apply Hfirst. apply Hiff. exact Hq.
  - apply contextMatchAt_span in Hm as [-> ->]. reflexivity.
Qed.

Lemma first_context_match_is_returned_witness :
  findExactTextPosition (js "We you and I think you should go.") (js "you") 40 43
                        (Some (js "think")) None
  = Some (mkLocated (inject_Z 19) (inject_Z (19 + len (js "you"))) true).
Proof.
  apply (first_context_match_is_returned _ _ 40 43 (Some (js "think")) None 19
           (mkContextMatch 19 22 3)).
  - reflexivity.
  - vm_compute. reflexivity.
  - discriminate.
  - vm_compute. repeat split; discriminate.
  - vm_compute. reflexivity.
  - intros q Hq Hlt.
    destruct (searchIndices_complete (js "We you and I think you should go.") (js "you")
                [3; 19] ltac:(discriminate) ltac:(vm_compute; reflexivity)) as [Hiff _].
    apply Hiff in Hq. destruct Hq as [<- | [<- | []]]; [vm_compute; reflexivity|lia].
Defined.

(** ** TextDiffer: what the computed change point guarantees *)

Lemma firstDisagreement_spec (o n : jsstring) (i : Z) :
  let d := Z.to_nat (firstDisagreement o n i - i) in
  i <= firstDisagreement o n i <= i + Z.min (len o) (len n)
  /\ firstn d o = firstn d n
  /\ (firstDisagreement o n i < i + Z.min (len o) (len n) ->
      nth_error o d <> nth_error n d).
Proof.
  revert n i; induction o as [|x o IH]; intros [|y n] i; cbn zeta; simpl firstDisagreement;
    try (rewrite Z.sub_diag; unfold len; simpl; repeat split; try lia; reflexivity).
  destruct (N.eqb_spec x y) as [->|Hxy].
  - destruct (IH n (i + 1)) as (Hb & Hpre & Hdiff). cbn zeta in *.
    replace (Z.to_nat (firstDisagreement o n (i + 1) - i))
      with (S (Z.to_nat (firstDisagreement o n (i + 1) - (i + 1)))) by lia.
    unfold len in *. simpl List.length. repeat split; try lia.
    + simpl. f_equal. exact Hpre.
    + intros H. simpl. apply Hdiff. lia.
  - rewrite Z.sub_diag. unfold len. simpl List.length. repeat split; try lia.
    simpl. congruence.
Qed.

(** X6.  The change point that [handleContentEditable] computes always
    lies within the common length of the two texts; and when the texts
    differ but not in their first character, the two texts agree before it
    and, if it is inside both, disagree at it. *)
Theorem changeStart_bounds_and_agreement (oldValue newValue : jsstring) :
  let changeStart := computeChangeStart oldValue newValue in
  0 <= changeStart <= Z.min (len oldValue) (len newValue)
  /\ (oldValue <> newValue ->
      firstDisagreement oldValue newValue 0 <> 0 \/ oldValue = [] \/ newValue = [] ->
      substringZ oldValue 0 changeStart = substringZ newValue 0 changeStart
      /\ (changeStart < Z.min (len oldValue) (len newValue) ->
          nth_error oldValue (Z.to_nat changeStart)
          <> nth_error newValue (Z.to_nat changeStart))).
Proof.
  cbn zeta. pose proof (len_nonneg oldValue) as Ho. pose proof (len_nonneg newValue) as Hn.
  destruct (firstDisagreement_spec oldValue newValue 0) as (Hb & Hpre & Hdiff).
  cbn zeta in *. rewrite Z.sub_0_r, Z.add_0_l in *.
  split.
  - unfold computeChangeStart.
    destruct ((scanLoop oldValue newValue 0 =? 0) && negb (streq oldValue newValue)); [lia|].
    destruct (scanLoop_firstDisagreement oldValue newValue 0) as [[_ ->] | [_ ->]]; lia.
  - intros Hne Hcase. rewrite (computeChangeStart_correct _ _ Hne Hcase).
    rewrite !substringZ_slice by lia. rewrite Z.sub_0_r. simpl skipn.
    split; [exact Hpre|exact Hdiff].
Qed.

Lemma changeStart_bounds_and_agreement_witness :
  substringZ (js "Teh cat") 0 (computeChangeStart (js "Teh cat") (js "Teh  cat"))
  = substringZ (js "Teh  cat") 0 (computeChangeStart (js "Teh cat") (js "Teh  cat")).
Proof.
  apply (proj2 (changeStart_bounds_and_agreement (js "Teh cat") (js "Teh  cat"))).
  - discriminate.
  - left. vm_compute. discriminate.
Defined.

(** ** SuggestionMerger: order, provenance and priority *)

Lemma insertSorted_sorted {A} (before : A -> A -> bool) (x : A) (l : list A) :
  (forall a b, before a b = true -> before b a = false) ->
  (forall a b c, before b a = false -> before c b = false -> before c a = false) ->
  StronglySorted (fun a b => before b a = false) l ->
  StronglySorted (fun a b => before b a = false) (insertSorted before x l).
Proof.
  intros Hasym Htrans. induction 1 as [|y l Hsorted IH Hall]; simpl.
  - constructor; constructor.
  - destruct (before y x) eqn:E.
    + constructor; [exact IH|]. apply Forall_forall. intros z Hz.
      apply insertSorted_In in Hz as [-> | Hz].
      * apply Hasym. exact E.
      * rewrite Forall_forall in Hall. exact (Hall z Hz).
    + constructor; [constructor; assumption|].
      constructor; [exact E|]. apply Forall_forall. intros z Hz.
      rewrite Forall_forall in Hall. exact (Htrans x y z E (Hall z Hz)).
Qed.

Lemma stableSort_sorted {A} (before : A -> A -> bool) (l : list A) :
  (forall a b, before a b = true -> before b a = false) ->
  (forall a b c, before b a = false -> before c b = false -> before c a = false) ->
  StronglySorted (fun a b => before b a = false) (stableSort before l).
Proof.
  intros Hasym Htrans. induction l as [|x l IH]; simpl; [constructor|].
  apply insertSorted_sorted; assumption.
Qed.

Lemma insertSorted_length {A} (before : A -> A -> bool) (x : A) (l : list A) :
  List.length (insertSorted before x l) = S (List.length l).
Proof.
  induction l as [|y l IH]; simpl; [reflexivity|].
  destruct (before y x); simpl; [rewrite IH|]; reflexivity.
Qed.

Lemma stableSort_length {A} (before : A -> A -> bool) (l : list A) :
  List.length (stableSort before l) = List.length l.
Proof.
  induction l as [|x l IH]; simpl; [reflexivity|].
  rewrite insertSorted_length, IH. reflexivity.
Qed.

Lemma StronglySorted_weaken {A} (R R' : A -> A -> Prop) (l : list A) :
  (forall a b, R a b -> R' a b) -> StronglySorted R l -> StronglySorted R' l.
Proof.
  intros H. induction 1 as [|x l _ IH Hall]; constructor; [exact IH|].
  eapply Forall_impl; [|exact Hall]. intros b. apply H.
Qed.

(** X7.  The list that [mergeSuggestionsIntelligently] returns is sorted by
    span start, ascending. *)
Theorem merge_result_sorted_by_start
    (existing incoming : list Suggestion) (currentText : jsstring) :
  StronglySorted (fun a b => (start (position a) <= start (position b))%Q)
                 (mergeSuggestionsIntelligently existing incoming currentText).
Proof.
  unfold mergeSuggestionsIntelligently.
  apply (StronglySorted_weaken (fun a b => byStart b a = false)).
  - intros a b H. apply Qlt_bool_false_iff in H. exact H.
  - apply (stableSort_sorted byStart).
    + unfold byStart. intros a b H. apply Qlt_bool_iff in H. apply Qlt_bool_false_iff.
      apply Qlt_le_weak. exact H.
    + unfold byStart. intros a b c H1 H2.
      apply Qlt_bool_false_iff in H1, H2. apply Qlt_bool_false_iff.
      eapply Qle_trans; eassumption.
Qed.

Lemma mergeOne_length (merged : list Suggestion) (n : Suggestion) :
  (List.length (mergeOne merged n) <= S (List.length merged))%nat.
Proof.
  rewrite mergeOne_eq. cbv zeta.
  pose proof (filter_length_le (fun e => negb (displaces n e)) merged) as H.
  destruct (_ || _); [rewrite length_app; simpl|]; lia.
Qed.

Lemma fold_mergeOne_length (incoming merged : list Suggestion) :
  (List.length (fold_left mergeOne incoming merged)
   <= List.length merged + List.length incoming)%nat.
Proof.
  revert merged; induction incoming as [|n rest IH]; intros merged; simpl; [lia|].
  pose proof (IH (mergeOne merged n)). pose proof (mergeOne_length merged n). lia.
Qed.

(** X8.  A merge invents nothing: every suggestion of the result is an
    existing suggestion that reads its original at its span in the current
    text, or one of the incoming suggestions; and the result holds no more
    suggestions than were given. *)
Theorem merge_invents_nothing
    (existing incoming : list Suggestion) (currentText : jsstring) :
  (forall s, In s (mergeSuggestionsIntelligently existing incoming currentText) ->
             (In s existing /\ spanHolds currentText s) \/ In s incoming)
  /\ (List.length (mergeSuggestionsIntelligently existing incoming currentText)
      <= List.length existing + List.length incoming)%nat.
Proof.
  split.
  - intros s. apply merge_members.
  - unfold mergeSuggestionsIntelligently. rewrite stableSort_length.
    pose proof (fold_mergeOne_length incoming (filter (isStillValid currentText) existing)).
    pose proof (filter_length_le (isStillValid currentText) existing). lia.
Qed.

Lemma fold_left_snoc {A B} (f : A -> B -> A) (l : list B) (x : B) (a : A) :
  fold_left f (l ++ [x]) a = f (fold_left f l a) x.
Proof. rewrite fold_left_app. reflexivity. Qed.

Lemma shouldReplace_not_typo (src other : Source) :
  src <> typo -> shouldReplace src other = true.
Proof. destruct src, other; simpl; congruence. Qed.

(** X9.  The incoming suggestion merged last, when it is not
    dictionary-sourced, is in the result, and nothing else in the result
    overlaps it: every suggestion it overlapped, of whatever source, has
    been removed. *)
Theorem last_incoming_displaces_what_it_overlaps
    (existing earlier : list Suggestion) (n : Suggestion) (currentText : jsstring) :
  getSuggestionSource n <> typo ->
  In n (mergeSuggestionsIntelligently existing (earlier ++ [n]) currentText)
  /\ forall x, In x (mergeSuggestionsIntelligently existing (earlier ++ [n]) currentText) ->
               x = n \/ overlaps n x = false.
Proof.
  intros Hsrc. unfold mergeSuggestionsIntelligently.
  rewrite fold_left_snoc, mergeOne_eq. cbv zeta.
  set (merged := fold_left mergeOne earlier (filter (isStillValid currentText) existing)).
  assert (Hd : forall e, displaces n e = overlaps n e).
  { intros e. unfold displaces. rewrite shouldReplace_not_typo by exact Hsrc.
    apply andb_true_r. }
  assert (Hb : existsb (blocks n) (filter (fun e => negb (displaces n e)) merged) = false).
  { destruct (existsb _ _) eqn:E; [|reflexivity].
    apply existsb_exists in E as (x & _ & Hx). unfold blocks in Hx.
    destruct (getSuggestionSource n); try contradiction;
      rewrite ?andb_false_r in Hx; simpl in Hx; rewrite ?andb_false_r in Hx; discriminate. }
  rewrite Hb, orb_true_r. split.
  - apply stableSort_In, in_or_app. right. left. reflexivity.
  - intros x Hx. apply stableSort_In, in_app_or in Hx as [Hx | [<- | []]]; [right|left; reflexivity].
    apply filter_In in Hx as [_ Hx]. rewrite Hd in Hx. apply negb_true_iff. exact Hx.
Qed.

Lemma last_incoming_displaces_what_it_overlaps_witness :
  let t := sampleSuggestion "typo-1" 4 7 "cat" in
  let n := sampleSuggestion "openai-2" 0 7 "The cat" in
  mergeSuggestionsIntelligently [t] [n] (js "The cat sat.") = [n]
  /\ In n (mergeSuggestionsIntelligently [t] ([] ++ [n]) (js "The cat sat.")).
Proof.
  intros t n. split; [vm_compute; reflexivity|].
  apply (last_incoming_displaces_what_it_overlaps [t] [] n (js "The cat sat.")).
  vm_compute. discriminate.
Defined.

(** X10.  A merge whose incoming suggestions are all dictionary-sourced
    removes no semantic suggestion: every existing semantic suggestion that
    reads its original in the current text is in the result. *)
Theorem dictionary_pass_keeps_semantic
    (existing incoming : list Suggestion) (currentText : jsstring) (e : Suggestion) :
  (forall n, In n incoming -> getSuggestionSource n = typo) ->
  In e existing -> getSuggestionSource e = openai -> spanHolds currentText e ->
  In e (mergeSuggestionsIntelligently existing incoming currentText).
Proof.
  intros Hinc He Hsrc Hvalid. unfold mergeSuggestionsIntelligently. apply stableSort_In.
  assert (Hstart : In e (filter (isStillValid currentText) existing)).
  { apply filter_In. split; [exact He|]. apply streq_true_iff. exact Hvalid. }
  revert Hstart. generalize (filter (isStillValid currentText) existing) as merged.
  induction incoming as [|n rest IH]; intros merged Hin; simpl; [exact Hin|].
  apply IH.
  - intros m Hm. apply Hinc. right. exact Hm.
  - apply mergeOne_keeps; [exact Hin|]. unfold displaces.
    rewrite (Hinc n (or_introl eq_refl)), Hsrc. apply andb_false_r.
Qed.

Lemma dictionary_pass_keeps_semantic_witness :
  let e := sampleSuggestion "openai-1" 0 3 "The" in
  let t := sampleSuggestion "typo-1" 4 7 "cat" in
  let d := sampleSuggestion "typo-2" 2 5 "e c" in
  In e (mergeSuggestionsIntelligently [e; t] [d] (js "The cat sat.")).
Proof.
  intros e t d.
  apply (dictionary_pass_keeps_semantic [e; t] [d] (js "The cat sat.") e).
  - intros n [<- | []]. vm_compute. reflexivity.
  - left. reflexivity.
  - vm_compute. reflexivity.
  - vm_compute. reflexivity.
Defined.

(** ** SuggestionRepositioner: what a repositioning can and cannot change *)

Lemma withPosition_same (s : Suggestion) :
  withPosition s (start (position s)) (end_ (position s)) = s.
Proof. destruct s as [i t [a b] o sg cb ca ex cf]. reflexivity. Qed.

Lemma mapM_length {A B} (f : A -> option B) (l : list A) (l' : list B) :
  mapM f l = Some l' -> List.length l' = List.length l.
Proof.
  revert l'; induction l as [|x l IH]; intros l'; simpl.
  - intros H. injection H as <-. reflexivity.
  - destruct (f x); simpl; [|discriminate]. destruct (mapM f l); simpl; [|discriminate].
    intros H. injection H as <-. simpl. f_equal. apply IH. reflexivity.
Qed.

Lemma collectSome_length {A} (l : list (option A)) :
  (List.length (collectSome l) <= List.length l)%nat.
Proof. induction l as [|[x|] l IH]; simpl; lia. Qed.

(** X11.  [updateSuggestionPositions] changes positions only: every
    suggestion it keeps is one of the suggestions it was given with,
    possibly, another position; it adds none. *)
Theorem reposition_changes_positions_only
    (st st' : State) (oldText newText : jsstring) (changeStart : Z) :
  updateSuggestionPositions st oldText newText changeStart = Some st' ->
  (forall s', In s' (suggestions st') ->
              exists s, In s (suggestions st)
                        /\ s' = withPosition s (start (position s')) (end_ (position s')))
  /\ (List.length (suggestions st') <= List.length (suggestions st))%nat.
Proof.
  intros H. apply updateSuggestionPositions_suggestions in H. unfold repositioned in H.
  destruct (mapM (relocate newText) _) as [relocated|] eqn:E; simpl in H; [|discriminate].
  injection H as <-. split.
  - intros s' Hs'. apply collectSome_In in Hs'.
    destruct (mapM_In _ _ _ _ E Hs') as (x & Hx & Hrel).
    apply collectSome_In, in_map_iff in Hx as (s & Hshift & Hs).
    exists s. split; [exact Hs|].
    assert (Hx' : x = withPosition s (start (position x)) (end_ (position x))).
    { unfold coarseShift in Hshift. destruct (Qle_bool _ _).
      - injection Hshift as <-. reflexivity.
      - destruct (Qlt_bool _ _); [discriminate|]. injection Hshift as <-.
        symmetry. apply withPosition_same. }
    unfold relocate in Hrel. destruct (locate newText x) as [r|]; simpl in Hrel; [|discriminate].
    destruct (found r); [|discriminate].
    destruct (_ || _); injection Hrel as <-.
    + rewrite Hx'. reflexivity.
    + exact Hx'.
  - apply mapM_length in E.
    pose proof (collectSome_length relocated).
    pose proof (collectSome_length
                  (map (coarseShift changeStart (lengthDifference oldText newText))
                       (suggestions st))) as H1.
    rewrite length_map in H1. lia.
Qed.

Lemma reposition_changes_positions_only_witness :
  let s := sampleSuggestion "typo-1" 2 7 "quick" in
  let st := sampleState "a quick fox" [s] in
  let st' := mkState (js "a quick fox") (js "a quick fox") [withPosition s 2 (19 # 2)]
                     None false None false [] in
  (List.length (suggestions st') <= List.length (suggestions st))%nat.
Proof.
  intros s st st'.
  apply (reposition_changes_positions_only st st' (js "a quick fox") (js "a Quick fox") 2).
  vm_compute. reflexivity.
Defined.

Lemma toInteger_plus_Z_any (q : Q) (k : Z) :
  (0 <= q)%Q -> (0 <= q + inject_Z k)%Q -> toInteger (q + inject_Z k) = toInteger q + k.
Proof.
  intros H0 H1. rewrite !toInteger_Qfloor by assumption.
  apply Qfloor_unique.
  - rewrite inject_Z_plus. pose proof (Qfloor_le q). lra.
  - pose proof (Qlt_floor q) as H. rewrite !inject_Z_plus in *. lra.
Qed.

(** The text with the [k] characters from offset [p] on taken out. *)
Definition deleteAt (text : jsstring) (p k : Z) : jsstring :=
  substringZ text 0 p ++ substringZ text (p + k) (len text).

Lemma deleteAt_length (text : jsstring) (p k : Z) :
  0 <= p -> 0 <= k -> p + k <= len text -> len (deleteAt text p k) = len text - k.
Proof.
  intros Hp Hk Hle. unfold deleteAt. rewrite len_app, !substringZ_length.
  rewrite !clampIndex_id by lia. lia.
Qed.

Lemma substringZ_deleteAt_before (text : jsstring) (p k a b : Z) :
  0 <= p -> 0 <= k -> p + k <= len text -> 0 <= a <= b -> b <= p ->
  substringZ (deleteAt text p k) a b = substringZ text a b.
Proof.
  intros Hp Hk Hle Hab Hb. destruct (text_split_at text p ltac:(lia)) as [Hsplit Hlen].
  unfold deleteAt. rewrite substringZ_app_left by lia.
  symmetry. rewrite Hsplit at 1. apply substringZ_app_left; lia.
Qed.

Lemma substringZ_deleteAt_after (text : jsstring) (p k a b : Z) :
  0 <= p -> 0 <= k -> p + k <= len text -> p + k <= a <= b -> b <= len text ->
  substringZ (deleteAt text p k) (a - k) (b - k) = substringZ text a b.
Proof.
  intros Hp Hk Hle Hab Hb. destruct (text_split_at text p ltac:(lia)) as [_ Hlen].
  assert (Hrest : len (substringZ text (p + k) (len text)) = len text - (p + k)).
  { rewrite substringZ_length, !clampIndex_id by lia. lia. }
  unfold deleteAt. rewrite substringZ_app_right by lia.
  rewrite (substringZ_app_right_of text (p + k) a b) by lia.
  f_equal; lia.
Qed.

(** The outcome for a suggestion clear of a deleted range: shifted back by
    [k] when it starts at or after [p], unchanged when it ends by [p]. *)
Definition afterDeletion (p k : Z) (s : Suggestion) : Suggestion :=
  if Qle_bool (inject_Z p) (start (position s)) then
    withPosition s (start (position s) + inject_Z (- k))%Q (end_ (position s) + inject_Z (- k))%Q
  else s.

(** A span that does not meet the range of [k] characters from [p] on. *)
Definition clearOf (p k : Z) (s : Suggestion) : Prop :=
  (end_ (position s) <= inject_Z p)%Q \/ (inject_Z (p + k) <= start (position s))%Q.

Lemma afterDeletion_valid (text : jsstring) (p k : Z) (s : Suggestion) :
  0 <= p -> 0 <= k -> p + k <= len text ->
  validSpan text s -> clearOf p k s ->
  coarseShift p (- k) s = Some (afterDeletion p k s)
  /\ validSpan (deleteAt text p k) (afterDeletion p k s).
Proof.
  intros Hp Hk Hle (H0 & Hlt & HleQ & Hsub) Hclear.
  pose proof (inject_Z_nonneg _ Hk) as HkQ. pose proof (inject_Z_nonneg _ Hp) as HpQ.
  assert (Hab : toInteger (start (position s)) <= toInteger (end_ (position s)))
    by (apply toInteger_le; lra).
  assert (Hb : toInteger (end_ (position s)) <= len text) by (apply toInteger_le_Z; lra).
  pose proof (toInteger_nonneg _ H0) as Ha0.
  unfold coarseShift, afterDeletion, validSpan, spanHolds.
  rewrite (deleteAt_length text p k Hp Hk Hle).
  destruct (Qle_bool (inject_Z p) (start (position s))) eqn:E1.
  - apply Qle_bool_iff in E1. split; [reflexivity|].
    assert (Hpk : (inject_Z (p + k) <= start (position s))%Q).
    { destruct Hclear as [Hc | Hc]; [lra|exact Hc]. }
    rewrite inject_Z_plus in Hpk. simpl.
    unfold Z.sub. rewrite inject_Z_plus, !inject_Z_opp.
    repeat split; try lra.
    unfold substring. rewrite <- !inject_Z_opp.
    rewrite !toInteger_plus_Z_any by (rewrite ?inject_Z_opp; lra).
    rewrite <- Hsub. unfold substring.
    apply (substringZ_deleteAt_after text p k); try lia.
    split; [|exact Hab]. apply Z_le_toInteger; [lia|]. rewrite inject_Z_plus. exact Hpk.
  - apply Qle_bool_false_iff in E1.
    assert (Hend : (end_ (position s) <= inject_Z p)%Q).
    { destruct Hclear as [Hc | Hc]; [exact Hc|]. rewrite inject_Z_plus in Hc. lra. }
    assert (Hnot : Qlt_bool (inject_Z p) (end_ (position s)) = false)
      by (apply Qlt_bool_false_iff; exact Hend).
    rewrite Hnot. split; [reflexivity|].
    unfold Z.sub. rewrite inject_Z_plus, inject_Z_opp.
    assert (Hpl : (inject_Z p + inject_Z k <= inject_Z (len text))%Q)
      by (rewrite <- inject_Z_plus, <- Zle_Qle; exact Hle).
    repeat split; try lra.
    rewrite <- Hsub. unfold substring.
    apply (substringZ_deleteAt_before text p k); try lia.
    apply toInteger_le_Z; lra.
Qed.

(** X12.  Against suggestions whose spans are valid for the old text and
    clear of the deleted range, [updateSuggestionPositions] called for the
    deletion of the [k] characters from offset [p] on, with the change point
    [p], returns and keeps every suggestion: those starting at or after the
    range are shifted back by exactly [k], those ending by [p] are
    unchanged. *)
Theorem reposition_after_deletion (st : State) (oldText : jsstring) (p k : Z) :
  0 <= p -> 0 <= k -> p + k <= len oldText ->
  Forall (validSpan oldText) (suggestions st) ->
  Forall (clearOf p k) (suggestions st) ->
  exists st',
    updateSuggestionPositions st oldText (deleteAt oldText p k) p = Some st'
    /\ suggestions st' = map (afterDeletion p k) (suggestions st).
Proof.
  intros Hp Hk Hle Hvalid Hclear. apply updateSuggestionPositions_returns.
  unfold repositioned, lengthDifference. rewrite (deleteAt_length oldText p k Hp Hk Hle).
  replace (len oldText - k - len oldText) with (- k) by lia.
  assert (Hshift : collectSome (map (coarseShift p (- k)) (suggestions st))
                   = map (afterDeletion p k) (suggestions st)
                   /\ Forall (validSpan (deleteAt oldText p k))
                             (map (afterDeletion p k) (suggestions st))).
  { induction (suggestions st) as [|s l IH]; simpl; [split; [reflexivity|constructor]|].
    inversion Hvalid as [|? ? Hs Hl]; subst. inversion Hclear as [|? ? Hc Hcl]; subst.
    destruct (afterDeletion_valid oldText p k s Hp Hk Hle Hs Hc) as [-> Hv].
    destruct (IH Hl Hcl) as [-> Hall]. split; [reflexivity|constructor; assumption]. }
  destruct Hshift as [-> Hall].
  rewrite (mapM_relocate_valid _ _ Hall). simpl. rewrite collectSome_map_Some. reflexivity.
Qed.

Lemma reposition_after_deletion_witness :
  let before := sampleSuggestion "typo-1" 0 3 "Teh" in
  let after := sampleSuggestion "typo-3" 15 18 "teh" in
  let st := sampleState "Teh cat sat on teh mat." [before; after] in
  exists st',
    updateSuggestionPositions st (value st) (deleteAt (value st) 4 4) 4 = Some st'
    /\ suggestions st'
       = [before; withPosition after (15 + inject_Z (- 4))%Q (18 + inject_Z (- 4))%Q].
Proof.
  intros before after st.
  apply (reposition_after_deletion st (value st) 4 4).
  - lia.
  - lia.
  - vm_compute. discriminate.
  - repeat constructor; vm_compute; (reflexivity || discriminate).
  - constructor; [left; vm_compute; discriminate|].
    constructor; [right; vm_compute; discriminate|constructor].
Defined.

(** ** Applying a suggestion *)

(** The text with the characters from [a] up to [b] replaced. *)
Definition replaceSpan (text : jsstring) (a b : Z) (replacement : jsstring) : jsstring :=
  substringZ text 0 a ++ replacement ++ substringZ text b (len text).

Lemma replaceSpan_length (text : jsstring) (a b : Z) (replacement : jsstring) :
  0 <= a <= b -> b <= len text ->
  len (replaceSpan text a b replacement) = len text + (len replacement - (b - a)).
Proof.
  intros Hab Hb. unfold replaceSpan. rewrite !len_app, !substringZ_length.
  rewrite !clampIndex_id by lia. lia.
Qed.

Lemma substringZ_replaceSpan_before (text : jsstring) (a b : Z) (replacement : jsstring)
    (x y : Z) :
  0 <= a <= b -> b <= len text -> 0 <= x <= y -> y <= a ->
  substringZ (replaceSpan text a b replacement) x y = substringZ text x y.
Proof.
  intros Hab Hb Hxy Hy. destruct (text_split_at text a ltac:(lia)) as [Hsplit Hlen].
  unfold replaceSpan. rewrite substringZ_app_left by lia.
  symmetry. rewrite Hsplit at 1. apply substringZ_app_left; lia.
Qed.

Lemma substringZ_replaceSpan_after (text : jsstring) (a b : Z) (replacement : jsstring)
    (x y : Z) :
  0 <= a <= b -> b <= len text -> b <= x <= y -> y <= len text ->
  substringZ (replaceSpan text a b replacement)
             (x + (len replacement - (b - a))) (y + (len replacement - (b - a)))
  = substringZ text x y.
Proof.
  intros Hab Hb Hxy Hy. destruct (text_split_at text a ltac:(lia)) as [_ Hlen].
  assert (Hrest : len (substringZ text b (len text)) = len text - b).
  { rewrite substringZ_length, !clampIndex_id by lia. lia. }
  pose proof (len_nonneg replacement) as Hr.
  unfold replaceSpan.
  rewrite substringZ_app_right by (rewrite ?len_app; lia).
  rewrite substringZ_app_right by (rewrite ?len_app; lia).
  rewrite (substringZ_app_right_of text b x y) by lia.
  f_equal; lia.
Qed.

(** The outcome of [applySuggestion] for another suggestion [r] that is
    clear of the applied one. *)
Definition afterApply (applied r : Suggestion) : Suggestion :=
  let d := len (suggested applied) - len (original applied) in
  if Qle_bool (end_ (position applied)) (start (position r)) then
    withPosition r (start (position r) + inject_Z d)%Q (end_ (position r) + inject_Z d)%Q
  else r.

Definition appliedText (st : State) (s : Suggestion) : jsstring :=
  substring (value st) 0 (start (position s)) ++ suggested s
  ++ substring (value st) (end_ (position s)) (inject_Z (len (value st))).

Lemma validSpan_integers (text : jsstring) (s : Suggestion) :
  validSpan text s ->
  0 <= toInteger (start (position s)) <= toInteger (end_ (position s))
  /\ toInteger (end_ (position s)) <= len text
  /\ len (original s) = toInteger (end_ (position s)) - toInteger (start (position s)).
Proof.
  intros (H0 & Hlt & Hle & Hsub).
  assert (Hab : toInteger (start (position s)) <= toInteger (end_ (position s)))
    by (apply toInteger_le; lra).
  assert (Hb : toInteger (end_ (position s)) <= len text) by (apply toInteger_le_Z; lra).
  pose proof (toInteger_nonneg _ H0) as Ha0.
  repeat split; try lia.
  unfold spanHolds, substring in Hsub. rewrite <- Hsub, substringZ_length.
  rewrite !clampIndex_id by lia. lia.
Qed.

Lemma appliedText_replaceSpan (st : State) (s : Suggestion) :
  appliedText st s
  = replaceSpan (value st) (toInteger (start (position s))) (toInteger (end_ (position s)))
                (suggested s).
Proof.
  unfold appliedText, replaceSpan, substring. rewrite toInteger_inject_Z. reflexivity.
Qed.

Lemma afterApply_spanHolds (st : State) (s r : Suggestion) :
  validSpan (value st) s -> validSpan (value st) r ->
  (end_ (position r) <= start (position s))%Q \/ (end_ (position s) <= start (position r))%Q ->
  shiftAfterApply (mkLocated (start (position s)) (end_ (position s)) true)
                  (len (suggested s) - len (original s)) r
  = Some (afterApply s r)
  /\ spanHolds (appliedText st s) (afterApply s r).
Proof.
  intros Hs Hr Hclear.
  destruct (validSpan_integers _ _ Hs) as (Hsab & Hsb & Hslen).
  destruct (validSpan_integers _ _ Hr) as (Hrab & Hrb & _).
  pose proof Hs as (Hs0 & Hslt & Hsle & _). pose proof Hr as (Hr0 & Hrlt & Hrle & Hrsub).
  assert (Hs0' : (0 <= end_ (position s))%Q) by lra.
  destruct (toInteger_bounds _ Hs0) as [Hsa1 Hsa2].
  destruct (toInteger_bounds _ Hs0') as [Hsb1 Hsb2].
  rewrite appliedText_replaceSpan.
  unfold shiftAfterApply, afterApply, spanHolds. cbn zeta. simpl l_end. simpl l_start.
  rewrite Hslen.
  set (a := toInteger (start (position s))) in *.
  set (b := toInteger (end_ (position s))) in *.
  set (d := len (suggested s) - (b - a)).
  pose proof (len_nonneg (suggested s)) as Hsug.
  assert (Hd : (inject_Z (a - b) <= inject_Z d)%Q) by (rewrite <- Zle_Qle; unfold d; lia).
  unfold Z.sub in Hd. rewrite inject_Z_plus, inject_Z_opp in Hd.
  assert (Ha : (0 <= inject_Z a)%Q) by (apply inject_Z_nonneg; lia).
  destruct (Qle_bool (end_ (position s)) (start (position r))) eqn:E1.
  - apply Qle_bool_iff in E1. split; [reflexivity|]. simpl.
    unfold substring. rewrite !toInteger_plus_Z_any by lra.
    rewrite <- Hrsub. unfold substring.
    apply substringZ_replaceSpan_after; try lia.
    split; [|lia]. apply toInteger_le; assumption.
  - apply Qle_bool_false_iff in E1.
    assert (Hend : (end_ (position r) <= start (position s))%Q)
      by (destruct Hclear as [Hc | Hc]; [exact Hc|lra]).
    assert (Hnot : Qlt_bool (start (position s)) (end_ (position r)) = false)
      by (apply Qlt_bool_false_iff; exact Hend).
    rewrite Hnot. simpl. split; [reflexivity|].
    rewrite <- Hrsub. unfold substring.
    apply substringZ_replaceSpan_before; try lia.
    fold a. apply toInteger_le; lra.
Qed.

Lemma shiftAfterApply_id (exactPosition : Located) (d : Z) (r x : Suggestion) :
  shiftAfterApply exactPosition d r = Some x -> id x = id r.
Proof.
  unfold shiftAfterApply. destruct (Qle_bool _ _); [intros H; injection H as <-; reflexivity|].
  destruct (_ && _); [discriminate|]. intros H; injection H as <-; reflexivity.
Qed.

(** X13.  Applying a suggestion whose span is valid replaces exactly the
    text of its span by the suggested text, removes every suggestion with
    its id, clears the selection and reports success; and every other
    suggestion that read its original and is clear of the replaced span is
    kept and still reads its original in the new text: at its own span when
    it lies before, shifted by the difference of lengths when it lies
    after. *)
Theorem apply_valid_suggestion (st : State) (s : Suggestion) :
  validSpan (value st) s ->
  exists st',
    applySuggestion true st s = Some st'
    /\ value st' = appliedText st s
    /\ (forall x, In x (suggestions st') -> id x <> id s)
    /\ selectedSuggestion st' = None
    /\ toasts st' = toasts st ++ [mkToast default (js "Suggestion applied")]
    /\ (forall r, In r (suggestions st) -> id r <> id s -> validSpan (value st) r ->
                  (end_ (position r) <= start (position s))%Q
                  \/ (end_ (position s) <= start (position r))%Q ->
                  In (afterApply s r) (suggestions st')
                  /\ spanHolds (value st') (afterApply s r)).
Proof.
  intros Hs. pose proof Hs as (H0 & Hlt & Hle & Hsub).
  unfold applySuggestion, locate.
  rewrite (hint_verification_returns_hint_aux _ _ _ _ _ _ H0 Hlt Hle Hsub).
  eexists. split; [reflexivity|]. split; [reflexivity|].
  split; [|split; [reflexivity|split; [reflexivity|]]].
  - intros x Hx. cbn [suggestions toast setAnalysisWindow setSelectedSuggestion setSuggestions] in Hx.
    apply collectSome_In, in_map_iff in Hx as (r & Hshift & Hr).
    apply filter_In in Hr as [_ Hr]. apply shiftAfterApply_id in Hshift. rewrite Hshift.
    intros E. apply negb_true_iff in Hr.
    assert (streq (id r) (id s) = true) by (apply streq_true_iff; exact E). congruence.
  - intros r Hr Hid Hvalid Hclear.
    destruct (afterApply_spanHolds st s r Hs Hvalid Hclear) as [Hshift Hholds].
    split; [|exact Hholds].
    cbn [suggestions toast setAnalysisWindow setSelectedSuggestion setSuggestions].
    apply collectSome_In, in_map_iff. exists r. split; [exact Hshift|].
    apply filter_In. split; [exact Hr|]. apply negb_true_iff.
    destruct (streq (id r) (id s)) eqn:E; [|reflexivity].
    apply streq_true_iff in E. contradiction.
Qed.

Lemma apply_valid_suggestion_witness :
  let s := sampleSuggestion "typo-1" 0 3 "Teh" in
  let st := sampleState "Teh cat sat." [s] in
  exists st', applySuggestion true st s = Some st' /\ value st' = appliedText st s.
Proof.
  intros s st.
  destruct (apply_valid_suggestion st s) as (st' & H1 & H2 & _).
  - repeat split; vm_compute; (reflexivity || discriminate).
  - exists st'. split; assumption.
Defined.

Example scenario_apply_typo :
  let s := mkSuggestion (js "typo-1") grammar (mkPosition 0 3) (js "Teh") (js "The")
                        None None [] (8 # 10) in
  applySuggestion true (sampleState "Teh cat sat." [s]) s
  = Some (mkState (js "The cat sat.") (js "The cat sat.") [] None false None false
                  [mkToast default (js "Suggestion applied")]).
Proof. vm_compute. reflexivity. Qed.

(** ** Cleanup, analysis and selection *)

Lemma filterM_spec {A} (f : A -> option bool) (l l' : list A) :
  filterM f l = Some l' ->
  (forall x, In x l' <-> In x l /\ f x = Some true)
  /\ (List.length l' <= List.length l)%nat
  /\ (List.length l' = List.length l -> l' = l).
Proof.
  revert l'; induction l as [|y l IH]; intros l'; simpl.
  - intros H. injection H as <-.
    split; [intros x; simpl; tauto|]. split; [simpl; lia|reflexivity].
  - destruct (f y) as [b|] eqn:E; simpl; [|discriminate].
    destruct (filterM f l) as [r|]; simpl; [|discriminate].
    destruct (IH r eq_refl) as (Hiff & Hlen & Heq).
    intros H. injection H as <-. destruct b; simpl.
    + split; [|split; [lia|]].
      * intros x. rewrite Hiff. split.
        -- intros [<- | [H1 H2]]; auto.
        -- intros [[<- | H1] H2]; auto.
      * intros H. f_equal. apply Heq. lia.
    + split; [|split; [lia|lia]].
      intros x. rewrite Hiff. split.
      * intros [H1 H2]. auto.
      * intros [[<- | H1] H2]; [congruence|auto].
Qed.

Lemma survivesCleanup_iff_occurs (text : jsstring) (s : Suggestion) (b : bool) :
  survivesCleanup text s = Some b ->
  (b = true <-> exists k, occursAt text (original s) k).
Proof.
  unfold survivesCleanup, locate.
  destruct (findExactTextPosition text (original s) (start (position s)) (end_ (position s))
              (contextBefore s) (contextAfter s)) as [r|] eqn:E; simpl; [|discriminate].
  intros H. injection H as <-. split.
  - intros Hb. apply andb_true_iff in Hb as [_ Hb]. apply streq_true_iff in Hb.
    rewrite <- Hb. apply substring_occurs.
  - intros [k Hk].
    destruct (findExactTextPosition_cases _ _ _ _ _ _ _ E)
      as [(-> & _ & _ & _ & Hsub) | [(p & Hp & ->) | (Hno & _)]]; simpl.
    + apply streq_true_iff. exact Hsub.
    + apply streq_true_iff. apply substring_at_occurrence. exact Hp.
    + exfalso. exact (Hno k Hk).
Qed.

(** X14.  When [cleanupInvalidSuggestions] returns, the suggestions it
    leaves are exactly those whose original still occurs somewhere in the
    text, wherever their span points and whatever their contexts; their
    positions are not touched. *)
Theorem cleanup_keeps_what_still_occurs (st st' : State) (currentText : jsstring) :
  cleanupInvalidSuggestions st currentText = Some st' ->
  forall s, In s (suggestions st')
            <-> In s (suggestions st) /\ exists k, occursAt currentText (original s) k.
Proof.
  unfold cleanupInvalidSuggestions. destruct (suggestions st) as [|s0 l] eqn:El.
  - intros H. injection H as <-. rewrite El. intros s. simpl. tauto.
  - destruct (filterM (survivesCleanup currentText) (s0 :: l)) as [valid|] eqn:E;
      simpl; [|discriminate].
    destruct (filterM_spec _ _ _ E) as (Hiff & Hlen & Heq).
    assert (Hmem : forall s, In s valid
                             <-> In s (s0 :: l) /\ exists k, occursAt currentText (original s) k).
    { intros s. rewrite Hiff. split.
      - intros [H1 H2]. split; [exact H1|].
        apply (survivesCleanup_iff_occurs _ _ _ H2). reflexivity.
      - intros [H1 H2]. split; [exact H1|].
        destruct (survivesCleanup currentText s) as [b|] eqn:Eb.
        + f_equal. apply (survivesCleanup_iff_occurs _ _ _ Eb). exact H2.
        + exfalso. clear -E H1 Eb. revert valid E.
          induction (s0 :: l) as [|y l' IH]; intros valid E; [destruct H1|].
          simpl in E. destruct H1 as [-> | H1].
          * rewrite Eb in E. discriminate.
          * destruct (survivesCleanup currentText y); simpl in E; [|discriminate].
            destruct (filterM (survivesCleanup currentText) l') as [r|]; [|discriminate].
            exact (IH H1 r eq_refl). }
    destruct (_ <? _)%nat eqn:Eltb;
      [apply Nat.ltb_lt in Eltb as Hlt | apply Nat.ltb_ge in Eltb as Hge].
    + intros H.
      assert (Hsug : suggestions st' = valid).
      { destruct (selectedSuggestion st) as [sel|]; [destruct (existsb _ _)|];
          injection H as <-; reflexivity. }
      rewrite Hsug. exact Hmem.
    + intros H. injection H as <-. rewrite El.
      rewrite <- (Heq ltac:(simpl in *; lia)). exact Hmem.
Qed.

Lemma cleanup_keeps_what_still_occurs_witness :
  let gone := sampleSuggestion "typo-1" 0 3 "Teh" in
  let moved := sampleSuggestion "typo-2" 0 3 "cat" in
  let st := sampleState "The cat sat." [gone; moved] in
  let st' := setSuggestions st [moved] in
  In moved (suggestions st')
  <-> In moved (suggestions st) /\ exists k, occursAt (js "The cat sat.") (original moved) k.
Proof.
  intros gone moved st st'.
  apply (cleanup_keeps_what_still_occurs st st' (js "The cat sat.")).
  vm_compute. reflexivity.
Defined.

Lemma correctPosition_liveSpan (text : jsstring) (startOffset : Z) (s s' : Suggestion) :
  correctPosition text startOffset s = Some (Some s') -> liveSpan text s'.
Proof.
  unfold correctPosition, locate. cbn zeta.
  match goal with |- context [findExactTextPosition ?t ?o ?a ?b ?c ?d] =>
    destruct (findExactTextPosition t o a b c d) as [r|] eqn:E end; simpl; [|discriminate].
  destruct (found r) eqn:Ef; [|discriminate].
  intros H. injection H as <-. intros [k Hk]. unfold spanHolds. simpl in *.
  destruct (findExactTextPosition_cases _ _ _ _ _ _ _ E)
    as [(-> & _ & _ & _ & Hsub) | [(p & Hp & ->) | (Hno & _)]]; simpl.
  - exact Hsub.
  - apply substring_at_occurrence. exact Hp.
  - exfalso. exact (Hno k Hk).
Qed.

(** X15.  The analysis keeps the invariant of the live set: when every
    live suggestion whose original occurs in the text reads it at its span,
    the same holds after [analyzeTextManual] has run on the current text,
    whether the remote call failed, answered nothing or answered
    suggestions with wrong positions. *)
Theorem analysis_keeps_live_invariant (st st' : State) (response : FetchOutcome) :
  liveInvariant st -> analyzeButtonClicked st response = Some st' -> liveInvariant st'.
Proof.
  intros Hinv. unfold analyzeButtonClicked, analyzeTextManual, getContextualWindow.
  destruct (len (value st) <? 20).
  - intros H. injection H as <-. intros s [].
  - destruct (readResponse response) as [|received].
    + intros H. injection H as <-. exact Hinv.
    + destruct (mapM (correctPosition (value st) 0) received) as [corrected|] eqn:E;
        simpl; [|discriminate].
      intros H. injection H as <-. intros s Hs. simpl in *.
      destruct (merge_members _ _ _ _ Hs) as [[_ Hvalid] | Hin].
      * intros _. exact Hvalid.
      * apply collectSome_In in Hin.
        destruct (mapM_In _ _ _ _ E Hin) as (x & _ & Hx).
        exact (correctPosition_liveSpan _ _ _ _ Hx).
Qed.

Lemma analysis_keeps_live_invariant_witness :
  let remote := mkSuggestion (js "r-1") tone (mkPosition 90 93) (js "cat") (js "dog")
                             None None [] (9 # 10) in
  let st := sampleState "Teh cat sat on the mat." [] in
  let st' := mkState (js "Teh cat sat on the mat.") (js "Teh cat sat on the mat.")
                     [withPosition remote 4 7] None false (Some (0, 23)) false [] in
  liveInvariant st'.
Proof.
  intros remote st st'.
  apply (analysis_keeps_live_invariant st st' (HttpResponse true 200 (SuggestionsBody [remote]))).
  - intros s [].
  - vm_compute. reflexivity.
Defined.

(** X16.  After [updateSuggestionPositions] has run on a non-empty set, the
    selection is either cleared or one of the suggestions kept, carrying the
    id of the suggestion that was selected before; it is cleared exactly
    when no kept suggestion carries that id. *)
Theorem selection_follows_repositioning
    (st st' : State) (oldText newText : jsstring) (changeStart : Z) (sel : Suggestion) :
  updateSuggestionPositions st oldText newText changeStart = Some st' ->
  suggestions st <> [] -> selectedSuggestion st = Some sel ->
  match selectedSuggestion st' with
  | Some sel' => In sel' (suggestions st') /\ id sel' = id sel
  | None => forall s, In s (suggestions st') -> id s <> id sel
  end.
Proof.
  unfold updateSuggestionPositions. intros H Hne Hsel.
  destruct (suggestions st) as [|s0 l]; [contradiction|].
  destruct (repositioned (s0 :: l) oldText newText changeStart) as [updated|];
    simpl in H; [|discriminate].
  rewrite Hsel in H. injection H as <-. simpl.
  destruct (find (sameId sel) updated) as [sel'|] eqn:E.
  - apply find_some in E as [Hin Hid]. split; [exact Hin|].
    unfold sameId in Hid. apply streq_true_iff in Hid. congruence.
  - intros s Hs Hid. pose proof (find_none _ _ E s Hs) as Hn.
    unfold sameId in Hn. rewrite <- Hid, streq_refl in Hn. discriminate.
Qed.

Lemma selection_follows_repositioning_witness :
  let s := sampleSuggestion "typo-1" 4 7 "cat" in
  let s' := withPosition s (4 + inject_Z 1)%Q (7 + inject_Z 1)%Q in
  In s' [s'] /\ id s' = id s.
Proof.
  intros s s'.
  apply (selection_follows_repositioning
           (setSelectedSuggestion (sampleState "Teh cat sat." [s]) (Some s))
           (setSelectedSuggestion (sampleState "Teh cat sat." [s']) (Some s'))
           (js "Teh cat sat.") (js "XTeh cat sat.") 0 s).
  - vm_compute. reflexivity.
  - discriminate.
  - reflexivity.
Defined.

(** ** Sections: when nothing has changed, and the collected suggestions *)

(** [detectChangedSections] reports no section exactly when every
    hash of the current partition is the hash of some section of the
    previous one; in particular a partition compared with itself has no
    changed section. *)
Theorem no_changed_section_iff_all_hashes_known
    (currentSections previousSections : list TextSection) :
  (detectChangedSections currentSections previousSections = []
   <-> forall section, In section currentSections ->
                       exists p, In p previousSections /\ hash p = hash section)
  /\ detectChangedSections currentSections currentSections = [].
Proof.
  assert (Hiff : forall cur prev,
             detectChangedSections cur prev = []
             <-> forall section, In section cur ->
                                 exists p, In p prev /\ hash p = hash section).
  { intros cur prev. unfold detectChangedSections. split.
    - intros H section Hin. apply hasHash_true_iff.
      destruct (hasHash prev (hash section)) eqn:E; [reflexivity|].
      assert (Hf : In section (filter (fun s => negb (hasHash prev (hash s))) cur))
        by (apply filter_In; rewrite E; auto).
      rewrite H in Hf. destruct Hf.
    - intros H. induction cur as [|s cur IH]; simpl; [reflexivity|].
      assert (hasHash prev (hash s) = true) as ->
        by (apply hasHash_true_iff; apply H; left; reflexivity).
      simpl. apply IH. intros section Hin. apply H. right. exact Hin. }
  split; [apply Hiff|]. apply Hiff. intros section Hin. exists section. auto.
Qed.

Import Collect.

Lemma insertSorted_Permutation {A} (before : A -> A -> bool) (x : A) (l : list A) :
  Permutation (insertSorted before x l) (x :: l).
Proof.
  induction l as [|y l IH]; simpl; [reflexivity|].
  destruct (before y x); [|reflexivity].
  rewrite IH. apply perm_swap.
Qed.

Lemma stableSort_Permutation {A} (before : A -> A -> bool) (l : list A) :
  Permutation (stableSort before l) l.
Proof.
  induction l as [|x l IH]; simpl; [reflexivity|].
  rewrite insertSorted_Permutation. constructor. exact IH.
Qed.

Lemma combine_seq_fst {A} (l : list A) (k : nat) :
  map fst (combine (seq k (List.length l)) l) = seq k (List.length l).
Proof.
  revert k; induction l as [|x l IH]; intros k; simpl; [reflexivity|].
  rewrite IH. reflexivity.
Qed.

Lemma filter_keeps_distinct_keys {K E} (key : E -> K) (keep : E -> bool) :
  forall entries : list E,
    NoDup (map key entries) -> NoDup (map key (filter keep entries)).
Proof.
  intros entries. induction entries as [|x l IH]; simpl; intros H; [constructor|].
  inversion H as [|? ? Hx Hl]; subst. destruct (keep x); simpl; [|apply IH; exact Hl].
  constructor; [|apply IH; exact Hl].
  intros Hin. apply Hx. apply in_map_iff in Hin as (y & <- & Hy).
  apply in_map. apply filter_In in Hy. tauto.
Qed.

Lemma uniqueById_NoDup (allSuggestions : list Suggestion) :
  NoDup (map id (uniqueById allSuggestions)).
Proof.
  unfold uniqueById. rewrite map_map.
  set (g := fun i : jsstring =>
              match findIndex (fun x => streq (id x) i) allSuggestions with
              | Some k => k
              | None => O
              end).
  set (kept := filter _ _).
  apply (NoDup_map_inv g). rewrite map_map.
  assert (Hext : map (fun entry : nat * Suggestion => g (id (snd entry))) kept = map fst kept).
  { apply map_ext_in. intros [i s] Hin. unfold kept in Hin. apply filter_In in Hin as [_ Hin].
    unfold g. simpl in *.
    destruct (findIndex (fun x => streq (id x) (id s)) allSuggestions) as [k|];
      [|discriminate].
    apply Nat.eqb_eq in Hin. congruence. }
  rewrite Hext. unfold kept. apply filter_keeps_distinct_keys.
  rewrite combine_seq_fst. apply seq_NoDup.
Qed.

Lemma uniqueById_In (allSuggestions : list Suggestion) (s : Suggestion) :
  In s (uniqueById allSuggestions) -> In s allSuggestions.
Proof.
  unfold uniqueById. intros H. apply in_map_iff in H as ([i x] & <- & Hin).
  apply filter_In in Hin as [Hin _]. apply in_combine_r in Hin. exact Hin.
Qed.

(** X17.  The list that [collectCurrentSuggestions] returns holds no two
    suggestions with the same id, is sorted by span start, and every
    suggestion in it is one of the new suggestions or one kept for the hash
    of a current section. *)
Theorem collected_suggestions_unique_and_sorted
    (currentSections : list TextSection) (newSuggestions : list Suggestion)
    (sectionSuggestionsMap : jsstring -> option (list Suggestion)) :
  let collected := collectCurrentSuggestions currentSections newSuggestions sectionSuggestionsMap in
  NoDup (map id collected)
  /\ StronglySorted (fun a b => (start (position a) <= start (position b))%Q) collected
  /\ forall s, In s collected ->
               In s newSuggestions
               \/ exists section cached,
                    In section currentSections
                    /\ sectionSuggestionsMap (hash section) = Some cached /\ In s cached.
Proof.
  cbn zeta. unfold collectCurrentSuggestions. repeat split.
  - eapply Permutation_NoDup; [|apply uniqueById_NoDup].
    apply Permutation_map. symmetry. apply stableSort_Permutation.
  - apply (StronglySorted_weaken (fun a b => byStart b a = false)).
    + intros a b H. apply Qlt_bool_false_iff in H. exact H.
    + apply (stableSort_sorted byStart).
      * unfold byStart. intros a b H. apply Qlt_bool_iff in H. apply Qlt_bool_false_iff.
        apply Qlt_le_weak. exact H.
      * unfold byStart. intros a b c H1 H2.
        apply Qlt_bool_false_iff in H1, H2. apply Qlt_bool_false_iff.
        eapply Qle_trans; eassumption.
  - intros s Hs. apply stableSort_In, uniqueById_In, in_app_or in Hs as [Hs | Hs]; [right|left; exact Hs].
    apply in_flat_map in Hs as (section & Hsec & Hin).
    destruct (sectionSuggestionsMap (hash section)) as [cached|] eqn:E; [|destruct Hin].
    exists section, cached. repeat split; assumption.
Qed.

(** ** Escaping the text for the highlighted view *)

Import Html.

(** What one character of the text becomes. *)
Definition escapeUnit (c : codeUnit) : jsstring :=
  if N.eqb c 38 then js "&amp;"
  else if N.eqb c 60 then js "&lt;"
  else if N.eqb c 62 then js "&gt;"
  else if N.eqb c 34 then js "&quot;"
  else if N.eqb c 39 then js "&#39;"
  else if N.eqb c 10 then js "<br/>"
  else [c].

Lemma replaceAll_app (c : codeUnit) (r a b : jsstring) :
  replaceAll c r (a ++ b) = replaceAll c r a ++ replaceAll c r b.
Proof. unfold replaceAll. apply flat_map_app. Qed.

Lemma escapeHtml_app (a b : jsstring) :
  escapeHtml (a ++ b) = escapeHtml a ++ escapeHtml b.
Proof. unfold escapeHtml. rewrite !replaceAll_app. reflexivity. Qed.

Lemma escapeHtml_unit (c : codeUnit) : escapeHtml [c] = escapeUnit c.
Proof.
  unfold escapeUnit.
  destruct (N.eqb_spec c 38) as [->|H38]; [reflexivity|].
  destruct (N.eqb_spec c 60) as [->|H60]; [reflexivity|].
  destruct (N.eqb_spec c 62) as [->|H62]; [reflexivity|].
  destruct (N.eqb_spec c 34) as [->|H34]; [reflexivity|].
  destruct (N.eqb_spec c 39) as [->|H39]; [reflexivity|].
  destruct (N.eqb_spec c 10) as [->|H10]; [reflexivity|].
  apply N.eqb_neq in H38, H60, H62, H34, H39, H10.
  unfold escapeHtml, replaceAll. cbn [flat_map app].
  rewrite H38. cbn [flat_map app]. rewrite H60. cbn [flat_map app].
  rewrite H62. cbn [flat_map app]. rewrite H34. cbn [flat_map app].
  rewrite H39. cbn [flat_map app]. rewrite H10. reflexivity.
Qed.

Lemma escapeHtml_single_pass (text : jsstring) :
  escapeHtml text = flat_map escapeUnit text.
Proof.
  induction text as [|c text IH]; [reflexivity|].
  change (c :: text) with ([c] ++ text).
  rewrite escapeHtml_app, escapeHtml_unit, IH. reflexivity.
Qed.

Ltac entity_units H :=
  vm_compute in H; repeat (destruct H as [<-|H]; [repeat split; discriminate|]); destruct H.

Lemma escapeUnit_safe (c x : codeUnit) :
  In x (escapeUnit c) ->
  x <> 34%N /\ x <> 39%N /\ x <> 10%N /\ (c <> 10%N -> x <> 60%N /\ x <> 62%N).
Proof.
  unfold escapeUnit.
  destruct (N.eqb_spec c 38) as [->|H38]; [intros H; entity_units H|].
  destruct (N.eqb_spec c 60) as [->|H60]; [intros H; entity_units H|].
  destruct (N.eqb_spec c 62) as [->|H62]; [intros H; entity_units H|].
  destruct (N.eqb_spec c 34) as [->|H34]; [intros H; entity_units H|].
  destruct (N.eqb_spec c 39) as [->|H39]; [intros H; entity_units H|].
  destruct (N.eqb_spec c 10) as [->|H10].
  - intros H. vm_compute in H.
    repeat (destruct H as [<-|H];
            [split; [discriminate|split; [discriminate|split; [discriminate|]]];
             intros Hc; exfalso; apply Hc; reflexivity|]).
    destruct H.
  - intros [<-|[]]. repeat split; assumption.
Qed.

(** X18.  [escapeHtml] escapes each character of the text once: the six
    replacements in a row give what one pass over the text gives, so the
    ampersand of an entity written by an earlier replacement is never
    escaped again.  The result holds no double quote, no apostrophe and no
    line feed, and an angle bracket of the result belongs to a [<br/>]
    written for a line feed of the text. *)
Theorem escapeHtml_escapes_once_and_leaves_no_markup (text : jsstring) :
  escapeHtml text = flat_map escapeUnit text
  /\ forall x, In x (escapeHtml text) ->
               x <> 34%N /\ x <> 39%N /\ x <> 10%N
               /\ (~ In 10%N text -> x <> 60%N /\ x <> 62%N).
Proof.
  split; [apply escapeHtml_single_pass|].
  intros x Hx. rewrite escapeHtml_single_pass in Hx.
  apply in_flat_map in Hx as (c & Hc & Hx).
  destruct (escapeUnit_safe c x Hx) as (H1 & H2 & H3 & H4).
  split; [exact H1|]. split; [exact H2|]. split; [exact H3|].
  intros Hnl. apply H4. intros ->. exact (Hnl Hc).
Qed.

(** ** The splitter of the incremental analysis *)

Import Splitter.


(** *** Where the pieces of a split lie *)

Lemma dropWhileWs_suffix (s : jsstring) : exists pre, s = pre ++ dropWhileWs s.
Proof.
  induction s as [|c s IH]; simpl; [exists []; reflexivity|].
  destruct (isWhiteSpace c); [|exists []; reflexivity].
  destruct IH as [pre Hpre]. exists (c :: pre). simpl. f_equal. exact Hpre.
Qed.

Lemma trim_inside (s : jsstring) : exists pre post, s = pre ++ trim s ++ post.
Proof.
  unfold trim. destruct (dropWhileWs_suffix s) as [pre Hpre].
  destruct (dropWhileWs_suffix (rev (dropWhileWs s))) as [pre2 Hpre2].
  exists pre, (rev pre2). rewrite Hpre at 1. f_equal.
  rewrite <- rev_app_distr, <- Hpre2, rev_involutive. reflexivity.
Qed.

Lemma occursAt_inside (text inner search : jsstring) (a k : Z) :
  occursAt text inner a -> occursAt inner search k -> occursAt text search (a + k).
Proof.
  intros Ha Hk. apply occursAt_split in Ha as (pre & post & -> & <-).
  apply occursAt_split in Hk as (pre' & post' & -> & <-).
  apply occursAt_split. exists (pre ++ pre'), (post' ++ post).
  split; [|apply len_app]. rewrite <- !app_assoc. reflexivity.
Qed.

Lemma occursAt_whole (text : jsstring) : occursAt text text 0.
Proof.
  apply occursAt_split. exists [], []. split; [|reflexivity]. simpl. rewrite app_nil_r. reflexivity.
Qed.

(** The trimmed substring lies inside the range it was cut from. *)
Lemma trim_substring_occurs (text : jsstring) (a b : Z) :
  0 <= a <= b -> b <= len text ->
  exists q, a <= q /\ q + len (trim (substringZ text a b)) <= b
            /\ occursAt text (trim (substringZ text a b)) q.
Proof.
  intros Ha Hb.
  assert (Hsub : occursAt text (substringZ text a b) a /\ len (substringZ text a b) = b - a).
  { rewrite substringZ_slice by lia.
    assert (Hl : len (firstn (Z.to_nat (b - a)) (skipn (Z.to_nat a) text)) = b - a).
    { unfold len in *. rewrite length_firstn, length_skipn. lia. }
    split; [|exact Hl].
    split; [lia|]. split; [rewrite Hl; lia|].
    rewrite Hl. replace (a + (b - a)) with b by lia. apply substringZ_slice; lia. }
  destruct Hsub as [Hocc Hlen].
  destruct (trim_inside (substringZ text a b)) as (pre & post & Heq).
  assert (Hin : occursAt (substringZ text a b) (trim (substringZ text a b)) (len pre)).
  { apply occursAt_split. exists pre, post. split; [exact Heq|reflexivity]. }
  exists (a + len pre).
  pose proof (len_nonneg pre). pose proof (len_nonneg post).
  assert (Hl2 : len (substringZ text a b)
                = len pre + len (trim (substringZ text a b)) + len post).
  { rewrite Heq at 1. rewrite !len_app. lia. }
  split; [lia|]. split; [lia|].
  exact (occursAt_inside _ _ _ _ _ Hocc Hin).
Qed.

(** A later search finds an occurrence no later than one that is known. *)
Lemma indexOf_finds (text search : jsstring) (from q : Z) :
  occursAt text search q -> from <= q ->
  let r := indexOf text search from in
  from <= r /\ r <= q /\ occursAt text search r.
Proof.
  intros Hocc Hfrom r.
  assert (Hc : clampIndex text from <= q).
  { destruct Hocc as (H0 & Hle & _). pose proof (len_nonneg search).
    unfold clampIndex. lia. }
  assert (Hne : r <> -1).
  { intros Hr. exact (indexOf_none _ _ _ _ Hr Hc Hocc). }
  destruct (indexOf_found text search from r eq_refl Hne) as [Hge Hr].
  assert (Hfr : from <= r).
  { destruct Hr as (H0 & _). unfold clampIndex in Hge.
    pose proof (len_nonneg text). destruct Hocc as (Hq0 & Hqle & _).
    pose proof (len_nonneg search). lia. }
  split; [exact Hfr|]. split; [|exact Hr].
  destruct (Z_le_gt_dec r q) as [Hle|Hgt]; [exact Hle|].
  exfalso. apply (indexOf_first text search from r q eq_refl Hne); [lia|exact Hocc].
Qed.

(** [laidOut gap text k pieces e]: the pieces occur in the text one after
    the other, the first at or after [k], each at least [gap] after the end
    of the one before, and [e] is at or after the end of the last plus
    [gap]. *)
Inductive laidOut (gap : Z) (text : jsstring) : Z -> list jsstring -> Z -> Prop :=
| laidOut_nil (k e : Z) : k <= e -> laidOut gap text k [] e
| laidOut_cons (k q : Z) (p : jsstring) (ps : list jsstring) (e : Z) :
    k <= q -> occursAt text p q -> laidOut gap text (q + len p + gap) ps e ->
    laidOut gap text k (p :: ps) e.

Lemma laidOut_earlier (gap : Z) (text : jsstring) (k k' e : Z) (ps : list jsstring) :
  laidOut gap text k ps e -> k' <= k -> laidOut gap text k' ps e.
Proof.
  intros H Hk. destruct H.
  - constructor. lia.
  - econstructor; [|eassumption|eassumption]. lia.
Qed.

Lemma laidOut_later_end (gap : Z) (text : jsstring) (k e e' : Z) (ps : list jsstring) :
  laidOut gap text k ps e -> e <= e' -> laidOut gap text k ps e'.
Proof.
  intros H He. induction H.
  - constructor. lia.
  - econstructor; eauto.
Qed.

Lemma laidOut_snoc (gap : Z) (text : jsstring) (k e q e' : Z) (ps : list jsstring)
    (p : jsstring) :
  laidOut gap text k ps e -> e <= q -> occursAt text p q -> q + len p + gap <= e' ->
  laidOut gap text k (ps ++ [p]) e'.
Proof.
  intros H Hq Hp He. induction H; simpl.
  - econstructor; [|exact Hp|constructor; exact He]. lia.
  - econstructor; eauto.
Qed.

(** *** The paragraphs *)

(** [interleaved s pieces]: [s] is the pieces with a separator of two code
    units or more between each two. *)
Inductive interleaved : jsstring -> list jsstring -> Prop :=
| interleaved_one (p : jsstring) : interleaved p [p]
| interleaved_cons (p sep s : jsstring) (ps : list jsstring) :
    2 <= len sep -> interleaved s ps -> interleaved (p ++ sep ++ s) (p :: ps).

Lemma interleaved_head (c : codeUnit) (s p : jsstring) (ps : list jsstring) :
  interleaved s (p :: ps) -> interleaved (c :: s) ((c :: p) :: ps).
Proof.
  intros H. inversion H; subst.
  - constructor.
  - change (c :: p ++ sep ++ s0) with ((c :: p) ++ sep ++ s0). constructor; assumption.
Qed.

Lemma throughLastLineFeed_bounds (run : jsstring) (n : nat) :
  throughLastLineFeed run = Some n -> (1 <= n <= List.length run)%nat.
Proof.
  revert n; induction run as [|c run IH]; simpl; intros n H; [discriminate|].
  destruct (throughLastLineFeed run) as [m|].
  - injection H as <-. specialize (IH m eq_refl). lia.
  - destruct (N.eqb c 10); [|discriminate]. injection H as <-. lia.
Qed.

Lemma takeWhileWs_length (s : jsstring) : (List.length (takeWhileWs s) <= List.length s)%nat.
Proof.
  induction s as [|c s IH]; simpl; [lia|]. destruct (isWhiteSpace c); simpl; lia.
Qed.

Lemma separatorAfter_bounds (rest : jsstring) (n : nat) :
  separatorAfter rest = Some n -> (1 <= n <= List.length rest)%nat.
Proof.
  unfold separatorAfter. intros H. apply throughLastLineFeed_bounds in H.
  pose proof (takeWhileWs_length rest). lia.
Qed.

Lemma splitLoop_interleaved (s : jsstring) :
  forall (skip : nat) (cur : jsstring),
    (skip <= List.length s)%nat ->
    exists p ps, splitLoop s skip cur = (rev cur ++ p) :: ps
                 /\ interleaved (skipn skip s) (p :: ps).
Proof.
  induction s as [|c s IH]; intros skip cur Hskip.
  - simpl in Hskip. assert (skip = O) as -> by lia. simpl.
    exists [], []. rewrite app_nil_r. split; [reflexivity|constructor].
  - destruct skip as [|k].
    + simpl splitLoop. simpl skipn.
      assert (Hplain : exists p ps, splitLoop s 0 (c :: cur) = (rev cur ++ p) :: ps
                                    /\ interleaved (c :: s) (p :: ps)).
      { destruct (IH O (c :: cur) ltac:(lia)) as (p & ps & Heq & Hil).
        exists (c :: p), ps. split.
        - rewrite Heq. simpl. rewrite <- app_assoc. reflexivity.
        - simpl in Hil. apply interleaved_head. exact Hil. }
      destruct (N.eqb c 10); [|exact Hplain].
      destruct (separatorAfter s) as [n|] eqn:Esep; [|exact Hplain].
      apply separatorAfter_bounds in Esep.
      destruct (IH n [] ltac:(lia)) as (p & ps & Heq & Hil).
      exists [], (p :: ps). split.
      * rewrite Heq. simpl. rewrite app_nil_r. reflexivity.
      * pose proof (interleaved_cons [] (c :: firstn n s) (skipn n s) (p :: ps)) as Hc.
        simpl in Hc. rewrite firstn_skipn in Hc. apply Hc; [|exact Hil].
        unfold len. simpl. rewrite length_firstn. lia.
    + simpl. simpl in Hskip. apply IH. lia.
Qed.

Lemma interleaved_laidOut (s : jsstring) (pieces : list jsstring) :
  interleaved s pieces ->
  forall pre text, text = pre ++ s -> laidOut 2 text (len pre) pieces (len text + 2).
Proof.
  induction 1 as [p|p sep s ps Hsep Hil IH]; intros pre text ->.
  - econstructor; [reflexivity| |].
    + apply occursAt_split. exists pre, []. rewrite app_nil_r. split; reflexivity.
    + constructor. rewrite len_app. lia.
  - econstructor; [reflexivity| |].
    + apply occursAt_split. exists pre, (sep ++ s). split; reflexivity.
    + apply (laidOut_earlier _ _ (len (pre ++ p ++ sep))).
      * apply IH. rewrite <- !app_assoc. reflexivity.
      * rewrite !len_app. lia.
Qed.

Lemma splitParagraphs_laidOut (text : jsstring) :
  laidOut 2 text 0 (splitParagraphs text) (len text + 2).
Proof.
  unfold splitParagraphs.
  destruct (splitLoop_interleaved text O [] ltac:(lia)) as (p & ps & Heq & Hil).
  rewrite Heq. simpl. simpl in Hil.
  exact (interleaved_laidOut _ _ Hil [] text eq_refl).
Qed.

(** *** The sentences *)

Fixpoint runsFrom (n k : Z) (runs : list (Z * Z)) : Prop :=
  match runs with
  | [] => True
  | (b, e) :: rest => k <= b /\ b <= e /\ e <= n /\ runsFrom n e rest
  end.

Lemma runsFrom_earlier (n k k' : Z) (runs : list (Z * Z)) :
  runsFrom n k runs -> k' <= k -> runsFrom n k' runs.
Proof.
  destruct runs as [|[b e] rest]; simpl; [auto|]. intros (H1 & H2 & H3 & H4) Hk.
  repeat split; try assumption. lia.
Qed.

Lemma enderRuns_runsFrom (s : jsstring) :
  forall (i : Z) (opened : option Z),
    match opened with Some b => b <= i | None => True end ->
    runsFrom (i + len s) (match opened with Some b => b | None => i end)
             (enderRuns s i opened).
Proof.
  induction s as [|c s IH]; intros i opened Hop.
  - simpl. destruct opened as [b|]; simpl; [|exact I].
    unfold len; simpl. repeat split; lia.
  - assert (Hn : i + len (c :: s) = (i + 1) + len s) by (change (c :: s) with ([c] ++ s); rewrite len_app; change (len [c]) with 1; lia).
    rewrite Hn. simpl enderRuns.
    destruct (isSentenceEnder c).
    + destruct opened as [b|].
      * apply (IH (i + 1) (Some b)). lia.
      * apply (IH (i + 1) (Some i)). lia.
    + destruct opened as [b|].
      * simpl. pose proof (len_nonneg s). repeat split; try lia.
        apply (runsFrom_earlier _ (i + 1)); [apply (IH (i + 1) None I)|lia].
      * apply (runsFrom_earlier _ (i + 1)); [apply (IH (i + 1) None I)|lia].
Qed.

Lemma sentence_loop_laidOut (text : jsstring) (runs : list (Z * Z)) :
  forall (sentences : list jsstring) (lastIndex k : Z),
    runsFrom (len text) k runs -> 0 <= lastIndex <= k -> k <= len text ->
    laidOut 0 text 0 sentences lastIndex ->
    let st := fold_left (sentenceStep text) runs (sentences, lastIndex) in
    laidOut 0 text 0 (fst st) (snd st) /\ 0 <= snd st <= len text.
Proof.
  induction runs as [|[b e] runs IH]; intros sentences lastIndex k Hruns Hlast Hk Hlaid.
  - simpl. split; [exact Hlaid|lia].
  - simpl in Hruns. destruct Hruns as (Hkb & Hbe & Hen & Hrest).
    cbn [fold_left]. cbn zeta.
    assert (Hstep : exists sentences' lastIndex',
               sentenceStep text (sentences, lastIndex) (b, e) = (sentences', lastIndex')
               /\ 0 <= lastIndex' <= e /\ laidOut 0 text 0 sentences' lastIndex').
    { unfold sentenceStep.
      match goal with |- context [if ?c then _ else _] => destruct c end.
      - destruct (trim_substring_occurs text lastIndex e ltac:(lia) Hen) as (q & Hq1 & Hq2 & Hocc).
        destruct (0 <? len (trim (substringZ text lastIndex e))).
        + eexists _, _. split; [reflexivity|]. split; [lia|].
          apply (laidOut_snoc 0 text 0 lastIndex q); try assumption. lia.
        + eexists _, _. split; [reflexivity|]. split; [lia|].
          apply (laidOut_later_end 0 text 0 lastIndex); [assumption|lia].
      - eexists _, _. split; [reflexivity|]. split; [lia|]. exact Hlaid. }
    destruct Hstep as (sentences' & lastIndex' & -> & Hl' & Hlaid').
    apply (IH sentences' lastIndex' e); try assumption; lia.
Qed.

Lemma splitIntoSentences_laidOut (text : jsstring) :
  laidOut 0 text 0 (splitIntoSentences text) (len text).
Proof.
  unfold splitIntoSentences.
  pose proof (sentence_loop_laidOut text (enderRuns text 0 None) [] 0 0) as H.
  pose proof (len_nonneg text) as Hlen.
  specialize (H (enderRuns_runsFrom text 0 None I) ltac:(lia) Hlen
                (laidOut_nil 0 text 0 0 ltac:(lia))).
  cbn zeta in H.
  destruct (fold_left (sentenceStep text) (enderRuns text 0 None) ([], 0))
    as [sentences lastIndex]. simpl in H. destruct H as [Hlaid Hlast].
  destruct (trim_substring_occurs text lastIndex (len text) ltac:(lia) ltac:(lia))
    as (q & Hq1 & Hq2 & Hocc).
  set (remaining := trim (substringZ text lastIndex (len text))) in *.
  assert (Hall : laidOut 0 text 0
                   (if 0 <? len remaining then sentences ++ [remaining] else sentences)
                   (len text)).
  { destruct (0 <? len remaining).
    - apply (laidOut_snoc 0 text 0 lastIndex q); try assumption. lia.
    - apply (laidOut_later_end 0 text 0 lastIndex); [assumption|lia]. }
  destruct (if 0 <? len remaining then sentences ++ [remaining] else sentences)
    as [|s ss]; [|exact Hall].
  econstructor; [reflexivity|apply occursAt_whole|]. constructor. lia.
Qed.

(** *** The sections *)

(** A section that reads its content at its span and carries the hash of
    its trimmed content. *)
Definition wellPlaced (text : jsstring) (section : TextSection) : Prop :=
  occursAt text (content section) (startIndex section)
  /\ endIndex section = startIndex section + len (content section)
  /\ hash section = simpleHash (trim (content section)).

(** Sections in text order, none overlapping the next, all ended by [bound]. *)
Definition inOrder (bound : Z) (sections : list TextSection) : Prop :=
  StronglySorted (fun a b => endIndex a <= startIndex b) sections
  /\ Forall (fun a => endIndex a <= bound) sections.

Lemma inOrder_later (bound bound' : Z) (sections : list TextSection) :
  inOrder bound sections -> bound <= bound' -> inOrder bound' sections.
Proof.
  intros [Hs Hb] Hle. split; [exact Hs|].
  eapply Forall_impl; [|exact Hb]. simpl. intros a Ha. lia.
Qed.

Lemma inOrder_snoc (bound : Z) (sections : list TextSection) (section : TextSection) :
  inOrder bound sections -> bound <= startIndex section ->
  startIndex section <= endIndex section ->
  inOrder (endIndex section) (sections ++ [section]).
Proof.
  intros [Hs Hb] Hle Hse. split.
  - induction sections as [|a sections IH]; simpl.
    + constructor; constructor.
    + inversion Hs; subst. inversion Hb; subst. constructor.
      * apply IH; assumption.
      * apply Forall_app. split; [assumption|]. constructor; [lia|constructor].
  - apply Forall_app. split.
    + eapply Forall_impl; [|exact Hb]. simpl. intros a Ha. lia.
    + constructor; [lia|constructor].
Qed.

Lemma makeSection_wellPlaced (text piece : jsstring) (k : Z) :
  occursAt text piece k -> wellPlaced text (makeSection piece k).
Proof. intros H. unfold wellPlaced, makeSection. simpl. auto. Qed.

Lemma sentence_sections (text paragraph : jsstring) (paragraphStart : Z)
    (sentences : list jsstring) :
  occursAt text paragraph paragraphStart ->
  forall (sections : list TextSection) (start k e : Z),
    laidOut 0 paragraph k sentences e -> start <= k ->
    Forall (wellPlaced text) sections -> inOrder (paragraphStart + start) sections ->
    let st := fold_left (sentenceSection paragraph paragraphStart) sentences
                        (sections, start) in
    Forall (wellPlaced text) (fst st) /\ inOrder (paragraphStart + snd st) (fst st)
    /\ snd st <= e.
Proof.
  intros Hpar. induction sentences as [|sentence sentences IH];
    intros sections start k e Hlaid Hstart Hwp Hord.
  - simpl. inversion Hlaid; subst. repeat split; try assumption; try apply Hord. lia.
  - inversion Hlaid as [|? q ? ? ? Hkq Hocc Hrest]; subst.
    pose proof (len_nonneg sentence) as Hlen.
    assert (Hstep : exists sections' start',
               sentenceSection paragraph paragraphStart (sections, start) sentence
               = (sections', start')
               /\ start' <= q + len sentence + 0
               /\ Forall (wellPlaced text) sections'
               /\ inOrder (paragraphStart + start') sections').
    { unfold sentenceSection. destruct (len (trim sentence) <? 10).
      - eexists _, _. split; [reflexivity|]. split; [lia|]. split; [assumption|].
        apply (inOrder_later (paragraphStart + start)); [assumption|lia].
      - destruct (indexOf_finds paragraph sentence start q Hocc ltac:(lia))
          as (Hfrom & Hle & Hfound). cbn zeta in Hfrom, Hle, Hfound.
        eexists _, _. split; [reflexivity|]. split; [lia|]. split.
        + apply Forall_app. split; [assumption|]. constructor; [|constructor].
          apply makeSection_wellPlaced.
          exact (occursAt_inside _ _ _ _ _ Hpar Hfound).
        + pose proof (inOrder_snoc (paragraphStart + start) sections
                        (makeSection sentence
                           (paragraphStart + indexOf paragraph sentence start)) Hord) as Hsn.
          simpl in Hsn. rewrite <- Z.add_assoc in Hsn. apply Hsn; lia. }
    destruct Hstep as (sections' & start' & Heq & Hs' & Hwp' & Hord').
    cbn [fold_left]. rewrite Heq.
    exact (IH sections' start' _ e Hrest Hs' Hwp' Hord').
Qed.

Lemma paragraph_sections (text : jsstring) (paragraphs : list jsstring) :
  forall (sections : list TextSection) (currentIndex k e : Z),
    laidOut 2 text k paragraphs e -> currentIndex <= k ->
    Forall (wellPlaced text) sections -> inOrder currentIndex sections ->
    let st := fold_left (paragraphSection text) paragraphs (sections, currentIndex) in
    Forall (wellPlaced text) (fst st) /\ inOrder (snd st) (fst st).
Proof.
  induction paragraphs as [|paragraph paragraphs IH];
    intros sections currentIndex k e Hlaid Hcur Hwp Hord.
  - simpl. split; assumption.
  - inversion Hlaid as [|? q ? ? ? Hkq Hocc Hrest]; subst.
    pose proof (len_nonneg paragraph) as Hlen.
    assert (Hstep : exists sections' currentIndex',
               paragraphSection text (sections, currentIndex) paragraph
               = (sections', currentIndex')
               /\ currentIndex' <= q + len paragraph + 2
               /\ Forall (wellPlaced text) sections'
               /\ inOrder currentIndex' sections').
    { unfold paragraphSection. destruct (len (trim paragraph) =? 0).
      - eexists _, _. split; [reflexivity|]. split; [lia|]. split; [assumption|].
        apply (inOrder_later currentIndex); [assumption|lia].
      - destruct (indexOf_finds text paragraph currentIndex q Hocc ltac:(lia))
          as (Hfrom & Hle & Hfound). cbn zeta in Hfrom, Hle, Hfound.
        cbn zeta. eexists _, _. split; [reflexivity|]. split; [lia|].
        destruct (len paragraph <? 200).
        + split.
          * apply Forall_app. split; [assumption|]. constructor; [|constructor].
            apply makeSection_wellPlaced. exact Hfound.
          * pose proof (inOrder_snoc currentIndex sections
                          (makeSection paragraph (indexOf text paragraph currentIndex))
                          Hord) as Hsn.
            simpl in Hsn.
            eapply inOrder_later; [apply Hsn; lia|lia].
        + pose proof (sentence_sections text paragraph (indexOf text paragraph currentIndex)
                        (splitIntoSentences paragraph) Hfound sections 0 0 (len paragraph)
                        (splitIntoSentences_laidOut paragraph) ltac:(lia) Hwp) as Hsent.
          cbn zeta in Hsent.
          destruct Hsent as (Hwp' & Hord' & Hend).
          { apply (inOrder_later currentIndex); [assumption|lia]. }
          split; [exact Hwp'|].
          eapply inOrder_later; [exact Hord'|lia]. }
    destruct Hstep as (sections' & currentIndex' & Heq & Hs' & Hwp' & Hord').
    cbn [fold_left]. rewrite Heq.
    exact (IH sections' currentIndex' _ e Hrest Hs' Hwp' Hord').
Qed.

Lemma splitter_sections (text : jsstring) :
  splitTextIntoAnalysisSections text <> []
  /\ Forall (wellPlaced text) (splitTextIntoAnalysisSections text)
  /\ StronglySorted (fun a b => endIndex a <= startIndex b)
                    (splitTextIntoAnalysisSections text).
Proof.
  unfold splitTextIntoAnalysisSections.
  pose proof (paragraph_sections text (splitParagraphs text) [] 0 0 (len text + 2)
                (splitParagraphs_laidOut text) ltac:(lia) (Forall_nil _)) as H.
  cbn zeta in H.
  destruct H as [Hwp [Hsorted _]].
  { split; constructor. }
  destruct (fst (fold_left (paragraphSection text) (splitParagraphs text) ([], 0)))
    as [|section sections].
  - split; [discriminate|]. split.
    + constructor; [|constructor]. apply makeSection_wellPlaced. apply occursAt_whole.
    + constructor; constructor.
  - split; [discriminate|]. split; assumption.
Qed.

(** X19.  The sections that [splitTextIntoAnalysisSections] returns are
    never none; each one lies inside the text, reads its content there and
    carries the hash of its trimmed content: the searches for a paragraph in
    the text and for a sentence in its paragraph never fail; and the
    sections come in text order, none reaching into the next. *)
Theorem sections_lie_in_the_text_in_order (text : jsstring) :
  let sections := splitTextIntoAnalysisSections text in
  sections <> []
  /\ (forall section, In section sections ->
        0 <= startIndex section /\ endIndex section <= len text
        /\ substringZ text (startIndex section) (endIndex section) = content section
        /\ endIndex section = startIndex section + len (content section)
        /\ hash section = simpleHash (trim (content section)))
  /\ StronglySorted (fun a b => endIndex a <= startIndex b) sections.
Proof.
  cbn zeta. destruct (splitter_sections text) as (Hne & Hwp & Hsorted).
  split; [exact Hne|]. split; [|exact Hsorted].
  intros section Hin. rewrite Forall_forall in Hwp.
  destruct (Hwp section Hin) as ((H0 & Hle & Hsub) & Hend & Hhash).
  rewrite Hend. repeat split; assumption.
Qed.

(** X20.  A section of the text whose trimmed content is that of a section
    of the previous text is not reported as changed, wherever the two lie. *)
Theorem section_with_known_content_is_not_changed
    (previousText text : jsstring) (section : TextSection) :
  In section (splitTextIntoAnalysisSections text) ->
  (exists p, In p (splitTextIntoAnalysisSections previousText)
             /\ trim (content p) = trim (content section)) ->
  ~ In section (detectChangedSections (splitTextIntoAnalysisSections text)
                                      (splitTextIntoAnalysisSections previousText)).
Proof.
  intros Hin (p & Hp & Heq) Hchanged.
  destruct (splitter_sections text) as (_ & Hwp & _).
  destruct (splitter_sections previousText) as (_ & Hwp' & _).
  rewrite Forall_forall in Hwp, Hwp'.
  destruct (Hwp section Hin) as (_ & _ & Hhash).
  destruct (Hwp' p Hp) as (_ & _ & Hhash').
  unfold detectChangedSections in Hchanged. apply filter_In in Hchanged as [_ Hneg].
  assert (Hhas : hasHash (splitTextIntoAnalysisSections previousText) (hash section) = true).
  { apply hasHash_true_iff. exists p. split; [exact Hp|]. congruence. }
  rewrite Hhas in Hneg. discriminate.
Qed.

Lemma section_with_known_content_is_not_changed_witness :
  let previousText := js "Hello there." ++ [10; 10]%N ++ js "Second one." in
  let text := js "Hello there." ++ [10; 32; 10]%N ++ js "Second two." in
  ~ In (makeSection (js "Hello there.") 0)
       (detectChangedSections (splitTextIntoAnalysisSections text)
                              (splitTextIntoAnalysisSections previousText)).
Proof.
  intros previousText text.
  apply (section_with_known_content_is_not_changed previousText text).
  - vm_compute. left. reflexivity.
  - exists (makeSection (js "Hello there.") 0). split; [|reflexivity].
    vm_compute. left. reflexivity.
Defined.

(** ** Mapping the answer for the changed sections back to the document *)

Import Incremental.


Lemma js_injective (a b : string) : js a = js b -> a = b.
Proof.
  unfold js. intros H.
  rewrite <- (string_of_list_ascii_of_string a), <- (string_of_list_ascii_of_string b).
  f_equal. revert H. generalize (list_ascii_of_string a) (list_ascii_of_string b).
  intros la. induction la as [|x la IH]; intros [|y lb]; simpl; intros H;
    try reflexivity; try discriminate.
  injection H as Hxy Hl. f_equal; [|apply IH; exact Hl].
  rewrite <- (ascii_N_embedding x), <- (ascii_N_embedding y). congruence.
Qed.

Lemma numberToString_injective (m n : Z) :
  0 <= m -> 0 <= n -> numberToString m = numberToString n -> m = n.
Proof.
  unfold numberToString. intros Hm Hn H. apply js_injective in H.
  assert (Hu : Some (N.to_uint (Z.to_N m)) = Some (N.to_uint (Z.to_N n))).
  { rewrite <- !NilEmpty.usu. rewrite H. reflexivity. }
  injection Hu as Hu. apply Unsigned.to_uint_inj in Hu. lia.
Qed.

(** The ids handed out from the counter [first] on. *)
Definition idsFrom (first : Z) (n : nat) : list jsstring :=
  map (fun i => js "openai-" ++ numberToString (first + Z.of_nat i)) (seq 0 n).

Lemma idsFrom_NoDup (first : Z) (n : nat) : 0 <= first -> NoDup (idsFrom first n).
Proof.
  intros Hf. unfold idsFrom. apply NoDup_map_NoDup_ForallPairs; [|apply seq_NoDup].
  intros i j _ _ H. apply app_inv_head in H.
  apply numberToString_injective in H; lia.
Qed.

Lemma idsFrom_openai (first : Z) (n : nat) (i : jsstring) :
  In i (idsFrom first n) -> startsWith i (js "openai-") = true.
Proof.
  unfold idsFrom. intros H. apply in_map_iff in H as (k & <- & _).
  unfold startsWith. apply isPrefixOf_app.
Qed.

(** What the loops keep true of the suggestions mapped so far: their ids
    are those handed out since [first], each reads its original in the text
    and is an answered suggestion with another id and position. *)
Definition mappedSoFar (fullText : jsstring) (answered : list Suggestion) (first : Z)
    (st : list Suggestion * Z) : Prop :=
  exists n : nat,
    snd st = first + Z.of_nat n
    /\ map id (fst st) = idsFrom first n
    /\ Forall (fun m => spanHolds fullText m
                        /\ exists r, In r answered
                                     /\ m = withIdAndPosition r (id m) (start (position m))
                                                              (end_ (position m)))
              (fst st).

Lemma mapSuggestion_mappedSoFar (fullText : jsstring) (answered : list Suggestion)
    (first : Z) (section : TextSection) (offset : Z) (st : list Suggestion * Z)
    (suggestion : Suggestion) :
  In suggestion answered ->
  mappedSoFar fullText answered first st ->
  mappedSoFar fullText answered first (mapSuggestion fullText section offset st suggestion).
Proof.
  intros Hin (n & Hcount & Hids & Hall). destruct st as [mapped counter]. simpl in *.
  unfold mapSuggestion.
  match goal with |- context [streq ?a ?b] => destruct (streq a b) eqn:E end.
  - apply streq_true_iff in E. exists (S n). simpl. split; [lia|]. split.
    + rewrite map_app, Hids. unfold idsFrom. rewrite seq_S, map_app. simpl.
      rewrite Hcount. reflexivity.
    + apply Forall_app. split; [exact Hall|]. constructor; [|constructor].
      split; [exact E|]. exists suggestion. split; [exact Hin|reflexivity].
  - exists n. simpl. auto.
Qed.

Lemma mapSuggestion_loop (fullText : jsstring) (answered : list Suggestion) (first : Z)
    (section : TextSection) (offset : Z) (l : list Suggestion) :
  forall st, (forall r, In r l -> In r answered) ->
             mappedSoFar fullText answered first st ->
             mappedSoFar fullText answered first
                         (fold_left (mapSuggestion fullText section offset) l st).
Proof.
  induction l as [|r l IH]; intros st Hl Hst; simpl; [exact Hst|].
  apply IH; [intros x Hx; apply Hl; right; exact Hx|].
  apply mapSuggestion_mappedSoFar; [apply Hl; left; reflexivity|exact Hst].
Qed.

Lemma mapSection_loop (fullText : jsstring) (answered : list Suggestion) (first : Z)
    (sections : list TextSection) :
  forall st, mappedSoFar fullText answered first (fst st) ->
             mappedSoFar fullText answered first
                         (fst (fold_left (mapSection fullText answered) sections st)).
Proof.
  induction sections as [|section sections IH]; intros [acc offset] Hst; simpl; [exact Hst|].
  apply IH. simpl. apply mapSuggestion_loop; [|exact Hst].
  intros r Hr. apply filter_In in Hr. tauto.
Qed.

(** X22.  What [analyzeChangedSectionsWithOpenAI] returns: nothing unless
    the response is ok and holds an array of suggestions; otherwise
    suggestions of that array, each with a new id and a position in the
    document at which the text reads its original; the ids are
    semantic-sourced ([openai-]) and no two are the same. *)
Theorem mapped_suggestions_are_verified
    (changedSections : list TextSection) (fullText : jsstring) (suggestionIdCounter : Z)
    (response : FetchOutcome) :
  0 <= suggestionIdCounter ->
  let mapped := analyzeChangedSectionsWithOpenAI changedSections fullText
                                                  suggestionIdCounter response in
  NoDup (map id mapped)
  /\ forall m, In m mapped ->
       spanHolds fullText m /\ getSuggestionSource m = openai
       /\ exists status answered r,
            response = HttpResponse true status (SuggestionsBody answered)
            /\ In r answered
            /\ m = withIdAndPosition r (id m) (start (position m)) (end_ (position m)).
Proof.
  intros Hc. cbn zeta. unfold analyzeChangedSectionsWithOpenAI.
  destruct response as [|[|] status [| |answered]];
    try (split; [constructor|intros m []]).
  destruct (mapSection_loop fullText answered suggestionIdCounter changedSections
              ([], suggestionIdCounter, 0)) as (n & _ & Hids & Hall).
  { exists O. simpl. split; [lia|]. split; [reflexivity|constructor]. }
  split.
  - rewrite Hids. apply idsFrom_NoDup. exact Hc.
  - intros m Hm. rewrite Forall_forall in Hall.
    destruct (Hall m Hm) as (Hspan & r & Hr & Heq).
    split; [exact Hspan|]. split.
    + unfold getSuggestionSource.
      rewrite (idsFrom_openai suggestionIdCounter n (id m)); [reflexivity|].
      rewrite <- Hids. apply in_map. exact Hm.
    + exists status, answered, r. auto.
Qed.

Lemma mapped_suggestions_are_verified_witness :
  let fullText := js "Teh cat." ++ [10; 32; 32; 10]%N ++ js "A dog." in
  let r := mkSuggestion (js "s1") grammar (mkPosition 12 15) (js "dog") (js "hound")
                        None None (js "why") 1 in
  let mapped := analyzeChangedSectionsWithOpenAI (splitTextIntoAnalysisSections fullText)
                  fullText 7 (HttpResponse true 200 (SuggestionsBody [r; r])) in
  NoDup (map id mapped)
  /\ forall m, In m mapped ->
       spanHolds fullText m /\ getSuggestionSource m = openai
       /\ exists status answered r',
            HttpResponse true 200 (SuggestionsBody [r; r])
            = HttpResponse true status (SuggestionsBody answered)
            /\ In r' answered
            /\ m = withIdAndPosition r' (id m) (start (position m)) (end_ (position m)).
Proof.
  intros fullText r.
  apply (mapped_suggestions_are_verified (splitTextIntoAnalysisSections fullText)
           fullText 7 (HttpResponse true 200 (SuggestionsBody [r; r]))).
  lia.
Defined.

(** The offset, in the combined text, after the sections [before]. *)
Fixpoint offsetAfter (before : list TextSection) : Z :=
  match before with
  | [] => 0
  | s :: rest => len (content s) + 2 + offsetAfter rest
  end.

Lemma mapSection_offset (fullText : jsstring) (answered : list Suggestion)
    (before : list TextSection) :
  forall st, snd (fold_left (mapSection fullText answered) before st)
             = snd st + offsetAfter before.
Proof.
  induction before as [|s before IH]; intros [acc offset]; simpl; [lia|].
  rewrite IH. simpl. lia.
Qed.

Lemma combinedTextOf_cons (s : TextSection) (rest : list TextSection) :
  exists post, combinedTextOf (s :: rest) = content s ++ post
               /\ (rest <> [] -> post = [10; 10]%N ++ combinedTextOf rest).
Proof.
  destruct rest as [|s' rest].
  - exists []. simpl. rewrite app_nil_r. split; [reflexivity|congruence].
  - eexists. split; [reflexivity|]. intros _. reflexivity.
Qed.

(** The content of a section lies in the combined text at its offset. *)
Lemma combinedTextOf_section (before after : list TextSection) (section : TextSection) :
  occursAt (combinedTextOf (before ++ section :: after)) (content section)
           (offsetAfter before).
Proof.
  induction before as [|s before IH].
  - simpl app. destruct (combinedTextOf_cons section after) as (post & -> & _).
    apply occursAt_split. exists [], post. split; reflexivity.
  - apply occursAt_split in IH as (pre & post & Heq & Hlen).
    apply occursAt_split.
    exists (content s ++ [10; 10]%N ++ pre), post. split.
    + change ((s :: before) ++ section :: after) with (s :: (before ++ section :: after)).
      destruct (combinedTextOf_cons s (before ++ section :: after)) as (post' & -> & Hpost).
      rewrite Hpost by (destruct before; discriminate).
      rewrite Heq. rewrite <- !app_assoc. reflexivity.
    + rewrite !len_app, Hlen. simpl offsetAfter. change (len [10; 10]%N) with 2. lia.
Qed.

(** Inside an occurrence, the text reads what the occurring string reads. *)
Lemma substringZ_inside (text inner : jsstring) (k i j : Z) :
  occursAt text inner k -> 0 <= i <= j -> j <= len inner ->
  substringZ text (k + i) (k + j) = substringZ inner i j.
Proof.
  intros Hocc Hij Hj. apply occursAt_split in Hocc as (pre & post & -> & <-).
  pose proof (len_nonneg pre).
  rewrite substringZ_app_right by (rewrite ?len_app; pose proof (len_nonneg post); lia).
  replace (len pre + i - len pre) with i by lia.
  replace (len pre + j - len pre) with j by lia.
  apply substringZ_app_left; lia.
Qed.

Lemma mapSuggestion_keeps (fullText : jsstring) (section : TextSection) (offset : Z)
    (l : list Suggestion) (m : Suggestion) :
  forall st, In m (fst st) ->
             In m (fst (fold_left (mapSuggestion fullText section offset) l st)).
Proof.
  induction l as [|r l IH]; intros [mapped counter] Hm; simpl; [exact Hm|].
  apply IH. unfold mapSuggestion.
  match goal with |- context [streq ?a ?b] => destruct (streq a b) end; simpl.
  - apply in_or_app. left. exact Hm.
  - exact Hm.
Qed.

Lemma mapSection_keeps (fullText : jsstring) (answered : list Suggestion)
    (sections : list TextSection) (m : Suggestion) :
  forall st, In m (fst (fst st)) ->
             In m (fst (fst (fold_left (mapSection fullText answered) sections st))).
Proof.
  induction sections as [|s sections IH]; intros [acc offset] Hm; simpl; [exact Hm|].
  apply IH. simpl. apply mapSuggestion_keeps. exact Hm.
Qed.

(** A suggestion of the list that passes the check is pushed. *)
Lemma mapSuggestion_pushes (fullText : jsstring) (section : TextSection) (offset : Z)
    (l : list Suggestion) (r : Suggestion) :
  In r l ->
  substring fullText
            (inject_Z (startIndex section) + (start (position r) - inject_Z offset))%Q
            (inject_Z (startIndex section) + (end_ (position r) - inject_Z offset))%Q
  = original r ->
  forall st, exists m,
      In m (fst (fold_left (mapSuggestion fullText section offset) l st))
      /\ exists newId,
          m = withIdAndPosition r newId
                (inject_Z (startIndex section) + (start (position r) - inject_Z offset))%Q
                (inject_Z (startIndex section) + (end_ (position r) - inject_Z offset))%Q.
Proof.
  intros Hin Hsub. induction l as [|x l IH]; [destruct Hin|].
  intros [mapped counter]. destruct Hin as [->|Hin].
  - cbn [fold_left].
    assert (Hstep : exists newId,
               mapSuggestion fullText section offset (mapped, counter) r
               = (mapped ++ [withIdAndPosition r newId
                    (inject_Z (startIndex section) + (start (position r) - inject_Z offset))%Q
                    (inject_Z (startIndex section) + (end_ (position r) - inject_Z offset))%Q],
                  counter + 1)).
    { unfold mapSuggestion. rewrite Hsub, streq_refl. eexists. reflexivity. }
    destruct Hstep as (newId & ->).
    eexists. split.
    + apply mapSuggestion_keeps. simpl. apply in_or_app. right. left. reflexivity.
    + exists newId. reflexivity.
  - cbn [fold_left]. apply IH. exact Hin.
Qed.

(** X23.  An answered suggestion placed rightly in the combined text is
    mapped rightly into the document: when its span [a, b) lies within the
    part of the combined text that is the content of a changed section,
    reads its original there, and the section reads its content in the
    document at its start index, the suggestion is returned at the span
    moved by the distance between the section's start in the document and
    its offset in the combined text, and the document reads its original
    there. *)
Theorem answer_inside_a_section_is_mapped
    (before after : list TextSection) (section : TextSection) (fullText : jsstring)
    (suggestionIdCounter status a b : Z) (answered : list Suggestion) (r : Suggestion) :
  occursAt fullText (content section) (startIndex section) ->
  In r answered ->
  (start (position r) == inject_Z a)%Q -> (end_ (position r) == inject_Z b)%Q ->
  offsetAfter before <= a <= b -> b <= offsetAfter before + len (content section) ->
  substringZ (combinedTextOf (before ++ section :: after)) a b = original r ->
  exists m,
    In m (analyzeChangedSectionsWithOpenAI (before ++ section :: after) fullText
            suggestionIdCounter (HttpResponse true status (SuggestionsBody answered)))
    /\ original m = original r /\ suggested m = suggested r
    /\ (start (position m) == inject_Z (startIndex section + (a - offsetAfter before)))%Q
    /\ (end_ (position m) == inject_Z (startIndex section + (b - offsetAfter before)))%Q
    /\ spanHolds fullText m.
Proof.
  intros Hplaced Hr Ha Hb Hab Hbe Hreads.
  set (o := offsetAfter before) in *.
  assert (Hstart : (inject_Z (startIndex section) + (start (position r) - inject_Z o)
                    == inject_Z (startIndex section + (a - o)))%Q).
  { rewrite Ha. unfold Z.sub. rewrite !inject_Z_plus, inject_Z_opp. reflexivity. }
  assert (Hend : (inject_Z (startIndex section) + (end_ (position r) - inject_Z o)
                  == inject_Z (startIndex section + (b - o)))%Q).
  { rewrite Hb. unfold Z.sub. rewrite !inject_Z_plus, inject_Z_opp. reflexivity. }
  assert (Hsub : substring fullText
                   (inject_Z (startIndex section) + (start (position r) - inject_Z o))%Q
                   (inject_Z (startIndex section) + (end_ (position r) - inject_Z o))%Q
                 = original r).
  { rewrite (substring_comp _ _ _ _ _ Hstart Hend). unfold substring.
    rewrite !toInteger_inject_Z.
    rewrite (substringZ_inside fullText (content section)) by (assumption || lia).
    rewrite <- Hreads.
    pose proof (combinedTextOf_section before after section) as Hc. fold o in Hc.
    rewrite <- (substringZ_inside _ _ _ _ _ Hc) by lia.
    f_equal; lia. }
  unfold analyzeChangedSectionsWithOpenAI. rewrite fold_left_app. simpl fold_left.
  destruct (fold_left (mapSection fullText answered) before ([], suggestionIdCounter, 0))
    as [acc offset] eqn:Ebefore.
  assert (Hoff : offset = o).
  { pose proof (mapSection_offset fullText answered before ([], suggestionIdCounter, 0)) as H.
    rewrite Ebefore in H. simpl in H. exact H. }
  subst offset.
  destruct (mapSuggestion_pushes fullText section o
              (filter (withinSection o section) answered) r) with (st := acc)
    as (m & Hm & newId & Heq); [|exact Hsub|].
  { apply filter_In. split; [exact Hr|]. unfold withinSection.
    apply andb_true_iff. split; apply Qle_bool_iff.
    - rewrite Ha. rewrite <- Zle_Qle. lia.
    - rewrite Hb. rewrite <- Zle_Qle. lia. }
  exists m. split.
  - apply mapSection_keeps. unfold mapSection at 1. simpl. exact Hm.
  - subst m. simpl. repeat split; assumption.
Qed.

Lemma answer_inside_a_section_is_mapped_witness :
  let fullText := js "Teh cat." ++ [10; 32; 32; 10]%N ++ js "A dog." in
  let changedSections := splitTextIntoAnalysisSections fullText in
  let r := mkSuggestion (js "s1") grammar (mkPosition 12 15) (js "dog") (js "hound")
                        None None (js "why") 1 in
  exists m,
    In m (analyzeChangedSectionsWithOpenAI changedSections fullText 7
            (HttpResponse true 200 (SuggestionsBody [r])))
    /\ original m = js "dog" /\ suggested m = js "hound"
    /\ (start (position m) == inject_Z 14)%Q /\ (end_ (position m) == inject_Z 17)%Q
    /\ spanHolds fullText m.
Proof.
  intros fullText changedSections r.
  apply (answer_inside_a_section_is_mapped
           [makeSection (js "Teh cat.") 0] [] (makeSection (js "A dog.") 12)
           fullText 7 200 12 15 [r] r).
  - vm_compute. repeat split; discriminate.
  - left. reflexivity.
  - reflexivity.
  - reflexivity.
  - vm_compute. split; discriminate.
  - vm_compute. discriminate.
  - reflexivity.
Defined.

(** ** Selecting a suggestion *)

Import Selection.

(** X24.  Clicking a suggestion whose original occurs in the text selects
    it with a span at which the text reads its original, whatever span it
    came with; the text is not changed; if the suggestion was in the set,
    the selected one is in the set afterwards; and the suggestions with
    another id are those there were. *)
Theorem click_selects_a_span_that_reads_the_original
    (st : State) (suggestion : Suggestion) (k : Z) :
  original suggestion <> [] -> occursAt (value st) (original suggestion) k ->
  exists st' selected,
    handleSuggestionClick st suggestion = Some st'
    /\ selectedSuggestion st' = Some selected
    /\ id selected = id suggestion /\ original selected = original suggestion
    /\ spanHolds (value st') selected
    /\ value st' = value st
    /\ (In suggestion (suggestions st) -> In selected (suggestions st'))
    /\ (forall x, id x <> id suggestion ->
                  (In x (suggestions st') <-> In x (suggestions st))).
Proof.
  intros Hne Hocc. unfold handleSuggestionClick, locate. simpl value.
  destruct (findExactTextPosition_returns (value st) (original suggestion)
              (start (position suggestion)) (end_ (position suggestion))
              (contextBefore suggestion) (contextAfter suggestion) Hne) as [r Hr].
  rewrite Hr. simpl bind.
  assert (Hfound : found r = true
                   /\ substring (value st) (l_start r) (l_end r) = original suggestion).
  { destruct (findExactTextPosition_cases _ _ _ _ _ _ _ Hr)
      as [(-> & _ & _ & _ & Hsub) | [(p & Hp & ->) | (Hno & _)]]; simpl.
    - split; [reflexivity|exact Hsub].
    - split; [reflexivity|]. apply substring_at_occurrence. exact Hp.
    - exfalso. exact (Hno k Hocc). }
  destruct Hfound as [Hfound Hsub]. rewrite Hfound. simpl andb.
  destruct (Qneq_bool (l_start r) (start (position suggestion))
            || Qneq_bool (l_end r) (end_ (position suggestion))) eqn:Emoved.
  - eexists _, _. split; [reflexivity|]. simpl.
    split; [reflexivity|]. split; [reflexivity|]. split; [reflexivity|].
    split; [exact Hsub|]. split; [reflexivity|]. split.
    + intros Hin. apply in_map_iff. exists suggestion. rewrite streq_refl. auto.
    + intros x Hx. rewrite in_map_iff. split.
      * intros (y & Hy & Hin). destruct (streq (id y) (id suggestion)) eqn:E.
        -- subst x. simpl in Hx. congruence.
        -- subst y. exact Hin.
      * intros Hin. exists x. split; [|exact Hin].
        destruct (streq (id x) (id suggestion)) eqn:E; [|reflexivity].
        apply streq_true_iff in E. congruence.
  - apply orb_false_iff in Emoved as [Es Ee].
    unfold Qneq_bool in Es, Ee. apply negb_false_iff in Es, Ee.
    apply Qeq_bool_iff in Es, Ee.
    eexists _, _. split; [reflexivity|]. simpl.
    split; [reflexivity|]. split; [reflexivity|]. split; [reflexivity|].
    split.
    + unfold spanHolds. rewrite <- Hsub. apply substring_comp; symmetry; assumption.
    + split; [reflexivity|]. split; [auto|]. intros x _. reflexivity.
Qed.

Lemma click_selects_a_span_that_reads_the_original_witness :
  let s := sampleSuggestion "typo-1" 0 3 "cat" in
  let st := sampleState "Teh cat sat." [s] in
  exists st' selected,
    handleSuggestionClick st s = Some st'
    /\ selectedSuggestion st' = Some selected
    /\ id selected = id s /\ original selected = original s
    /\ spanHolds (value st') selected
    /\ value st' = value st
    /\ (In s (suggestions st) -> In selected (suggestions st'))
    /\ (forall x, id x <> id s -> (In x (suggestions st') <-> In x (suggestions st))).
Proof.
  intros s st.
  apply (click_selects_a_span_that_reads_the_original st s 4).
  - discriminate.
  - vm_compute. repeat split; discriminate.
Defined.

(** ** The contexts that the dictionary passes record *)

Import Contexts.

Lemma takeWhileWs_dropWhileWs (s : jsstring) : s = takeWhileWs s ++ dropWhileWs s.
Proof.
  induction s as [|c s IH]; simpl; [reflexivity|].
  destruct (isWhiteSpace c); simpl; [f_equal; exact IH|reflexivity].
Qed.

Lemma takeWhileWs_app_length (a b : jsstring) :
  len (takeWhileWs a) <= len (takeWhileWs (a ++ b)).
Proof.
  induction a as [|c a IH]; simpl; [apply len_nonneg|].
  destruct (isWhiteSpace c); [|apply len_nonneg].
  change (c :: takeWhileWs a) with ([c] ++ takeWhileWs a).
  change (c :: takeWhileWs (a ++ b)) with ([c] ++ takeWhileWs (a ++ b)).
  rewrite !len_app. lia.
Qed.

(** [trim] cuts the white space at both ends, and nothing else. *)
Lemma trim_cuts (s : jsstring) :
  s = takeWhileWs s ++ trim s ++ rev (takeWhileWs (rev (dropWhileWs s))).
Proof.
  unfold trim. rewrite (takeWhileWs_dropWhileWs s) at 1. f_equal.
  rewrite <- rev_app_distr, <- takeWhileWs_dropWhileWs, rev_involutive. reflexivity.
Qed.

Lemma len_rev (s : jsstring) : len (rev s) = len s.
Proof. unfold len. rewrite length_rev. reflexivity. Qed.

(** The white space that [trim] cuts at the end of [s] is white space at the
    end of whatever [s] ends. *)
Lemma trim_tail_length (before s : jsstring) :
  len (takeWhileWs (rev (dropWhileWs s))) <= len (takeWhileWs (rev (before ++ s))).
Proof.
  rewrite (takeWhileWs_dropWhileWs s) at 2.
  rewrite app_assoc, rev_app_distr. apply takeWhileWs_app_length.
Qed.

Lemma occursAt_includes (text search : jsstring) (k : Z) :
  occursAt text search k -> includes text search = true.
Proof.
  intros Hocc. unfold includes.
  pose proof Hocc as (Hk & _).
  destruct (indexOf_finds text search 0 k Hocc Hk) as (H0 & _).
  apply Z.leb_le. exact H0.
Qed.

(** An occurrence inside a range is an occurrence in the substring. *)
Lemma occursAt_substringZ (text search : jsstring) (a b q : Z) :
  occursAt text search q -> 0 <= a <= q -> q + len search <= b -> b <= len text ->
  occursAt (substringZ text a b) search (q - a).
Proof.
  intros Hocc Ha Hb Hbl. pose proof (len_nonneg search) as Hs.
  assert (Hlen : len (substringZ text a b) = b - a).
  { rewrite substringZ_length, !clampIndex_id by lia. lia. }
  split; [lia|]. split; [lia|].
  destruct Hocc as (_ & _ & Hsub). rewrite <- Hsub at 2.
  assert (Hsa : occursAt text (substringZ text a b) a).
  { split; [lia|]. split; [lia|]. rewrite Hlen. f_equal. lia. }
  rewrite <- (substringZ_inside text (substringZ text a b) a (q - a) (q - a + len search) Hsa)
    by lia.
  f_equal; lia.
Qed.

Lemma substringZ_occursAt (text : jsstring) (a b : Z) :
  0 <= a <= b -> b <= len text ->
  occursAt text (substringZ text a b) a /\ len (substringZ text a b) = b - a.
Proof.
  intros Ha Hb.
  assert (Hlen : len (substringZ text a b) = b - a).
  { rewrite substringZ_length, !clampIndex_id by lia. lia. }
  split; [|exact Hlen]. split; [lia|]. split; [lia|]. rewrite Hlen. f_equal. lia.
Qed.

Lemma contextGiven_Some (c c' : jsstring) : contextGiven (Some c) = Some c' -> c' = c.
Proof.
  unfold contextGiven. destruct (truthy (Some c) && truthy (Some (trim c))); congruence.
Qed.

Lemma firstn_two_parts {A} (n m : nat) (l : list A) :
  firstn (n + m) l = firstn n l ++ firstn m (skipn n l).
Proof.
  revert l; induction n as [|n IH]; intros l; simpl; [reflexivity|].
  destruct l as [|x l]; simpl; [rewrite firstn_nil; reflexivity|].
  f_equal. apply IH.
Qed.

Lemma substringZ_two_parts (text : jsstring) (a b c : Z) :
  0 <= a <= b -> b <= c -> c <= len text ->
  substringZ text a c = substringZ text a b ++ substringZ text b c.
Proof.
  intros Ha Hb Hc. rewrite !substringZ_slice by lia.
  replace (Z.to_nat (c - a)) with (Z.to_nat (b - a) + Z.to_nat (c - b))%nat by lia.
  rewrite firstn_two_parts, skipn_skipn. do 3 f_equal. lia.
Qed.

(** The context recorded before an occurrence is found again by the test of
    [findWithContext] when at most ten white-space characters end at the
    occurrence. *)
Lemma context_before_is_included (text : jsstring) (p : Z) :
  0 <= p <= len text ->
  len (takeWhileWs (rev (substringZ text 0 p))) <= 10 ->
  let cb := getContextBefore text p in
  includes (substringZ text (Z.max 0 (p - len cb - 10)) p) cb = true.
Proof.
  intros Hp Hws cb. unfold getContextBefore in cb. cbn zeta in cb.
  set (s0 := Z.max 0 (p - 20)) in *. set (X := substringZ text s0 p) in *.
  destruct (substringZ_occursAt text s0 p ltac:(lia) ltac:(lia)) as [HX HXlen]. fold X in HX, HXlen.
  pose proof (trim_cuts X) as Hcut. fold cb in Hcut.
  set (L := takeWhileWs X) in *. set (T := rev (takeWhileWs (rev (dropWhileWs X)))) in *.
  assert (HT : len T <= 10).
  { unfold T. rewrite len_rev.
    eapply Z.le_trans; [apply (trim_tail_length (substringZ text 0 s0) X)|].
    unfold X. rewrite <- substringZ_two_parts by lia. exact Hws. }
  assert (Hin : occursAt X cb (len L)).
  { apply occursAt_split. exists L, T. split; [exact Hcut|reflexivity]. }
  pose proof (occursAt_inside _ _ _ _ _ HX Hin) as Hq.
  assert (Hlens : p - s0 = len L + len cb + len T).
  { rewrite <- HXlen. rewrite Hcut at 1. rewrite !len_app. lia. }
  pose proof (len_nonneg L). pose proof (len_nonneg T). pose proof (len_nonneg cb).
  apply (occursAt_includes _ _ (s0 + len L - Z.max 0 (p - len cb - 10))).
  apply occursAt_substringZ; try assumption; lia.
Qed.

Lemma context_after_is_included (text : jsstring) (e : Z) :
  0 <= e <= len text ->
  len (takeWhileWs (substringZ text e (len text))) <= 10 ->
  let ca := getContextAfter text e in
  includes (substringZ text e (Z.min (len text) (e + len ca + 10))) ca = true.
Proof.
  intros He Hws ca. unfold getContextAfter in ca. cbn zeta in ca.
  set (e1 := Z.min (len text) (e + 20)) in *. set (Y := substringZ text e e1) in *.
  destruct (substringZ_occursAt text e e1 ltac:(lia) ltac:(lia)) as [HY HYlen]. fold Y in HY, HYlen.
  pose proof (trim_cuts Y) as Hcut. fold ca in Hcut.
  set (L := takeWhileWs Y) in *. set (T := rev (takeWhileWs (rev (dropWhileWs Y)))) in *.
  assert (HL : len L <= 10).
  { unfold L.
    eapply Z.le_trans; [apply (takeWhileWs_app_length Y (substringZ text e1 (len text)))|].
    unfold Y. rewrite <- substringZ_two_parts by lia. exact Hws. }
  assert (Hin : occursAt Y ca (len L)).
  { apply occursAt_split. exists L, T. split; [exact Hcut|reflexivity]. }
  pose proof (occursAt_inside _ _ _ _ _ HY Hin) as Hq.
  assert (Hlens : e1 - e = len L + len ca + len T).
  { rewrite <- HYlen. rewrite Hcut at 1. rewrite !len_app. lia. }
  pose proof (len_nonneg L). pose proof (len_nonneg T). pose proof (len_nonneg ca).
  apply (occursAt_includes _ _ (e + len L - e)).
  apply occursAt_substringZ; try assumption; lia.
Qed.

(** X25.  The contexts that the dictionary passes record with a suggestion
    ([getContextBefore] at the start of the word, [getContextAfter] at its
    end) do not hide the word from [findWithContext]: as long as at most ten
    white-space characters end at the word and at most ten follow it, the
    occurrence they were read from passes both context tests. *)
Theorem recorded_contexts_accept_their_occurrence
    (text word : jsstring) (docStart : Z) :
  occursAt text word docStart ->
  len (takeWhileWs (rev (substringZ text 0 docStart))) <= 10 ->
  len (takeWhileWs (substringZ text (docStart + len word) (len text))) <= 10 ->
  exists m,
    contextMatchAt text word
                   (Some (getContextBefore text docStart))
                   (Some (getContextAfter text (docStart + len word))) docStart = Some m
    /\ c_start m = docStart /\ c_end m = docStart + len word.
Proof.
  intros Hocc Hbefore Hafter. pose proof Hocc as (H0 & Hle & _).
  pose proof (len_nonneg word) as Hw.
  unfold contextMatchAt.
  destruct (contextGiven (Some (getContextBefore text docStart))) as [cb|] eqn:Eb.
  - apply contextGiven_Some in Eb. subst cb.
    rewrite (context_before_is_included text docStart ltac:(lia) Hbefore).
    destruct (contextGiven (Some (getContextAfter text (docStart + len word)))) as [ca|] eqn:Ea.
    + apply contextGiven_Some in Ea. subst ca.
      rewrite (context_after_is_included text (docStart + len word) ltac:(lia) Hafter).
      eexists. split; [reflexivity|]. split; reflexivity.
    + eexists. split; [reflexivity|]. split; reflexivity.
  - destruct (contextGiven (Some (getContextAfter text (docStart + len word)))) as [ca|] eqn:Ea.
    + apply contextGiven_Some in Ea. subst ca.
      rewrite (context_after_is_included text (docStart + len word) ltac:(lia) Hafter).
      eexists. split; [reflexivity|]. split; reflexivity.
    + eexists. split; [reflexivity|]. split; reflexivity.
Qed.

Lemma recorded_contexts_accept_their_occurrence_witness :
  let text := js "I think you you should go." in
  exists m,
    contextMatchAt text (js "you")
                   (Some (getContextBefore text 12))
                   (Some (getContextAfter text (12 + len (js "you")))) 12 = Some m
    /\ c_start m = 12 /\ c_end m = 12 + len (js "you").
Proof.
  intros text.
  apply (recorded_contexts_accept_their_occurrence text (js "you") 12).
  - vm_compute. repeat split; discriminate.
  - vm_compute. discriminate.
  - vm_compute. discriminate.
Defined.

(** Eleven spaces before the word are enough for its own context to reject
    it. *)
Example recorded_context_rejects_after_eleven_spaces :
  let text := js "a           teh" in
  contextMatchAt text (js "teh") (Some (getContextBefore text 12))
                 (Some (getContextAfter text 15)) 12 = None.
Proof. vm_compute. reflexivity. Qed.
